(** * Pseudo-label refinement of Net/predutils.py

    A shallow embedding of [spatial_correction], of the label building of
    [pseudo_labels], of [labels_by_percentage] and of
    [labels_by_neighborhood], with the properties the specification states
    about them.  The masked map of [plot_maps], the loop of the script of
    the module and, of main.py, the dictionary of clusters and the
    selection of all the pseudo labels are embedded as well.

    Conventions of the embedding.
    - A numpy array of rank 2 is a record holding its shape and its cells in
      row-major order ([ravel] order).
    - A Python exception is a value of [exn]; a function that can raise
      returns a [result].
    - Finite floating-point values are the rationals they denote.  Order
      comparisons of floats are exact, so they are the comparisons of [Q];
      the one rounded operation of the module, the product
      [percentage*len(...)], goes through [Binary64.round].  NaN and the
      infinities are outside the model (the specification leaves them
      undefined).
    - numpy's [argsort] is a parameter of [labels_by_percentage], known by
      its contract only. *)

From Stdlib Require Import ZArith QArith Qround Qpower Qabs Lia Lqa String.
From Stdlib Require Import Permutation Sorted.
From stdpp Require Import base list gmap.


(** ** Exceptions *)

Inductive exn : Type :=
| ValueError (msg : string)
| IndexError (msg : string).

Inductive result (A : Type) : Type :=
| Ok (a : A)
| Raise (e : exn).
Arguments Ok {A} a.
Arguments Raise {A} e.

#[global] Instance result_ret : MRet result := fun A a => Ok a.
#[global] Instance result_bind : MBind result := fun A B k m =>
  match m with
  | Ok a => k a
  | Raise e => Raise e
  end.

(** [for x in xs: s = body(s, x)], an exception leaves the loop. *)
Fixpoint foldM {S X : Type} (body : S -> X -> result S) (s : S) (xs : list X)
  : result S :=
  match xs with
  | [] => Ok s
  | x :: xs' => s' ← body s x; foldM body s' xs'
  end.

(** [[f(x) for x in xs]], an exception leaves the comprehension. *)
Fixpoint traverse {X Y : Type} (f : X -> result Y) (xs : list X)
  : result (list Y) :=
  match xs with
  | [] => Ok []
  | x :: xs' => y ← f x; ys ← traverse f xs'; Ok (y :: ys)
  end.

(** ** Python slices *)

(** Position denoted by a slice bound [i] in a sequence of length [len]:
    a negative bound counts from the end, and every bound is clipped. *)
Definition slice_bound (len : nat) (i : Z) : nat :=
  if (i <? 0)%Z then Z.to_nat (Z.max 0 (i + Z.of_nat len))
  else Z.to_nat (Z.min i (Z.of_nat len)).

(** [l[start:stop]] *)
Definition py_slice {A : Type} (start stop : Z) (l : list A) : list A :=
  let a := slice_bound (length l) start in
  let b := slice_bound (length l) stop in
  take (b - a) (drop a l).

(** ** Arrays of rank 2 *)

Record array2 (A : Type) : Type := Array2 {
  max_r : nat;
  max_c : nat;
  cells : list A
}.
Arguments Array2 {A} _ _ _.
Arguments max_r {A} _.
Arguments max_c {A} _.
Arguments cells {A} _.

(** Every numpy array satisfies this. *)
Definition wf_array2 {A : Type} (a : array2 A) : Prop :=
  length (cells a) = max_r a * max_c a.

Definition row_of {A : Type} (a : array2 A) (r : nat) : list A :=
  take (max_c a) (drop (r * max_c a) (cells a)).

Definition rows {A : Type} (a : array2 A) : list (list A) :=
  row_of a <$> seq 0 (max_r a).

(** [a[row, col]] for indices that are not negative. *)
Definition getitem2 {A : Type} (a : array2 A) (row col : nat) : result A :=
  if bool_decide (row < max_r a) && bool_decide (col < max_c a) then
    match cells a !! (row * max_c a + col) with
    | Some v => Ok v
    | None => Raise (IndexError "index is out of bounds"%string)
    end
  else Raise (IndexError "index is out of bounds"%string).

(** [a[ux:lx, uy:ly].ravel()] *)
Definition slice2_ravel {A : Type} (a : array2 A) (ux lx uy ly : Z) : list A :=
  concat (py_slice uy ly <$> py_slice ux lx (rows a)).

(** [np.reshape(l, shape)] of a flat array. *)
Definition np_reshape {A : Type} (l : list A) (shape : nat * nat)
  : result (array2 A) :=
  if decide (length l = fst shape * snd shape)
  then Ok (Array2 (fst shape) (snd shape) l)
  else Raise (ValueError "cannot reshape array"%string).

(** [[(row, col) for row in range(max_r) for col in range(max_c)]] *)
Definition scan (max_r max_c : nat) : list (nat * nat) :=
  row ← seq 0 max_r; col ← seq 0 max_c; [(row, col)].

(** ** collections.Counter *)

Section Grid.
Context {A : Type} `{EqDecision A}.

(** [c[x] += 1]: a dictionary keeps its keys in insertion order. *)
Fixpoint counter_add (x : A) (c : list (A * nat)) : list (A * nat) :=
  match c with
  | [] => [(x, 1)]
  | (y, n) :: c' =>
      if decide (x = y) then (y, S n) :: c' else (y, n) :: counter_add x c'
  end.

Definition Counter (l : list A) : list (A * nat) :=
  foldl (fun c x => counter_add x c) [] l.

(** [c[x]], zero for a missing key. *)
Fixpoint counter_get (x : A) (c : list (A * nat)) : nat :=
  match c with
  | [] => 0
  | (y, n) :: c' => if decide (x = y) then n else counter_get x c'
  end.

(** Insertion of one item in a list sorted by decreasing count, before
    the first item whose count is not greater. *)
Fixpoint insert_desc (p : A * nat) (s : list (A * nat)) : list (A * nat) :=
  match s with
  | [] => [p]
  | q :: s' =>
      if (snd p <? snd q)%nat then q :: insert_desc p s' else p :: q :: s'
  end.

(** [counter.most_common()], that is
    [sorted(counter.items(), key=itemgetter(1), reverse=True)]: a stable
    sort, items of equal count stay in insertion order. *)
Definition most_common (c : list (A * nat)) : list (A * nat) :=
  foldr insert_desc [] c.

(** ** spatial_correction *)

Definition upper_bound (i : nat) (radius : Z) : Z :=
  Z.max 0 (Z.of_nat i - (radius - 1)).

Definition lower_bound (max_i i : nat) (radius : Z) : Z :=
  Z.min (Z.of_nat max_i) (Z.of_nat i + radius).

(** The cells under the moving kernel at [(row, col)], raveled. *)
Definition kernel (prediction : array2 A) (radius : Z) (row col : nat)
  : list A :=
  let upper_x := upper_bound row radius in
  let upper_y := upper_bound col radius in
  let lower_x := lower_bound (max_r prediction) row radius in
  let lower_y := lower_bound (max_c prediction) col radius in
  slice2_ravel prediction upper_x lower_x upper_y lower_y.

(** The value written at [corrected[row, col]]. *)
Definition corrected_cell (prediction : array2 A) (radius : Z)
  (row col : nat) : result A :=
  let counts := most_common (Counter (kernel prediction radius row col)) in
  match counts with
  | (l0, n0) :: (_, n1) :: _ =>
      if (n0 =? n1)%nat then getitem2 prediction row col else Ok l0
  | [(l0, _)] => Ok l0
  | [] => Raise (IndexError "list index out of range"%string)
  end.

(** Every cell of [corrected] is assigned once, in the order of the two
    loops; the initial [np.zeros] content never survives, and an
    exception discards the array.  The loops are therefore the traversal
    of the positions in that order.  [corrected] is an array of floats:
    its cells hold the labels as the floats of the same value. *)
Definition spatial_correction (prediction : array2 A) (radius : Z)
  : result (array2 A) :=
  let max_r := max_r prediction in
  let max_c := max_c prediction in
  corrected ← traverse (fun '(row, col) =>
                          corrected_cell prediction radius row col)
                       (scan max_r max_c);
  Ok (Array2 max_r max_c corrected).

(** Default value of the parameter [radius] of [spatial_correction]. *)
Definition default_radius : Z := 3.

End Grid.

(** ** Binary64 arithmetic on the rationals *)

Module Binary64.

Definition prec : Z := 53.
Definition emin : Z := (-1074)%Z.

Definition pow2 (e : Z) : Q := (2 ^ e)%Q.

(** [floor (log2 x)] for [0 < x]. *)
Definition ilog2 (x : Q) : Z :=
  let d := (Z.log2 (Qnum x) - Z.log2 (Zpos (Qden x)))%Z in
  if Qle_bool (pow2 d) x then d else (d - 1)%Z.

(** Nearest integer, ties to the even one. *)
Definition rne (x : Q) : Z :=
  let f := Qfloor x in
  match (x - inject_Z f ?= 1 # 2)%Q with
  | Lt => f
  | Gt => (f + 1)%Z
  | Eq => if Z.even f then f else (f + 1)%Z
  end.

(** Rounding to the nearest binary64 number, ties to even, subnormal
    numbers included.  Overflow to an infinity is not modelled: the
    arguments rounded below are bounded by the length of an array. *)
Definition round (x : Q) : Q :=
  if Qeq_bool x 0 then 0%Q
  else
    let e := Z.max (ilog2 (Qabs x) - (prec - 1)) emin in
    (inject_Z (rne (x / pow2 e)) * pow2 e)%Q.

(** [float(n)] *)
Definition of_int (n : Z) : Q := round (inject_Z n).

(** [x * y] on floats *)
Definition mul (x y : Q) : Q := round (x * y).

(** [int(x)]: truncation toward zero *)
Definition to_int (x : Q) : Z :=
  if Qle_bool 0 x then Qfloor x else Qceiling x.

End Binary64.

(** ** Labels and pseudo-label records *)

(** Modelled from the spec: config.py, which holds the constants
    [CHANGED_LABEL], [UNCHANGED_LABEL] and [UNKNOWN_LABEL], is not among the
    sources.  The specification has them as the three values of a
    categorical label. *)
Inductive label : Type :=
| CHANGED_LABEL
| UNCHANGED_LABEL
| UNKNOWN_LABEL.

#[global] Instance label_eq_dec : EqDecision label.
Proof. solve_decision. Defined.

(** The dictionary dumped by the script of the module: its three entries. *)
Record pseudo_dict : Type := PseudoDict {
  distances : list Q;
  threshold : Q;
  shape : nat * nat
}.

(** [x > y] on floats; [x <= y] is [Qle_bool]. *)
Definition Qgtb (x y : Q) : bool := negb (Qle_bool x y).

#[global] Instance Qle_decision (x y : Q) : Decision (x <= y)%Q.
Proof.
  destruct (Qlt_le_dec y x) as [Hlt|Hle]; [right|left].
  - by apply Qlt_not_le.
  - exact Hle.
Defined.

#[global] Instance Qlt_decision (x y : Q) : Decision (x < y)%Q.
Proof.
  destruct (Qlt_le_dec x y) as [Hlt|Hle]; [left|right].
  - exact Hlt.
  - by apply Qle_not_lt.
Defined.

(** [distances[i]] *)
Definition distance_at (distances : list Q) (i : nat) : Q :=
  nth i distances 0%Q.

(** [np.where(distances > threshold, CHANGED_LABEL, UNCHANGED_LABEL)], the
    label building of [pseudo_labels], of [labels_by_neighborhood] and of
    the script. *)
Definition where_changed (distances : list Q) (threshold : Q) : list label :=
  (fun d => if Qgtb d threshold then CHANGED_LABEL else UNCHANGED_LABEL)
    <$> distances.

(** ** pseudo_labels *)

Section PseudoLabels.

(** The images, the distance function ([SAM] or the euclidean distance
    of the module siamese) and Otsu's thresholding come from outside the
    module. *)
Variable image : Type.
Variable dist_function : image * image -> list Q.
Variable threshold_otsu : list Q -> Q.

Definition pseudo_labels (first_img second_img : image)
  (return_distances : bool) : (list Q + list label) * Q :=
  let distances := dist_function (first_img, second_img) in
  let threshold := threshold_otsu distances in
  let returned_map :=
    if return_distances then inl distances
    else inr (where_changed distances threshold) in
  (returned_map, threshold).

End PseudoLabels.

(** [np.where(mask)[0]]: the positions of the true entries, increasing. *)
Fixpoint nonzero_from (i : nat) (mask : list bool) : list nat :=
  match mask with
  | [] => []
  | b :: mask' =>
      if b then i :: nonzero_from (S i) mask' else nonzero_from (S i) mask'
  end.

Definition nonzero (mask : list bool) : list nat := nonzero_from 0 mask.

(** [a[idx]] for an array of positions [idx]. *)
Definition fancy {X : Type} (a : list X) (idx : list nat) : result (list X) :=
  traverse (fun i => match a !! i with
                     | Some v => Ok v
                     | None => Raise (IndexError "index is out of bounds"%string)
                     end) idx.

(** [np.full(k, v)] *)
Definition np_full {X : Type} (k : Z) (v : X) : result (list X) :=
  if (k <? 0)%Z then Raise (ValueError "negative dimensions are not allowed"%string)
  else Ok (replicate (Z.to_nat k) v).

(** The two validation errors of the module. *)
Definition percentage_error : exn :=
  ValueError "ERROR: percentage must be a float in ]0,1]"%string.

Definition radius_error : exn :=
  ValueError "ERROR: radius must be a int >=1"%string.

(** [int(percentage*n)] for a length [n] *)
Definition int_percentage (percentage : Q) (n : nat) : Z :=
  Binary64.to_int (Binary64.mul percentage (Binary64.of_int (Z.of_nat n))).

(** ** labels_by_percentage *)

Section Percentage.

(** [keys.argsort()] of numpy.  Its default sort is not stable, so only
    its contract is assumed: the result lists every position once, and
    reading the keys in that order gives a sorted sequence. *)
Variable argsort : list Q -> list nat.

Definition argsort_contract : Prop :=
  forall keys : list Q,
    Permutation (argsort keys) (seq 0 (length keys)) /\
    Sorted Qle ((fun i => nth i keys 0%Q) <$> argsort keys).

Definition labels_by_percentage (pseudo_dict : pseudo_dict) (percentage : Q)
  : result (list nat * list label) :=
  if Qle_bool percentage 0 || Qgtb percentage 1 then
    Raise percentage_error
  else
    let pseudo_distances := distances pseudo_dict in
    let threshold := threshold pseudo_dict in
    let N := nonzero ((fun d => Qle_bool d threshold) <$> pseudo_distances) in
    let C := nonzero ((fun d => Qgtb d threshold) <$> pseudo_distances) in
    (* an np.c_ matrix is the list of its rows (distance, position) *)
    dN ← fancy pseudo_distances N;
    dC ← fancy pseudo_distances C;
    let nmatrix := zip dN N in
    let cmatrix := zip dC C in
    nmatrix ← fancy nmatrix (argsort (fst <$> nmatrix));
    cmatrix ← fancy cmatrix (argsort (Qopp <$> (fst <$> cmatrix)));
    let kn := int_percentage percentage (length nmatrix) in
    let kc := int_percentage percentage (length cmatrix) in
    ln ← np_full kn UNCHANGED_LABEL;
    lc ← np_full kc CHANGED_LABEL;
    let labels := ln ++ lc in
    let selected_data :=
      (snd <$> py_slice 0 kn nmatrix) ++ (snd <$> py_slice 0 kc cmatrix) in
    Ok (selected_data, labels).

End Percentage.

(** ** labels_by_neighborhood *)

(** Body of the two loops: one more pixel examined. *)
Definition neighborhood_step (pseudo_lab : array2 label) (radius : Z)
  (st : list nat * list label) (pos : nat * nat)
  : result (list nat * list label) :=
  let '(selected_data, label_list) := st in
  let '(row, col) := pos in
  let counts := most_common (Counter (kernel pseudo_lab radius row col)) in
  if (length counts =? 1)%nat then
    v ← getitem2 pseudo_lab row col;
    Ok (selected_data ++ [row * max_c pseudo_lab + col], label_list ++ [v])
  else Ok st.

Definition labels_by_neighborhood (pseudo_dict : pseudo_dict) (radius : Z)
  : result (list nat * list label) :=
  if (radius <? 1)%Z then Raise radius_error
  else
    d ← np_reshape (distances pseudo_dict) (shape pseudo_dict);
    let pseudo_lab := where_changed (cells d) (threshold pseudo_dict) in
    pseudo_lab ← np_reshape pseudo_lab (shape pseudo_dict);
    pseudo_lab ← spatial_correction pseudo_lab default_radius;
    foldM (neighborhood_step pseudo_lab radius) ([], [])
          (scan (max_r pseudo_lab) (max_c pseudo_lab)).

(** A stable argsort, by insertion. *)
Fixpoint insert_key (keys : list Q) (i : nat) (s : list nat) : list nat :=
  match s with
  | [] => [i]
  | j :: s' =>
      if Qgtb (nth i keys 0%Q) (nth j keys 0%Q) then j :: insert_key keys i s'
      else i :: j :: s'
  end.

Definition insertion_argsort (keys : list Q) : list nat :=
  foldr (insert_key keys) [] (seq 0 (length keys)).


(** ** Definitions following the wording of the specification *)

(** Rows (or columns) [max(0, i-radius+1), min(n, i+radius)) of an axis of
    length [n]. *)
Definition clip_lo (radius : Z) (i : nat) : nat :=
  Z.to_nat (Z.max 0 (Z.of_nat i - radius + 1)).

Definition clip_hi (n : nat) (radius : Z) (i : nat) : nat :=
  Z.to_nat (Z.min (Z.of_nat n) (Z.of_nat i + radius)).

Definition window_positions (H W : nat) (radius : Z) (r c : nat)
  : list (nat * nat) :=
  i ← seq (clip_lo radius r) (clip_hi H radius r - clip_lo radius r);
  j ← seq (clip_lo radius c) (clip_hi W radius c - clip_lo radius c);
  [(i, j)].

(** The cell at a position of the grid. *)
Definition cell {A : Type} (a : array2 A) (pos : nat * nat) : option A :=
  cells a !! (pos.1 * max_c a + pos.2).

(** The square window clipped to the grid, as the list of its labels. *)
Definition clipped_window {A : Type} (a : array2 A) (radius : Z) (r c : nat)
  : list A :=
  omap (cell a) (window_positions (max_r a) (max_c a) radius r c).

(** Number of occurrences of a label in a window. *)
Definition frequency {A : Type} `{EqDecision A} (l : A) (w : list A) : nat :=
  length (filter (fun y => y = l) w).

(** A label strictly more frequent in [w] than every other label. *)
Definition dominant {A : Type} `{EqDecision A} (l : A) (w : list A) : Prop :=
  l ∈ w /\ forall l', l' <> l -> frequency l' w < frequency l w.

(** Two labels or more share the greatest frequency of [w]. *)
Definition top_tie {A : Type} `{EqDecision A} (w : list A) : Prop :=
  exists l1 l2, l1 <> l2 /\ l1 ∈ w /\ l2 ∈ w /\
    frequency l1 w = frequency l2 w /\
    forall l, frequency l w <= frequency l1 w.

(** The window contains exactly one distinct label. *)
Definition unanimous {A : Type} `{EqDecision A} (w : list A) : Prop :=
  length (remove_dups w) = 1.

#[global] Instance unanimous_dec {A : Type} `{EqDecision A} (w : list A)
  : Decision (unanimous w).
Proof. unfold unanimous. apply _. Defined.

(** Pixels of a corrected map whose window is unanimous, in row-major
    order, each with its flat index and its label in that map. *)
Definition select_unanimous (m : array2 label) (radius : Z)
  : list (nat * label) :=
  omap (fun pos =>
          if decide (unanimous (clipped_window m radius pos.1 pos.2))
          then (fun v => (pos.1 * max_c m + pos.2, v)) <$> cell m pos
          else None)
       (scan (max_r m) (max_c m)).

(** The neighbourhood selection as the specification composes it, with the
    radius [correction_radius] given to the spatial correction. *)
Definition selectByNeighborhood (record : pseudo_dict)
  (radius correction_radius : Z) : result (list nat * list label) :=
  if (radius <? 1)%Z then Raise radius_error
  else
    label_map ← np_reshape (where_changed (distances record) (threshold record))
                           (shape record);
    smoothed ← spatial_correction label_map correction_radius;
    let selected := select_unanimous smoothed radius in
    Ok (selected.*1, selected.*2).

(** ** Invariant of the counting loop *)

(** State of a counter after the items of [done] were counted. *)
Definition counts_of {A : Type} `{EqDecision A} (c : list (A * nat))
  (done : list A) : Prop :=
  NoDup c.*1 /\
  (forall x, counter_get x c = frequency x done) /\
  (forall x, x ∈ c.*1 <-> x ∈ done).

(** ** plot_maps *)

(** [np.where(a == v)] on an array of rank 2: the positions that hold [v],
    rows first. *)
Definition np_where_eq2 {A : Type} `{EqDecision A} (a : array2 A) (v : A)
  : list (nat * nat) :=
  filter (fun pos => cell a pos = Some v) (scan (max_r a) (max_c a)).

(** [a[idx] = v] for index arrays [idx]; an index outside the array
    raises.  The message of numpy also names the index, the axis and its
    size; it is cut down to its constant part. *)
Definition setitem2 {A : Type} (a : array2 A) (idx : list (nat * nat)) (v : A)
  : result (array2 A) :=
  if forallb (fun pos => (pos.1 <? max_r a) && (pos.2 <? max_c a)) idx then
    Ok (Array2 (max_r a) (max_c a)
          (foldl (fun cs pos => <[pos.1 * max_c a + pos.2 := v]> cs)
                 (cells a) idx))
  else Raise (IndexError "index is out of bounds"%string).

(** The array [new_map] of [plot_maps], drawn as "Comparable Prediction";
    the figure that holds it is matplotlib's. *)
Definition plot_maps_new_map (prediction label_map : array2 label)
  : result (array2 label) :=
  let new_map := prediction in
  let replace_indexes := np_where_eq2 label_map UNKNOWN_LABEL in
  setitem2 new_map replace_indexes UNKNOWN_LABEL.

(** ** The script of predutils.py *)

Section Script.

(** What an iteration does with the name, the two images and the labels
  of a pair once it has them: distances, files, metrics and plots. *)
Variables (pixel lab_t outcome : Type).
Variable body :
string -> list pixel -> list pixel -> list lab_t -> result outcome.

(** One turn of [for lab in labels], [size] being [lab.size]; the state is
  the counter [i] with the outcomes so far. *)
Definition script_iteration (names : list string)
(processed_ab : list (pixel * pixel)) (processed_lab : list lab_t)
(st : nat * list outcome) (size : nat) : result (nat * list outcome) :=
let '(i, outcomes) := st in
let pro_a := fst <$> py_slice (Z.of_nat i) (Z.of_nat (i + size)) processed_ab in
let pro_b := snd <$> py_slice (Z.of_nat i) (Z.of_nat (i + size)) processed_ab in
let pro_lab := py_slice (Z.of_nat i) (Z.of_nat (i + size)) processed_lab in
name ← match names !! i with
       | Some name => Ok name
       | None => Raise (IndexError "list index out of range"%string)
       end;
out ← body name pro_a pro_b pro_lab;
Ok (i + size, outcomes ++ [out]).

Definition script_loop (names : list string)
(processed_ab : list (pixel * pixel)) (processed_lab : list lab_t)
(sizes : list nat) : result (nat * list outcome) :=
foldM (script_iteration names processed_ab processed_lab) (0, []) sizes.

End Script.

(** ** main.py *)

(** The dictionary of the pixels of each cluster, lines 115-118. *)
Definition clusters_dict (clusters : list nat) (k : nat)
  : gmap nat (list nat) :=
  foldl (fun d clu =>
           <[clu := nonzero ((fun c => bool_decide (c = clu)) <$> clusters)]> d)
        ∅ (seq 0 k).

(** The corrected pseudo labels [pseudo_truth], lines 176-178. *)
Definition pseudo_truth (pseudo_dict : pseudo_dict) : result (list label) :=
  let labels :=
    where_changed (distances pseudo_dict) (threshold pseudo_dict) in
  m ← np_reshape labels (shape pseudo_dict);
  corrected ← spatial_correction m default_radius;
  Ok (cells corrected).

(** The selection of the fine tuning of kind 0, all the pseudo labels:
    lines 186-187. *)
Definition all_pseudo_labels (pseudo_dict : pseudo_dict)
  : result (list nat * list label) :=
  pseudo_truth ← pseudo_truth pseudo_dict;
  let data_used := seq 0 (length (distances pseudo_dict)) in
  let labels_used := pseudo_truth in
  Ok (data_used, labels_used).

(** ** Auxiliary definitions *)

(** Exponent of the unit in the last place of a positive [x]: the binary64
    numbers around [x] are the multiples of [2 ^ binary64_scale x]. *)
Definition binary64_scale (x : Q) : Z :=
  Z.max (Binary64.ilog2 x - (Binary64.prec - 1)) Binary64.emin.

(** [np.where(clusters == clu)[0]] *)
Definition cluster_members (clusters : list nat) (clu : nat) : list nat :=
  nonzero ((fun c => bool_decide (c = clu)) <$> clusters).

(** ** Concrete inputs *)

(** The end-to-end scenario of the specification: the binary64 numbers
    nearest to 0.1, 0.2, 0.8 and 0.9, the threshold 0.5, a 2x2 image. *)
Definition scenario : pseudo_dict :=
  PseudoDict (Binary64.round <$> [1 # 10; 2 # 10; 8 # 10; 9 # 10]) (1 # 2)
             (2, 2).

(** A 3x3 image whose centre alone lies above the threshold. *)
Definition lone_centre : pseudo_dict :=
  PseudoDict [0; 0; 0; 0; 1; 0; 0; 0; 0]%Q (1 # 2) (3, 3).

(** A 2x2 grid with two labels of each kind. *)
Definition tied_grid : array2 label :=
  Array2 2 2 [CHANGED_LABEL; UNCHANGED_LABEL; UNCHANGED_LABEL; CHANGED_LABEL].

(** A 3x3 grid whose first corner alone is CHANGED_LABEL. *)
Definition corner_grid : array2 label :=
  Array2 3 3 [CHANGED_LABEL; UNCHANGED_LABEL; UNCHANGED_LABEL;
              UNCHANGED_LABEL; UNCHANGED_LABEL; UNCHANGED_LABEL;
              UNCHANGED_LABEL; UNCHANGED_LABEL; UNCHANGED_LABEL].

(** A 2x2 ground truth without labels on one diagonal. *)
Definition unknown_diagonal : array2 label :=
  Array2 2 2 [UNKNOWN_LABEL; CHANGED_LABEL; UNCHANGED_LABEL; UNKNOWN_LABEL].

(** A data set of two images of two pixels each, and an iteration body
    that only reports the name it was given. *)
Definition two_names : list string := ["first"; "second"]%string.

Definition report_name (name : string) (pro_a pro_b pro_lab : list nat)
  : result string := Ok name.

(** * Properties *)

(** ** Traversals and scans *)

Lemma traverse_Forall2 {X Y : Type} (f : X -> result Y) (xs : list X)
  (ys : list Y) :
  traverse f xs = Ok ys <-> Forall2 (fun x y => f x = Ok y) xs ys.
Proof.
  revert ys. induction xs as [|x xs IH]; intros ys; simpl.
  - split.
    + intros [= <-]. constructor.
    + intros Hf. inversion Hf. reflexivity.
  - split.
    + destruct (f x) as [y|e] eqn:Hx; simpl; [|discriminate].
      destruct (traverse f xs) as [ys'|e] eqn:Hxs; simpl; [|discriminate].
      intros [= <-]. constructor; [exact Hx|]. apply IH. reflexivity.
    + intros Hf. inversion Hf as [|? y ? ys' Hx Hxs]; subst.
      rewrite Hx. simpl. apply IH in Hxs. rewrite Hxs. reflexivity.
Qed.

Lemma traverse_fmap {X Y : Type} (f : X -> result Y) (g : X -> Y)
  (xs : list X) :
  (forall x, x ∈ xs -> f x = Ok (g x)) -> traverse f xs = Ok (g <$> xs).
Proof.
  intros Hf. apply traverse_Forall2. apply Forall2_fmap_r.
  apply Forall_Forall2_diag. apply Forall_forall. exact Hf.
Qed.

Lemma bind_singleton_fmap {X Y : Type} (g : X -> Y) (l : list X) :
  (x ← l; [g x]) = g <$> l.
Proof. induction l as [|x l IH]; [reflexivity|]. cbn. congruence. Qed.

Lemma scan_S (H W : nat) :
  scan (S H) W = scan H W ++ ((fun c => (H, c)) <$> seq 0 W).
Proof.
  unfold scan. rewrite seq_S, bind_app. f_equal. simpl.
  rewrite app_nil_r. apply bind_singleton_fmap.
Qed.

Lemma scan_length (H W : nat) : length (scan H W) = H * W.
Proof.
  induction H as [|H IH]; [reflexivity|].
  rewrite scan_S, length_app, length_fmap, length_seq, IH. lia.
Qed.

Lemma scan_lookup (H W i r c : nat) :
  scan H W !! i = Some (r, c) <-> i = r * W + c /\ r < H /\ c < W.
Proof.
  induction H as [|H IH].
  - unfold scan. simpl. split; [discriminate|lia].
  - rewrite scan_S. destruct (decide (i < H * W)) as [Hlt|Hge].
    + rewrite lookup_app_l by (rewrite scan_length; exact Hlt).
      rewrite IH. split; [intuition lia|].
      intros (-> & Hr & Hc). split; [reflexivity|]. split; [|exact Hc].
      destruct (decide (r < H)); [assumption|]. exfalso. nia.
    + rewrite lookup_app_r by (rewrite scan_length; lia).
      rewrite scan_length, list_lookup_fmap.
      destruct (decide (i - H * W < W)) as [Hc|Hc].
      * rewrite lookup_seq_lt by exact Hc. simpl. split.
        -- intros [= <- <-]. lia.
        -- intros (-> & Hr & Hc'). assert (r = H) as -> by nia.
           do 2 f_equal. lia.
      * rewrite lookup_seq_ge by lia. simpl. split; [discriminate|].
        intros (-> & Hr & Hc'). exfalso. nia.
Qed.

Lemma elem_of_scan (H W r c : nat) : (r, c) ∈ scan H W <-> r < H /\ c < W.
Proof.
  rewrite list_elem_of_lookup. split.
  - intros [i Hi]. apply scan_lookup in Hi. tauto.
  - intros [Hr Hc]. exists (r * W + c). apply scan_lookup. tauto.
Qed.

(** ** Counters *)

Section CounterFacts.
Context {A : Type} `{EqDecision A}.

Lemma counter_get_add (x y : A) (c : list (A * nat)) :
  counter_get y (counter_add x c)
  = if decide (y = x) then S (counter_get x c) else counter_get y c.
Proof.
  induction c as [|[z n] c IH]; csimpl.
  - repeat case_decide; congruence.
  - destruct (decide (x = z)) as [->|Hxz]; csimpl.
    + repeat case_decide; congruence.
    + rewrite IH. repeat case_decide; congruence.
Qed.

Lemma counter_add_keys (x : A) (c : list (A * nat)) :
  (counter_add x c).*1 = if decide (x ∈ c.*1) then c.*1 else c.*1 ++ [x].
Proof.
  induction c as [|[z n] c IH]; csimpl.
  - destruct (decide (x ∈ [])) as [Hin|Hin]; [|reflexivity].
    by apply elem_of_nil in Hin.
  - destruct (decide (x = z)) as [->|Hxz]; csimpl.
    + rewrite decide_True by apply list_elem_of_here. reflexivity.
    + rewrite IH. destruct (decide (x ∈ c.*1)) as [Hin|Hin].
      * rewrite decide_True by (by apply list_elem_of_further). reflexivity.
      * rewrite decide_False; [reflexivity|].
        intros [?|?]%elem_of_cons; contradiction.
Qed.

Lemma counter_add_NoDup (x : A) (c : list (A * nat)) :
  NoDup c.*1 -> NoDup (counter_add x c).*1.
Proof.
  intros Hnd. rewrite counter_add_keys. case_decide as Hin; [exact Hnd|].
  apply NoDup_app. split; [exact Hnd|]. split; [|apply NoDup_singleton].
  intros y Hy ->%list_elem_of_singleton. contradiction.
Qed.

Lemma frequency_snoc (y x : A) (l : list A) :
  frequency y (l ++ [x])
  = if decide (y = x) then S (frequency y l) else frequency y l.
Proof.
  unfold frequency. rewrite filter_app, length_app.
  rewrite filter_cons, filter_nil.
  destruct (decide (x = y)) as [->|Hxy]; csimpl.
  - rewrite decide_True by reflexivity. lia.
  - rewrite decide_False by congruence. lia.
Qed.

Lemma frequency_pos (x : A) (l : list A) : 0 < frequency x l <-> x ∈ l.
Proof.
  unfold frequency. split.
  - intros Hpos. destruct (filter (λ y, y = x) l) as [|z k] eqn:Hf;
      [csimpl in Hpos; lia|].
    assert (z ∈ filter (λ y, y = x) l) as Hz by (rewrite Hf; left).
    apply list_elem_of_filter in Hz as [-> Hz]. exact Hz.
  - intros Hin.
    assert (x ∈ filter (λ y, y = x) l) as Hx
      by (apply list_elem_of_filter; split; [reflexivity|exact Hin]).
    destruct (filter (λ y, y = x) l); [by apply elem_of_nil in Hx|csimpl; lia].
Qed.

Lemma counts_of_add (x : A) (c : list (A * nat)) (done : list A) :
  counts_of c done -> counts_of (counter_add x c) (done ++ [x]).
Proof.
  intros (Hnd & Hget & Hkeys). split; [by apply counter_add_NoDup|]. split.
  - intros y. rewrite counter_get_add, frequency_snoc.
    case_decide; [subst; rewrite Hget|apply Hget]; reflexivity.
  - intros y. rewrite counter_add_keys, elem_of_app, list_elem_of_singleton.
    case_decide as Hin; [|rewrite elem_of_app, list_elem_of_singleton, Hkeys;
                           tauto].
    rewrite Hkeys. split; [tauto|]. intros [Hy| ->]; [exact Hy|].
    by apply Hkeys.
Qed.

Lemma counts_of_foldl (l : list A) (c : list (A * nat)) (done : list A) :
  counts_of c done ->
  counts_of (foldl (fun c x => counter_add x c) c l) (done ++ l).
Proof.
  revert c done. induction l as [|x l IH]; intros c done Hc; csimpl.
  - rewrite app_nil_r. exact Hc.
  - replace (done ++ x :: l) with ((done ++ [x]) ++ l)
      by (rewrite <- app_assoc; reflexivity).
    apply IH, counts_of_add, Hc.
Qed.

Lemma Counter_counts_of (l : list A) : counts_of (Counter l) l.
Proof.
  apply (counts_of_foldl l [] []). split; [constructor|].
  split; [reflexivity|]. intros x. csimpl. reflexivity.
Qed.

Lemma counter_get_elem_of (x : A) (n : nat) (c : list (A * nat)) :
  NoDup c.*1 -> (x, n) ∈ c -> counter_get x c = n.
Proof.
  induction c as [|[y m] c IH]; csimpl; intros Hnd Hin.
  - by apply elem_of_nil in Hin.
  - apply NoDup_cons in Hnd as [Hy Hnd].
    apply elem_of_cons in Hin as [[= -> ->]|Hin].
    + rewrite decide_True by reflexivity. reflexivity.
    + case_decide as Hxy; [|by apply IH]. subst y. exfalso. apply Hy.
      apply list_elem_of_fmap. exists (x, n). split; [reflexivity|exact Hin].
Qed.
End CounterFacts.

(** ** most_common *)

Section MostCommon.
Context {A : Type} `{EqDecision A}.

Lemma insert_desc_perm (p : A * nat) (s : list (A * nat)) :
  insert_desc p s ≡ₚ p :: s.
Proof.
  induction s as [|q s IH]; csimpl; [reflexivity|].
  destruct (p.2 <? q.2); [|reflexivity].
  rewrite IH. apply Permutation_swap.
Qed.

Lemma most_common_perm (c : list (A * nat)) : most_common c ≡ₚ c.
Proof.
  induction c as [|p c IH]; csimpl; [reflexivity|].
  rewrite insert_desc_perm, IH. reflexivity.
Qed.

Lemma insert_desc_sorted (p : A * nat) (s : list (A * nat)) :
  StronglySorted (fun a b => b.2 <= a.2) s ->
  StronglySorted (fun a b => b.2 <= a.2) (insert_desc p s).
Proof.
  induction 1 as [|q s Hs IH Hq]; csimpl.
  - repeat constructor.
  - destruct (p.2 <? q.2) eqn:Hlt.
    + apply Nat.ltb_lt in Hlt. constructor; [exact IH|].
      rewrite insert_desc_perm. constructor; [lia|exact Hq].
    + apply Nat.ltb_ge in Hlt. constructor.
      * constructor; assumption.
      * constructor; [exact Hlt|].
        eapply Forall_impl; [exact Hq|]. csimpl. intros; lia.
Qed.

Lemma most_common_sorted (c : list (A * nat)) :
  StronglySorted (fun a b => b.2 <= a.2) (most_common c).
Proof.
  induction c as [|p c IH]; csimpl; [constructor|].
  apply insert_desc_sorted, IH.
Qed.

(** The items of [most_common (Counter w)]: every label of the window
    once, with its frequency. *)
Lemma counts_elem_of (w : list A) (y : A) (n : nat) :
  (y, n) ∈ most_common (Counter w) <-> y ∈ w /\ n = frequency y w.
Proof.
  destruct (Counter_counts_of w) as (Hnd & Hget & Hkeys).
  rewrite most_common_perm. split.
  - intros Hin. split.
    + apply Hkeys. apply list_elem_of_fmap. by exists (y, n).
    + rewrite <- Hget. symmetry. by apply counter_get_elem_of.
  - intros [Hy ->]. apply Hkeys in Hy.
    apply list_elem_of_fmap in Hy as [[y' m] [-> Hin]]. csimpl.
    rewrite <- Hget.
    by rewrite (counter_get_elem_of _ _ _ Hnd Hin).
Qed.

Lemma counts_keys_NoDup (w : list A) : NoDup (most_common (Counter w)).*1.
Proof.
  rewrite most_common_perm. apply (Counter_counts_of w).
Qed.

Lemma counts_keys (w : list A) (y : A) :
  y ∈ (most_common (Counter w)).*1 <-> y ∈ w.
Proof.
  rewrite most_common_perm. apply (Counter_counts_of w).
Qed.

Lemma counts_length (w : list A) :
  length (most_common (Counter w)) = length (remove_dups w).
Proof.
  rewrite <- (length_fmap fst). apply Permutation_length.
  apply NoDup_Permutation.
  - apply counts_keys_NoDup.
  - apply NoDup_remove_dups.
  - intros y. rewrite counts_keys, elem_of_remove_dups. reflexivity.
Qed.

Lemma counts_nil (w : list A) : most_common (Counter w) = [] <-> w = [].
Proof.
  split.
  - intros Hc. destruct w as [|x w]; [reflexivity|].
    assert (x ∈ (most_common (Counter (x :: w))).*1) as Hx
      by (apply counts_keys; left).
    rewrite Hc in Hx. by apply elem_of_nil in Hx.
  - intros ->. reflexivity.
Qed.

(** The first item has the greatest frequency of the window. *)
Lemma counts_head_max (w : list A) (l0 : A) (n0 : nat)
  (rest : list (A * nat)) (y : A) :
  most_common (Counter w) = (l0, n0) :: rest ->
  frequency y w <= n0.
Proof.
  intros Hc. destruct (decide (y ∈ w)) as [Hy|Hy].
  - assert ((y, frequency y w) ∈ most_common (Counter w)) as Hin
      by (apply counts_elem_of; auto).
    pose proof (most_common_sorted (Counter w)) as Hs.
    rewrite Hc in Hin, Hs. apply StronglySorted_inv in Hs as [_ Hall].
    apply elem_of_cons in Hin as [[= _ ->]|Hin]; [lia|].
    rewrite Forall_forall in Hall. apply (Hall _ Hin).
  - destruct (frequency y w) eqn:Hf; [lia|]. exfalso. apply Hy.
    apply frequency_pos. lia.
Qed.

(** The second item has the greatest frequency among the other labels. *)
Lemma counts_second_max (w : list A) (l0 l1 : A) (n0 n1 : nat)
  (rest : list (A * nat)) (y : A) :
  most_common (Counter w) = (l0, n0) :: (l1, n1) :: rest ->
  y <> l0 -> frequency y w <= n1.
Proof.
  intros Hc Hne. destruct (decide (y ∈ w)) as [Hy|Hy].
  - assert ((y, frequency y w) ∈ most_common (Counter w)) as Hin
      by (apply counts_elem_of; auto).
    pose proof (most_common_sorted (Counter w)) as Hs.
    rewrite Hc in Hin, Hs. apply StronglySorted_inv in Hs as [Hs _].
    apply StronglySorted_inv in Hs as [_ Hall].
    apply elem_of_cons in Hin as [[= -> _]|Hin]; [contradiction|].
    apply elem_of_cons in Hin as [[= _ ->]|Hin]; [lia|].
    rewrite Forall_forall in Hall. apply (Hall _ Hin).
  - destruct (frequency y w) eqn:Hf; [lia|]. exfalso. apply Hy.
    apply frequency_pos. lia.
Qed.

Lemma counts_head_spec (w : list A) (l0 : A) (n0 : nat)
  (rest : list (A * nat)) :
  most_common (Counter w) = (l0, n0) :: rest ->
  l0 ∈ w /\ n0 = frequency l0 w.
Proof.
  intros Hc. apply counts_elem_of. rewrite Hc. left.
Qed.

Lemma counts_second_spec (w : list A) (l0 l1 : A) (n0 n1 : nat)
  (rest : list (A * nat)) :
  most_common (Counter w) = (l0, n0) :: (l1, n1) :: rest ->
  l1 <> l0 /\ l1 ∈ w /\ n1 = frequency l1 w /\ n1 <= n0.
Proof.
  intros Hc. pose proof (counts_keys_NoDup w) as Hnd.
  pose proof (most_common_sorted (Counter w)) as Hs.
  assert ((l1, n1) ∈ most_common (Counter w)) as Hin
    by (rewrite Hc; right; left).
  apply counts_elem_of in Hin as [Hin ->].
  rewrite Hc in Hnd, Hs. csimpl in Hnd.
  apply NoDup_cons in Hnd as [Hl0 _].
  apply StronglySorted_inv in Hs as [_ Hall].
  apply Forall_cons in Hall as [Hle _]. csimpl in Hle.
  repeat split; try assumption.
  intros ->. apply Hl0. left.
Qed.
End MostCommon.

(** ** Slices and windows *)

Lemma slice_bound_inside (len : nat) (i : Z) :
  (0 <= i <= Z.of_nat len)%Z -> slice_bound len i = Z.to_nat i.
Proof.
  intros Hi. unfold slice_bound.
  destruct (Z.ltb_spec i 0); [lia|]. f_equal. lia.
Qed.

Lemma take_drop_lookups {X : Type} (l : list X) (k s : nat) :
  s + k <= length l -> take k (drop s l) = omap (fun i => l !! i) (seq s k).
Proof.
  revert s. induction k as [|k IH]; intros s Hlen; [reflexivity|].
  destruct (lookup_lt_is_Some_2 l s) as [x Hx]; [lia|].
  rewrite (drop_S _ _ _ Hx). csimpl. rewrite Hx. csimpl.
  rewrite IH by lia. reflexivity.
Qed.

Lemma omap_bind_list {X Y Z' : Type} (f : Y -> option Z') (g : X -> list Y)
  (l : list X) :
  omap f (l ≫= g) = l ≫= (fun x => omap f (g x)).
Proof.
  induction l as [|x l IH]; [reflexivity|].
  csimpl. rewrite omap_app, IH. reflexivity.
Qed.

Lemma omap_fmap_list {X Y Z' : Type} (f : Y -> option Z') (g : X -> Y)
  (l : list X) :
  omap f (g <$> l) = omap (fun x => f (g x)) l.
Proof.
  induction l as [|x l IH]; [reflexivity|].
  csimpl. rewrite IH. reflexivity.
Qed.

Lemma bind_concat_fmap {X Y : Type} (g : X -> list Y) (l : list X) :
  l ≫= g = concat (g <$> l).
Proof.
  induction l as [|x l IH]; [reflexivity|]. csimpl. rewrite IH. reflexivity.
Qed.

Section Windows.
Context {A : Type}.
Implicit Types a : array2 A.

Lemma rows_length a : length (rows a) = max_r a.
Proof. unfold rows. rewrite length_fmap, length_seq. reflexivity. Qed.

Lemma row_of_length a (r : nat) :
  wf_array2 a -> r < max_r a -> length (row_of a r) = max_c a.
Proof.
  unfold wf_array2, row_of. intros Hwf Hr.
  rewrite length_take, length_drop. nia.
Qed.

(** A slice of a row is the list of its cells. *)
Lemma row_slice a (r lo hi : nat) :
  wf_array2 a -> r < max_r a -> lo <= hi <= max_c a ->
  take (hi - lo) (drop lo (row_of a r))
  = omap (cell a) ((fun j => (r, j)) <$> seq lo (hi - lo)).
Proof.
  unfold wf_array2, row_of. intros Hwf Hr Hlh.
  rewrite skipn_firstn_comm, drop_drop.
  rewrite take_take. replace ((hi - lo) `min` (max_c a - lo)) with (hi - lo)
    by lia.
  rewrite take_drop_lookups by nia.
  rewrite omap_fmap_list. unfold cell. csimpl.
  rewrite <- (fmap_add_seq (r * max_c a) lo), omap_fmap_list.
  reflexivity.
Qed.

(** For a radius of one or more, the slice taken by the code is the
    window of the specification: no bound is negative, none wraps. *)
Lemma kernel_clipped_window a (radius : Z) (r c : nat) :
  wf_array2 a -> (1 <= radius)%Z -> r < max_r a -> c < max_c a ->
  kernel a radius r c = clipped_window a radius r c.
Proof.
  intros Hwf Hrad Hr Hc.
  unfold kernel, clipped_window, window_positions, slice2_ravel.
  unfold upper_bound, lower_bound.
  assert (clip_lo radius r <= r /\ r < clip_hi (max_r a) radius r
          /\ clip_hi (max_r a) radius r <= max_r a) as (Hr1 & Hr2 & Hr3)
    by (unfold clip_lo, clip_hi; lia).
  assert (clip_lo radius c <= c /\ c < clip_hi (max_c a) radius c
          /\ clip_hi (max_c a) radius c <= max_c a) as (Hc1 & Hc2 & Hc3)
    by (unfold clip_lo, clip_hi; lia).
  unfold py_slice at 2. rewrite rows_length.
  rewrite !slice_bound_inside by lia.
  replace (Z.to_nat (0 `max` (Z.of_nat r - (radius - 1))))%Z with (clip_lo radius r)
    by (unfold clip_lo; f_equal; lia).
  replace (Z.to_nat (Z.of_nat (max_r a) `min` (Z.of_nat r + radius)))%Z
    with (clip_hi (max_r a) radius r) by reflexivity.
  unfold rows. rewrite <- fmap_drop, <- fmap_take.
  rewrite drop_seq, take_seq. csimpl.
  replace ((clip_hi (max_r a) radius r - clip_lo radius r)
             `min` (max_r a - clip_lo radius r))
    with (clip_hi (max_r a) radius r - clip_lo radius r) by lia.
  rewrite omap_bind_list, bind_concat_fmap, <- list_fmap_compose.
  f_equal. apply list_fmap_ext. intros k i Hi. csimpl.
  apply lookup_seq in Hi as [-> Hi].
  unfold py_slice. rewrite row_of_length by (assumption || lia).
  rewrite !slice_bound_inside by lia.
  replace (Z.to_nat (0 `max` (Z.of_nat c - (radius - 1))))%Z with (clip_lo radius c)
    by (unfold clip_lo; f_equal; lia).
  replace (Z.to_nat (Z.of_nat (max_c a) `min` (Z.of_nat c + radius)))%Z
    with (clip_hi (max_c a) radius c) by reflexivity.
  rewrite row_slice by (assumption || lia).
  rewrite bind_singleton_fmap. reflexivity.
Qed.

Lemma window_positions_elem (H W : nat) (radius : Z) (r c i j : nat) :
  (i, j) ∈ window_positions H W radius r c <->
  (Z.max 0 (Z.of_nat r - radius + 1) <= Z.of_nat i
   < Z.min (Z.of_nat H) (Z.of_nat r + radius))%Z /\
  (Z.max 0 (Z.of_nat c - radius + 1) <= Z.of_nat j
   < Z.min (Z.of_nat W) (Z.of_nat c + radius))%Z.
Proof.
  unfold window_positions. rewrite list_elem_of_bind. split.
  - intros (i' & Hj & Hi). apply list_elem_of_bind in Hj as (j' & Hij & Hj).
    apply list_elem_of_singleton in Hij as [= -> ->].
    apply elem_of_seq in Hi, Hj. unfold clip_lo, clip_hi in *. lia.
  - intros [Hi Hj]. exists i. split.
    + apply list_elem_of_bind. exists j. split; [left|].
      apply elem_of_seq. unfold clip_lo, clip_hi. lia.
    + apply elem_of_seq. unfold clip_lo, clip_hi. lia.
Qed.

Lemma cell_is_Some a (i j : nat) :
  wf_array2 a -> i < max_r a -> j < max_c a -> is_Some (cell a (i, j)).
Proof.
  unfold wf_array2, cell. intros Hwf Hi Hj. apply lookup_lt_is_Some_2.
  csimpl. nia.
Qed.

Lemma clipped_window_elem a (radius : Z) (r c : nat) (v : A) :
  v ∈ clipped_window a radius r c <->
  exists i j, (i, j) ∈ window_positions (max_r a) (max_c a) radius r c /\
              cell a (i, j) = Some v.
Proof.
  unfold clipped_window. rewrite list_elem_of_omap. split.
  - intros ([i j] & Hin & Hv). eauto.
  - intros (i & j & Hin & Hv). eauto.
Qed.

(** The window holds the pixel it is centred on. *)
Lemma clipped_window_centre a (radius : Z) (r c : nat) (v : A) :
  (1 <= radius)%Z -> r < max_r a -> c < max_c a ->
  cell a (r, c) = Some v -> v ∈ clipped_window a radius r c.
Proof.
  intros Hrad Hr Hc Hv. apply clipped_window_elem. exists r, c.
  split; [|exact Hv]. apply window_positions_elem. lia.
Qed.

Lemma getitem2_cell a (r c : nat) :
  r < max_r a -> c < max_c a ->
  getitem2 a r c = match cell a (r, c) with
                   | Some v => Ok v
                   | None => Raise (IndexError "index is out of bounds"%string)
                   end.
Proof.
  intros Hr Hc. unfold getitem2, cell.
  rewrite !bool_decide_eq_true_2 by assumption. reflexivity.
Qed.
End Windows.

(** ** spatial_correction *)

Lemma traverse_total {X Y : Type} (f : X -> result Y) (xs : list X) :
  (forall x, x ∈ xs -> exists y, f x = Ok y) ->
  exists ys, traverse f xs = Ok ys.
Proof.
  induction xs as [|x xs IH]; intros Hf; csimpl; [eauto|].
  destruct (Hf x) as [y Hy]; [left|]. rewrite Hy. csimpl.
  destruct IH as [ys Hys]; [intros; apply Hf; by right|].
  rewrite Hys. csimpl. eauto.
Qed.

Section Correction.
Context {A : Type} `{EqDecision A}.
Implicit Types a : array2 A.

Lemma corrected_cell_vote a (radius : Z) (r c : nat) (orig : A) :
  wf_array2 a -> (1 <= radius)%Z -> r < max_r a -> c < max_c a ->
  cell a (r, c) = Some orig ->
  exists v, corrected_cell a radius r c = Ok v /\
    v ∈ clipped_window a radius r c /\
    (forall l, dominant l (clipped_window a radius r c) -> v = l) /\
    (top_tie (clipped_window a radius r c) -> v = orig) /\
    ((exists l, dominant l (clipped_window a radius r c))
     \/ top_tie (clipped_window a radius r c)).
Proof.
  intros Hwf Hrad Hr Hc Horig. unfold corrected_cell.
  rewrite kernel_clipped_window by assumption.
  pose proof (clipped_window_centre a radius r c orig Hrad Hr Hc Horig)
    as Hcentre.
  set (w := clipped_window a radius r c) in *.
  destruct (most_common (Counter w)) as [|[l0 n0] [|[l1 n1] rest]] eqn:Hcs.
  - apply (proj1 (counts_nil w)) in Hcs. rewrite Hcs in Hcentre.
    by apply elem_of_nil in Hcentre.
  - exists l0. destruct (counts_head_spec _ _ _ _ Hcs) as [Hl0 Hn0].
    assert (forall y, y ∈ w -> y = l0) as Honly.
    { intros y Hy. apply counts_keys in Hy. rewrite Hcs in Hy.
      csimpl in Hy. by apply list_elem_of_singleton in Hy. }
    split; [reflexivity|]. split; [exact Hl0|]. split; [|split].
    + intros l [Hl _]. symmetry. by apply Honly.
    + intros (la & lb & Hne & Hla & Hlb & _). exfalso. apply Hne.
      rewrite (Honly la Hla), (Honly lb Hlb). reflexivity.
    + left. exists l0. split; [exact Hl0|]. intros l' Hne.
      apply frequency_pos in Hl0.
      destruct (frequency l' w) eqn:Hf; [exact Hl0|]. exfalso. apply Hne.
      apply Honly, frequency_pos. lia.
  - destruct (counts_head_spec _ _ _ _ Hcs) as [Hl0 Hn0].
    destruct (counts_second_spec _ _ _ _ _ _ Hcs) as (Hne & Hl1 & Hn1 & Hle).
    pose proof (fun y => counts_head_max _ _ _ _ y Hcs) as Hmax.
    pose proof (fun y => counts_second_max _ _ _ _ _ _ y Hcs) as Hmax2.
    destruct (Nat.eqb_spec n0 n1) as [Heq|Hneq].
    + rewrite getitem2_cell, Horig by assumption. exists orig.
      split; [reflexivity|]. split; [exact Hcentre|].
      split; [|split; [auto|]].
      * intros l [Hl Hdom]. exfalso.
        destruct (decide (l = l0)) as [->|Hl0'].
        -- specialize (Hdom l1 Hne). lia.
        -- assert (l0 <> l) as Hl0'' by congruence.
           specialize (Hdom l0 Hl0''). specialize (Hmax l). lia.
      * right. exists l0, l1. split; [congruence|].
        split; [exact Hl0|]. split; [exact Hl1|]. split; [lia|].
        intros l. specialize (Hmax l). lia.
    + exists l0. split; [reflexivity|]. split; [exact Hl0|].
      split; [|split].
      * intros l [Hl Hdom]. destruct (decide (l = l0)) as [->|Hl0'];
          [reflexivity|]. exfalso.
        assert (l0 <> l) as Hl0'' by congruence.
        specialize (Hdom l0 Hl0''). specialize (Hmax l). lia.
      * intros (la & lb & Hab & Hla & Hlb & Hfreq & Htop). exfalso.
        pose proof (Htop l0) as Htop0. pose proof (Hmax la) as Hmaxa.
        destruct (decide (la = l0)) as [->|Hla0].
        -- assert (lb <> l0) as Hlb0 by congruence.
           specialize (Hmax2 lb Hlb0). lia.
        -- specialize (Hmax2 la Hla0). lia.
      * left. exists l0. split; [exact Hl0|]. intros l' Hne'.
        specialize (Hmax2 l' Hne'). lia.
Qed.

(** On a well-formed grid and for a radius of one or more the correction
    returns a grid of the same shape, whose cells are those computed by
    [corrected_cell]. *)
Lemma spatial_correction_cells a (radius : Z) :
  wf_array2 a -> (1 <= radius)%Z ->
  exists corrected,
    spatial_correction a radius = Ok corrected /\
    max_r corrected = max_r a /\ max_c corrected = max_c a /\
    wf_array2 corrected /\
    forall r c, r < max_r a -> c < max_c a ->
      exists v, cell corrected (r, c) = Some v /\
                corrected_cell a radius r c = Ok v.
Proof.
  intros Hwf Hrad. unfold spatial_correction.
  destruct (traverse_total
              (fun '(row, col) => corrected_cell a radius row col)
              (scan (max_r a) (max_c a))) as [ys Hys].
  { intros [r c] [Hr Hc]%elem_of_scan.
    destruct (cell_is_Some a r c Hwf Hr Hc) as [orig Horig].
    destruct (corrected_cell_vote a radius r c orig) as (v & Hv & _);
      eauto. }
  rewrite Hys. csimpl. eexists. split; [reflexivity|]. csimpl.
  apply traverse_Forall2 in Hys.
  pose proof (Forall2_length _ _ _ Hys) as Hlen. rewrite scan_length in Hlen.
  repeat split; [unfold wf_array2; csimpl; lia|].
  intros r c Hr Hc. unfold cell. csimpl.
  assert (scan (max_r a) (max_c a) !! (r * max_c a + c) = Some (r, c))
    as Hpos by (apply scan_lookup; auto).
  destruct (Forall2_lookup_l _ _ _ _ _ Hys Hpos) as (v & Hv & Hcell).
  eauto.
Qed.
End Correction.

(** C3. On a grid and for a radius of one or more, the label written at
    [(r, c)] is decided on the window of rows
    [max(0, r-radius+1), min(H, r+radius)) and of columns
    [max(0, c-radius+1), min(W, c+radius)), cut at the borders: the slice
    read by the code is that window.  A label strictly more frequent in it
    than every other label is assigned; when two labels or more share the
    greatest frequency, the pixel keeps its original label.  One of the
    two cases always holds. *)
Theorem spatial_correction_majority {A : Type} `{EqDecision A}
  (prediction : array2 A) (radius : Z) (r c : nat) :
  wf_array2 prediction -> (1 <= radius)%Z ->
  r < max_r prediction -> c < max_c prediction ->
  exists corrected v orig,
    spatial_correction prediction radius = Ok corrected /\
    max_r corrected = max_r prediction /\
    max_c corrected = max_c prediction /\
    cell corrected (r, c) = Some v /\
    cell prediction (r, c) = Some orig /\
    kernel prediction radius r c = clipped_window prediction radius r c /\
    (forall l, dominant l (clipped_window prediction radius r c) -> v = l) /\
    (top_tie (clipped_window prediction radius r c) -> v = orig) /\
    ((exists l, dominant l (clipped_window prediction radius r c))
     \/ top_tie (clipped_window prediction radius r c)).
Proof.
  intros Hwf Hrad Hr Hc.
  destruct (spatial_correction_cells prediction radius Hwf Hrad)
    as (corrected & Hsc & Hmr & Hmc & _ & Hcells).
  destruct (Hcells r c Hr Hc) as (v & Hv & Hcc).
  destruct (cell_is_Some prediction r c Hwf Hr Hc) as [orig Horig].
  destruct (corrected_cell_vote prediction radius r c orig Hwf Hrad Hr Hc Horig)
    as (v' & Hcc' & _ & Hdom & Htie & Hcases).
  assert (v' = v) as -> by congruence.
  exists corrected, v, orig.
  repeat (split; [assumption|]).
  split; [by apply kernel_clipped_window|]. repeat (split; [assumption|]).
  exact Hcases.
Qed.

(** C8. The label written at a pixel occurs in the clipped window of that
    pixel in the input grid, a window that contains the pixel itself; so
    every label of the corrected grid is a label of the input grid. *)
Theorem spatial_correction_label_from_window {A : Type} `{EqDecision A}
  (prediction : array2 A) (radius : Z) :
  wf_array2 prediction -> (1 <= radius)%Z ->
  exists corrected,
    spatial_correction prediction radius = Ok corrected /\
    (forall r c, r < max_r prediction -> c < max_c prediction ->
       exists v orig,
         cell corrected (r, c) = Some v /\
         cell prediction (r, c) = Some orig /\
         v ∈ clipped_window prediction radius r c /\
         orig ∈ clipped_window prediction radius r c) /\
    (forall v, v ∈ cells corrected -> v ∈ cells prediction).
Proof.
  intros Hwf Hrad.
  destruct (spatial_correction_cells prediction radius Hwf Hrad)
    as (corrected & Hsc & Hmr & Hmc & Hwf' & Hcells).
  exists corrected. split; [exact Hsc|].
  assert (forall r c, r < max_r prediction -> c < max_c prediction ->
            exists v orig,
              cell corrected (r, c) = Some v /\
              cell prediction (r, c) = Some orig /\
              v ∈ clipped_window prediction radius r c /\
              orig ∈ clipped_window prediction radius r c) as Hpix.
  { intros r c Hr Hc. destruct (Hcells r c Hr Hc) as (v & Hv & Hcc).
    destruct (cell_is_Some prediction r c Hwf Hr Hc) as [orig Horig].
    destruct (corrected_cell_vote prediction radius r c orig
                Hwf Hrad Hr Hc Horig) as (v' & Hcc' & Hin & _).
    assert (v' = v) as -> by congruence.
    exists v, orig. repeat (split; [assumption|]).
    by apply clipped_window_centre. }
  split; [exact Hpix|].
  intros v [i Hi]%list_elem_of_lookup.
  pose proof (lookup_lt_Some _ _ _ Hi) as Hlt.
  unfold wf_array2 in Hwf'. rewrite Hwf', Hmr, Hmc in Hlt.
  assert (0 < max_c prediction) as Hpos by nia.
  destruct (Hpix (i / max_c prediction) (i mod max_c prediction))
    as (v' & orig & Hv' & _ & Hin & _).
  { apply Nat.Div0.div_lt_upper_bound. lia. }
  { apply Nat.mod_upper_bound. lia. }
  unfold cell in Hv'. csimpl in Hv'. rewrite Hmc in Hv'.
  replace (i / max_c prediction * max_c prediction + i mod max_c prediction)
    with i in Hv' by (rewrite (Nat.div_mod_eq i (max_c prediction)) at 1; lia).
  assert (v' = v) as -> by congruence.
  apply clipped_window_elem in Hin as (i' & j' & _ & Hcell).
  unfold cell in Hcell. by eapply list_elem_of_lookup_2.
Qed.

(** C9. With a radius of one the window of a pixel is the pixel alone, its
    frequency count has the single entry of that label, and the correction
    returns the grid it was given. *)
Theorem spatial_correction_radius_one {A : Type} `{EqDecision A}
  (prediction : array2 A) :
  wf_array2 prediction ->
  spatial_correction prediction 1 = Ok prediction /\
  forall r c, r < max_r prediction -> c < max_c prediction ->
    exists v, cell prediction (r, c) = Some v /\
      kernel prediction 1 r c = [v] /\
      most_common (Counter (kernel prediction 1 r c)) = [(v, 1)].
Proof.
  intros Hwf.
  assert (forall r c, r < max_r prediction -> c < max_c prediction ->
            exists v, cell prediction (r, c) = Some v /\
                      kernel prediction 1 r c = [v]) as Hone.
  { intros r c Hr Hc.
    destruct (cell_is_Some prediction r c Hwf Hr Hc) as [v Hv].
    exists v. split; [exact Hv|].
    rewrite kernel_clipped_window by (assumption || lia).
    unfold clipped_window, window_positions.
    replace (clip_lo 1 r) with r by (unfold clip_lo; lia).
    replace (clip_hi (max_r prediction) 1 r) with (S r)
      by (unfold clip_hi; lia).
    replace (clip_lo 1 c) with c by (unfold clip_lo; lia).
    replace (clip_hi (max_c prediction) 1 c) with (S c)
      by (unfold clip_hi; lia).
    replace (S r - r) with 1 by lia. replace (S c - c) with 1 by lia.
    csimpl. rewrite Hv. reflexivity. }
  split.
  - destruct (spatial_correction_cells prediction 1 Hwf)
      as (corrected & Hsc & Hmr & Hmc & Hwf' & Hcells); [lia|].
    rewrite Hsc. f_equal.
    destruct corrected as [h w cs], prediction as [h' w' cs'].
    csimpl in *. subst h w. f_equal.
    unfold wf_array2 in Hwf, Hwf'. csimpl in *.
    apply list_eq_same_length with (h' * w'); [assumption..|].
    intros i x y Hi Hx Hy.
    assert (0 < w') as Hpos by nia.
    assert (i / w' < h') as Hr by (apply Nat.Div0.div_lt_upper_bound; lia).
    assert (i mod w' < w') as Hc by (apply Nat.mod_upper_bound; lia).
    destruct (Hcells _ _ Hr Hc) as (v & Hv & Hcc).
    destruct (Hone _ _ Hr Hc) as (v' & Hv' & Hk).
    unfold corrected_cell in Hcc. rewrite Hk in Hcc.
    unfold cell in Hv, Hv'. csimpl in *.
    replace (i / w' * w' + i mod w') with i in Hv, Hv'
      by (rewrite (Nat.div_mod_eq i w') at 1; lia).
    congruence.
  - intros r c Hr Hc. destruct (Hone r c Hr Hc) as (v & Hv & Hk).
    exists v. rewrite Hk. auto.
Qed.

(** ** labels_by_neighborhood *)

Lemma unanimous_counts {A : Type} `{EqDecision A} (w : list A) :
  (length (most_common (Counter w)) =? 1) = bool_decide (unanimous w).
Proof.
  rewrite counts_length. unfold unanimous.
  destruct (Nat.eqb_spec (length (remove_dups w)) 1) as [Heq|Hne].
  - by rewrite bool_decide_eq_true_2.
  - by rewrite bool_decide_eq_false_2.
Qed.

(** The pixels kept among the positions [ps], as the specification words
    the selection. *)
Lemma foldM_neighborhood_step (m : array2 label) (radius : Z)
  (ps : list (nat * nat)) (st : list nat * list label) :
  wf_array2 m -> (1 <= radius)%Z ->
  Forall (fun pos => pos.1 < max_r m /\ pos.2 < max_c m) ps ->
  let kept :=
    omap (fun pos =>
            if decide (unanimous (clipped_window m radius pos.1 pos.2))
            then (fun v => (pos.1 * max_c m + pos.2, v)) <$> cell m pos
            else None) ps in
  foldM (neighborhood_step m radius) st ps
  = Ok (st.1 ++ kept.*1, st.2 ++ kept.*2).
Proof.
  intros Hwf Hrad Hps. revert st.
  induction Hps as [|[r c] ps [Hr Hc] Hps IH]; intros [sel labs]; csimpl.
  - rewrite !app_nil_r. reflexivity.
  - simpl in Hr, Hc.
    rewrite kernel_clipped_window, unanimous_counts by assumption.
    destruct (cell_is_Some m r c Hwf Hr Hc) as [v Hv].
    destruct (decide (unanimous (clipped_window m radius r c))) as [Hu|Hu].
    + rewrite bool_decide_eq_true_2 by exact Hu.
      rewrite getitem2_cell, Hv by assumption. csimpl.
      rewrite IH. csimpl. rewrite <- !app_assoc. reflexivity.
    + rewrite bool_decide_eq_false_2 by exact Hu. csimpl.
      rewrite IH. reflexivity.
Qed.

Lemma scan_in_range (H W : nat) :
  Forall (fun pos => pos.1 < H /\ pos.2 < W) (scan H W).
Proof.
  apply Forall_forall. intros [r c] Hin. by apply elem_of_scan in Hin.
Qed.

Lemma scan_flat (H W : nat) :
  (fun pos => pos.1 * W + pos.2) <$> scan H W = seq 0 (H * W).
Proof.
  apply list_eq_same_length with (H * W).
  - apply length_seq.
  - rewrite length_fmap. apply scan_length.
  - intros i x y Hi Hx Hy. rewrite list_lookup_fmap in Hx.
    destruct (scan H W !! i) as [[r c]|] eqn:Hpos; [|discriminate].
    apply scan_lookup in Hpos as (-> & _). csimpl in Hx.
    apply lookup_seq in Hy as [-> _]. injection Hx as <-. reflexivity.
Qed.

Lemma omap_fst_sublist {X Y K : Type} (f : X -> option (K * Y)) (g : X -> K)
  (l : list X) :
  (forall x y, f x = Some y -> y.1 = g x) ->
  (omap f l).*1 `sublist_of` (g <$> l).
Proof.
  intros Hf. induction l as [|x l IH]; csimpl; [constructor|].
  destruct (f x) as [y|] eqn:Hx; csimpl.
  - rewrite (Hf x y Hx). by constructor.
  - by constructor.
Qed.

Lemma select_unanimous_NoDup (m : array2 label) (radius : Z) :
  NoDup (select_unanimous m radius).*1.
Proof.
  apply (sublist_NoDup _
           ((fun pos => pos.1 * max_c m + pos.2) <$> scan (max_r m) (max_c m))).
  - rewrite scan_flat. apply NoDup_seq.
  - apply (omap_fst_sublist _ (fun pos => pos.1 * max_c m + pos.2)).
    intros pos [i v]. case_decide; [|discriminate].
    destruct (cell m pos); [|discriminate]. by intros [= <- _].
Qed.

Lemma np_reshape_Ok {X : Type} (l : list X) (shape : nat * nat) :
  length l = shape.1 * shape.2 ->
  np_reshape l shape = Ok (Array2 shape.1 shape.2 l).
Proof. intros Hlen. unfold np_reshape. by rewrite decide_True. Qed.

Lemma np_reshape_Raise {X : Type} (l : list X) (shape : nat * nat) :
  length l <> shape.1 * shape.2 ->
  np_reshape l shape = Raise (ValueError "cannot reshape array"%string).
Proof. intros Hlen. unfold np_reshape. by rewrite decide_False. Qed.

Lemma where_changed_length (ds : list Q) (t : Q) :
  length (where_changed ds t) = length ds.
Proof. unfold where_changed. apply length_fmap. Qed.

(** The label map of a record, before the correction. *)
Lemma label_map_wf (record : pseudo_dict) :
  length (distances record) = (shape record).1 * (shape record).2 ->
  wf_array2 (Array2 (shape record).1 (shape record).2
               (where_changed (distances record) (threshold record))).
Proof.
  intros Hlen. unfold wf_array2. csimpl. by rewrite where_changed_length.
Qed.

Lemma labels_by_neighborhood_run (record : pseudo_dict) (radius : Z)
  (smoothed : array2 label) :
  length (distances record) = (shape record).1 * (shape record).2 ->
  (1 <= radius)%Z ->
  spatial_correction
    (Array2 (shape record).1 (shape record).2
       (where_changed (distances record) (threshold record)))
    default_radius = Ok smoothed ->
  labels_by_neighborhood record radius
  = Ok ((select_unanimous smoothed radius).*1,
        (select_unanimous smoothed radius).*2).
Proof.
  intros Hlen Hrad Hsc. unfold labels_by_neighborhood.
  destruct (Z.ltb_spec radius 1); [lia|].
  rewrite (np_reshape_Ok (distances record)) by exact Hlen.
  cbn [mbind result_bind cells].
  rewrite np_reshape_Ok by (by rewrite where_changed_length).
  cbn [mbind result_bind]. rewrite Hsc. cbn [mbind result_bind].
  destruct (spatial_correction_cells _ default_radius (label_map_wf _ Hlen))
    as (smoothed' & Hsc' & _ & _ & Hwf & _); [unfold default_radius; lia|].
  assert (smoothed' = smoothed) as -> by congruence.
  rewrite (foldM_neighborhood_step smoothed radius _ _ Hwf Hrad
             (scan_in_range _ _)).
  reflexivity.
Qed.

Lemma labels_by_neighborhood_bad_shape (record : pseudo_dict) (radius : Z) :
  length (distances record) <> (shape record).1 * (shape record).2 ->
  (1 <= radius)%Z ->
  labels_by_neighborhood record radius
  = Raise (ValueError "cannot reshape array"%string).
Proof.
  intros Hlen Hrad. unfold labels_by_neighborhood.
  destruct (Z.ltb_spec radius 1); [lia|].
  by rewrite (np_reshape_Raise (distances record)).
Qed.

(** ** Binary64 rounding *)

Module Binary64Facts.
Import Binary64.
Local Open Scope Q_scope.

Lemma two_neq_0 : ~ 2 == 0.
Proof. discriminate. Qed.

Lemma pow2_pos (e : Z) : 0 < pow2 e.
Proof. apply Qpower_0_lt. reflexivity. Qed.

Lemma pow2_inject (k : Z) : (0 <= k)%Z -> pow2 k == inject_Z (2 ^ k).
Proof. intros Hk. unfold pow2. rewrite Zpower_Qpower by exact Hk. reflexivity. Qed.

Lemma Qmake_mult_den (a : Z) (b : positive) :
  (a # b) * inject_Z (Zpos b) == inject_Z a.
Proof. unfold Qeq, inject_Z. simpl. lia. Qed.

(** [2 ^ ilog2 x <= x] *)
Lemma ilog2_le (x : Q) : 0 < x -> pow2 (ilog2 x) <= x.
Proof.
  intros Hx. unfold ilog2.
  destruct (Qle_bool (pow2 (Z.log2 (Qnum x) - Z.log2 (Zpos (Qden x)))) x)
    eqn:Hb; [by apply Qle_bool_iff|].
  clear Hb. destruct x as [a b]. cbn [Qnum Qden].
  assert (0 < a)%Z as Ha by (unfold Qlt in Hx; simpl in Hx; lia).
  destruct (Z.log2_spec a Ha) as [Hla _].
  destruct (Z.log2_spec (Zpos b)) as [_ Hlb]; [lia|].
  pose proof (Z.log2_nonneg a) as Hla0.
  pose proof (Z.log2_nonneg (Zpos b)) as Hlb0.
  set (la := Z.log2 a) in *. set (lb := Z.log2 (Zpos b)) in *.
  replace (la - lb - 1)%Z with (la - Z.succ lb)%Z by lia.
  unfold pow2. rewrite Qpower_minus by exact two_neq_0.
  apply Qle_shift_div_r; [apply pow2_pos|].
  fold (pow2 la). fold (pow2 (Z.succ lb)).
  rewrite !pow2_inject by lia.
  apply Qle_trans with (inject_Z a).
  - rewrite <- Zle_Qle. exact Hla.
  - rewrite <- (Qmake_mult_den a b).
    apply Qmult_le_l; [exact Hx|].
    rewrite <- Zle_Qle. lia.
Qed.

Lemma ilog2_lt (x : Q) (k : Z) : 0 < x -> x < pow2 k -> (ilog2 x < k)%Z.
Proof.
  intros Hx Hk. apply (Qpower_lt_compat_l_inv 2); [|reflexivity].
  eapply Qle_lt_trans; [apply ilog2_le, Hx|exact Hk].
Qed.

Lemma rne_le (y : Q) (K : Z) : y <= inject_Z K -> (rne y <= K)%Z.
Proof.
  intros Hy. unfold rne.
  pose proof (Qfloor_le y) as Hf.
  assert (Qfloor y <= K)%Z as HfK
    by (rewrite Zle_Qle; eapply Qle_trans; eassumption).
  assert (inject_Z (Qfloor y) < y -> (Qfloor y + 1 <= K)%Z) as Hup.
  { intros Hlt. assert (Qfloor y < K)%Z; [|lia].
    rewrite Zlt_Qlt. eapply Qlt_le_trans; eassumption. }
  destruct (y - inject_Z (Qfloor y) ?= 1 # 2) eqn:Hc.
  - apply Qeq_alt in Hc. destruct (Z.even (Qfloor y)); [exact HfK|].
    apply Hup. lra.
  - exact HfK.
  - apply Qgt_alt in Hc. apply Hup. lra.
Qed.

Lemma rne_ge (y : Q) (K : Z) : inject_Z K <= y -> (K <= rne y)%Z.
Proof.
  intros Hy. unfold rne.
  pose proof (Qlt_floor y) as Hf.
  assert (K <= Qfloor y)%Z as HfK.
  { assert (K < Qfloor y + 1)%Z; [|lia].
    rewrite Zlt_Qlt. eapply Qle_lt_trans; eassumption. }
  destruct (y - inject_Z (Qfloor y) ?= 1 # 2);
    [destruct (Z.even (Qfloor y))|..]; lia.
Qed.

(** Below [2^53] the rounding is a rounding to integers at some scale. *)
Lemma round_scaled (x : Q) :
  0 < x -> x < pow2 prec ->
  exists (M : Z) (y : Q),
    (0 < M)%Z /\ y == x * inject_Z M /\
    round x * inject_Z M == inject_Z (rne y).
Proof.
  intros Hx Hlt. unfold round.
  destruct (Qeq_bool x 0) eqn:Hz; [apply Qeq_bool_iff in Hz; lra|].
  clear Hz.
  set (e := Z.max (ilog2 (Qabs x) - (prec - 1)) emin).
  assert (e <= 0)%Z as He.
  { assert (ilog2 (Qabs x) < prec)%Z; [|unfold e, prec, emin in *; lia].
    apply ilog2_lt; rewrite Qabs_pos by lra; assumption. }
  exists (2 ^ (- e))%Z, (x / pow2 e).
  assert (pow2 e * inject_Z (2 ^ (- e)) == 1) as Hinv.
  { rewrite <- pow2_inject by lia. unfold pow2.
    rewrite <- Qpower_plus by exact two_neq_0.
    replace (e + - e)%Z with 0%Z by lia. reflexivity. }
  pose proof (pow2_pos e) as Hpe.
  split; [apply Z.pow_pos_nonneg; lia|]. split.
  - unfold Qdiv. rewrite <- (Qmult_1_r (/ pow2 e)), <- Hinv.
    field. lra.
  - rewrite <- Qmult_assoc, Hinv. ring.
Qed.

Lemma round_le (x : Q) (N : Z) :
  0 <= x -> x < pow2 prec -> x <= inject_Z N -> round x <= inject_Z N.
Proof.
  intros Hx Hlt HN. destruct (Qeq_bool x 0) eqn:Hz.
  - unfold round. rewrite Hz. apply Qeq_bool_iff in Hz. lra.
  - apply Qeq_bool_neq in Hz.
    assert (0 < x) as Hpos by (apply Qlt_leneq; split; [lra|]; intros H0;
                               apply Hz; rewrite H0; reflexivity).
    destruct (round_scaled x Hpos Hlt) as (M & y & HM & Hy & Hr).
    assert (0 < inject_Z M) as HMq by (rewrite <- (Zlt_Qlt 0); exact HM).
    apply (Qmult_le_r _ _ (inject_Z M)); [exact HMq|].
    rewrite Hr, <- inject_Z_mult, <- Zle_Qle. apply rne_le.
    rewrite Hy, inject_Z_mult. apply Qmult_le_compat_r; lra.
Qed.

Lemma round_ge (x : Q) (N : Z) :
  0 <= x -> x < pow2 prec -> inject_Z N <= x -> inject_Z N <= round x.
Proof.
  intros Hx Hlt HN. destruct (Qeq_bool x 0) eqn:Hz.
  - unfold round. rewrite Hz. apply Qeq_bool_iff in Hz. lra.
  - apply Qeq_bool_neq in Hz.
    assert (0 < x) as Hpos by (apply Qlt_leneq; split; [lra|]; intros H0;
                               apply Hz; rewrite H0; reflexivity).
    destruct (round_scaled x Hpos Hlt) as (M & y & HM & Hy & Hr).
    assert (0 < inject_Z M) as HMq by (rewrite <- (Zlt_Qlt 0); exact HM).
    apply (Qmult_le_r _ _ (inject_Z M)); [exact HMq|].
    rewrite Hr, <- inject_Z_mult, <- Zle_Qle. apply rne_ge.
    rewrite Hy, inject_Z_mult. apply Qmult_le_compat_r; lra.
Qed.

(** Integers below [2^53] are binary64 numbers. *)
Lemma of_int_exact (n : Z) :
  (0 <= n < 2 ^ prec)%Z -> of_int n == inject_Z n.
Proof.
  intros Hn. unfold of_int.
  assert (0 <= inject_Z n) as H0 by (rewrite <- (Zle_Qle 0); lia).
  assert (inject_Z n < pow2 prec) as H1
    by (rewrite pow2_inject by (unfold prec; lia); rewrite <- Zlt_Qlt; lia).
  apply Qle_antisym; [apply round_le|apply round_ge]; lra.
Qed.
End Binary64Facts.

(** ** The number of positions selected in a class *)

Section IntPercentage.
Import Binary64 Binary64Facts.
Local Open Scope Q_scope.

Variables (percentage : Q) (n : nat).
Hypothesis percentage_pos : 0 < percentage.
Hypothesis percentage_le_1 : percentage <= 1.
Hypothesis n_small : (Z.of_nat n < 2 ^ prec)%Z.

Lemma product_range :
  0 <= percentage * of_int (Z.of_nat n) /\
  percentage * of_int (Z.of_nat n) <= inject_Z (Z.of_nat n) /\
  percentage * of_int (Z.of_nat n) < pow2 prec.
Proof.
  assert (of_int (Z.of_nat n) == inject_Z (Z.of_nat n)) as Hn
    by (apply of_int_exact; lia).
  assert (0 <= inject_Z (Z.of_nat n)) as H0 by (rewrite <- (Zle_Qle 0); lia).
  assert (inject_Z (Z.of_nat n) < pow2 prec) as H1
    by (rewrite pow2_inject by (unfold prec; lia); rewrite <- Zlt_Qlt; lia).
  rewrite Hn. nra.
Qed.

Lemma int_percentage_floor :
  int_percentage percentage n = Qfloor (mul percentage (of_int (Z.of_nat n))).
Proof.
  destruct product_range as (H0 & H1 & H2).
  unfold int_percentage, to_int, mul.
  set (product := percentage * of_int (Z.of_nat n)) in *.
  assert (0 <= round product) as Hr by (apply (round_ge _ 0); assumption).
  apply Qle_bool_iff in Hr. rewrite Hr. reflexivity.
Qed.

Lemma int_percentage_bounds :
  (0 <= int_percentage percentage n <= Z.of_nat n)%Z.
Proof.
  destruct product_range as (H0 & H1 & H2).
  rewrite int_percentage_floor. unfold mul.
  set (product := percentage * of_int (Z.of_nat n)) in *. split.
  - rewrite <- (Qfloor_Z 0). apply Qfloor_resp_le. apply (round_ge _ 0); assumption.
  - rewrite <- (Qfloor_Z (Z.of_nat n)). apply Qfloor_resp_le.
    apply round_le; lra.
Qed.

(** The rounded product is the exact one, or the integer just above it:
    the count is [floor (percentage * n)] or one more. *)
Lemma int_percentage_exact_product :
  (Qfloor (percentage * inject_Z (Z.of_nat n))
   <= int_percentage percentage n
   <= Qfloor (percentage * inject_Z (Z.of_nat n)) + 1)%Z.
Proof.
  destruct product_range as (H0 & H1 & H2).
  set (product := percentage * of_int (Z.of_nat n)) in *.
  assert (product == percentage * inject_Z (Z.of_nat n)) as Hp
    by (unfold product; rewrite of_int_exact by lia; reflexivity).
  rewrite <- Hp, int_percentage_floor. unfold mul. fold product. split.
  - rewrite <- (Qfloor_Z (Qfloor product)) at 1. apply Qfloor_resp_le.
    apply round_ge; [lra..|]. apply Qfloor_le.
  - rewrite <- (Qfloor_Z (Qfloor product + 1)). apply Qfloor_resp_le.
    apply round_le; [lra..|]. apply Qlt_le_weak, Qlt_floor.
Qed.

(** An exact product that is an integer is not rounded. *)
Lemma int_percentage_integer (k : Z) :
  percentage * inject_Z (Z.of_nat n) == inject_Z k ->
  int_percentage percentage n = k.
Proof.
  intros Hk. destruct product_range as (H0 & H1 & H2).
  set (product := percentage * of_int (Z.of_nat n)) in *.
  assert (product == inject_Z k) as Hp
    by (unfold product; rewrite of_int_exact by lia; exact Hk).
  rewrite int_percentage_floor. unfold mul. fold product.
  transitivity (Qfloor (inject_Z k)); [|apply Qfloor_Z].
  apply Qfloor_comp.
  apply Qle_antisym; [apply round_le|apply round_ge]; lra.
Qed.

Lemma int_percentage_all :
  percentage == 1 -> int_percentage percentage n = Z.of_nat n.
Proof.
  intros Hone. apply int_percentage_integer. rewrite Hone. ring.
Qed.
End IntPercentage.

(** ** Positions of a class *)

Lemma nonzero_from_elem (k i : nat) (mask : list bool) :
  i ∈ nonzero_from k mask <-> k <= i /\ mask !! (i - k) = Some true.
Proof.
  revert k. induction mask as [|b mask IH]; intros k; csimpl.
  - split; [intros []%elem_of_nil|intros [_ [=]]].
  - assert (i ∈ nonzero_from (S k) mask <->
            k <= i /\ i <> k /\ (b :: mask) !! (i - k) = Some true) as Htl.
    { rewrite IH. split.
      - intros [Hle Hi]. replace (i - k) with (S (i - S k)) by lia.
        repeat split; [lia..|exact Hi].
      - intros (Hle & Hne & Hi). replace (i - k) with (S (i - S k)) in Hi by lia.
        split; [lia|exact Hi]. }
    destruct b.
    + rewrite elem_of_cons, Htl. split.
      * intros [->|(Hle & _ & Hi)]; [|by split].
        split; [lia|]. by rewrite Nat.sub_diag.
      * intros [Hle Hi]. destruct (decide (i = k)) as [->|Hne]; [by left|].
        right. by repeat split.
    + rewrite Htl. split; [intros (Hle & _ & Hi); by split|].
      intros [Hle Hi]. repeat split; [done| |done].
      intros ->. by rewrite Nat.sub_diag in Hi.
Qed.

Lemma nonzero_from_NoDup (k : nat) (mask : list bool) :
  NoDup (nonzero_from k mask).
Proof.
  revert k. induction mask as [|b mask IH]; intros k; csimpl; [constructor|].
  destruct b; [|apply IH]. constructor; [|apply IH].
  rewrite nonzero_from_elem. lia.
Qed.

Lemma nonzero_from_length {X : Type} (f : X -> bool) (P : X -> Prop)
  `{forall x, Decision (P x)} (k : nat) (l : list X) :
  (forall x, f x = true <-> P x) ->
  length (nonzero_from k (f <$> l)) = length (filter P l).
Proof.
  intros Hf. revert k. induction l as [|x l IH]; intros k; [reflexivity|].
  csimpl. rewrite filter_cons. destruct (f x) eqn:Hx.
  - rewrite decide_True by (by apply Hf). csimpl. by rewrite IH.
  - rewrite decide_False; [apply IH|]. rewrite <- Hf. congruence.
Qed.

Lemma nonzero_elem {X : Type} (f : X -> bool) (l : list X) (i : nat) :
  i ∈ nonzero (f <$> l) <-> exists x, l !! i = Some x /\ f x = true.
Proof.
  unfold nonzero. rewrite nonzero_from_elem, Nat.sub_0_r, list_lookup_fmap.
  split.
  - intros [_ Hi]. destruct (l !! i) as [x|]; [|discriminate].
    injection Hi as Hi. eauto.
  - intros (x & -> & Hx). split; [lia|]. csimpl. by rewrite Hx.
Qed.

Lemma Qgtb_lt (x y : Q) : Qgtb x y = true <-> (y < x)%Q.
Proof.
  unfold Qgtb. rewrite negb_true_iff. split.
  - intros Hb. apply Qnot_le_lt. intros Hle. apply Qle_bool_iff in Hle.
    congruence.
  - intros Hlt. destruct (Qle_bool x y) eqn:Hb; [|reflexivity].
    apply Qle_bool_iff in Hb. exfalso. by apply (Qlt_not_le _ _ Hlt).
Qed.

Lemma Qgtb_negb (x y : Q) : Qgtb x y = negb (Qle_bool x y).
Proof. reflexivity. Qed.

(** The two classes share no position and cover all of them. *)
Lemma classes_partition (ds : list Q) (t : Q) :
  nonzero ((fun d => Qle_bool d t) <$> ds)
    ++ nonzero ((fun d => Qgtb d t) <$> ds)
  ≡ₚ seq 0 (length ds).
Proof.
  apply NoDup_Permutation.
  - apply NoDup_app. repeat split; try apply nonzero_from_NoDup.
    intros i (x & Hx & Hle)%nonzero_elem (y & Hy & Hgt)%nonzero_elem.
    rewrite Hx in Hy. injection Hy as <-. rewrite Qgtb_negb, Hle in Hgt.
    discriminate.
  - apply NoDup_seq.
  - intros i. rewrite elem_of_app, !nonzero_elem, elem_of_seq. split.
    + intros [(x & Hx & _)|(x & Hx & _)]; apply lookup_lt_Some in Hx; lia.
    + intros [_ Hi]. destruct (lookup_lt_is_Some_2 ds i) as [x Hx]; [lia|].
      destruct (Qle_bool x t) eqn:Hb; [left|right]; exists x;
        (split; [exact Hx|]); [exact Hb|]. by rewrite Qgtb_negb, Hb.
Qed.

(** ** Fancy indexing *)

Lemma fancy_nth {X : Type} (l : list X) (idx : list nat) (d : X) :
  (forall i, i ∈ idx -> i < length l) ->
  fancy l idx = Ok ((fun i => nth i l d) <$> idx).
Proof.
  intros Hidx. unfold fancy. apply traverse_fmap. intros i Hi.
  destruct (lookup_lt_is_Some_2 l i (Hidx i Hi)) as [x Hx].
  rewrite Hx. by rewrite (nth_lookup_Some _ _ _ _ Hx).
Qed.

Lemma zip_fmap_self {X Y : Type} (f : X -> Y) (l : list X) :
  zip (f <$> l) l = (fun x => (f x, x)) <$> l.
Proof. induction l as [|x l IH]; [reflexivity|]. csimpl. by rewrite IH. Qed.

Lemma fmap_nth_seq {X : Type} (l : list X) (d : X) :
  (fun j => nth j l d) <$> seq 0 (length l) = l.
Proof.
  apply list_eq_same_length with (length l); [reflexivity| |].
  - by rewrite length_fmap, length_seq.
  - intros i x y Hi Hx Hy. rewrite list_lookup_fmap, lookup_seq_lt in Hx
      by exact Hi.
    csimpl in Hx. injection Hx as <-. by apply nth_lookup_Some.
Qed.

Lemma Sorted_fmap_inv {X Y : Type} (R : relation Y) (f : X -> Y) (l : list X) :
  Sorted R (f <$> l) -> Sorted (fun x y => R (f x) (f y)) l.
Proof.
  induction l as [|x l IH]; csimpl; intros Hs; [constructor|].
  apply Sorted_inv in Hs as [Hs Hhd]. constructor; [by apply IH|].
  destruct l; csimpl in *; constructor. by apply HdRel_inv in Hhd.
Qed.

Lemma Sorted_take {X : Type} (R : relation X) (k : nat) (l : list X) :
  Sorted R l -> Sorted R (take k l).
Proof.
  revert k. induction l as [|x l IH]; intros [|k] Hs; csimpl;
    try constructor.
  - apply IH. by apply Sorted_inv in Hs as [Hs _].
  - apply Sorted_inv in Hs as [_ Hhd].
    destruct l, k; csimpl; constructor. by apply HdRel_inv in Hhd.
Qed.

Lemma Sorted_weaken {X : Type} (R R' : relation X) (l : list X) :
  (forall x y, R x y -> R' x y) -> Sorted R l -> Sorted R' l.
Proof.
  intros HR. induction 1 as [|x l Hs IH Hhd]; constructor; [exact IH|].
  destruct Hhd; constructor. by apply HR.
Qed.

(** ** labels_by_percentage *)

Lemma py_slice_take {X : Type} (k : Z) (l : list X) :
  (0 <= k <= Z.of_nat (length l))%Z -> py_slice 0 k l = take (Z.to_nat k) l.
Proof.
  intros Hk. unfold py_slice. rewrite !slice_bound_inside by lia.
  csimpl. f_equal. lia.
Qed.

Lemma np_full_Ok {X : Type} (k : Z) (v : X) :
  (0 <= k)%Z -> np_full k v = Ok (replicate (Z.to_nat k) v).
Proof.
  intros Hk. unfold np_full. destruct (Z.ltb_spec k 0); [lia|reflexivity].
Qed.

Section PercentageRun.
Variable argsort : list Q -> list nat.
Hypothesis argsort_ok : argsort_contract argsort.

(** One class, sorted by the key [key] of its distances. *)
Lemma class_sorted (ds : list Q) (key : Q -> Q) (cls : list nat)
  (keys : list Q) :
  let matrix := zip ((fun i => nth i ds 0%Q) <$> cls) cls in
  keys = key <$> (fst <$> matrix) ->
  exists pos,
    pos ≡ₚ cls /\
    Sorted Qle ((fun i => key (distance_at ds i)) <$> pos) /\
    fancy matrix (argsort keys)
    = Ok ((fun i => (distance_at ds i, i)) <$> pos).
Proof.
  intros matrix ->.
  assert (matrix = (fun i => (distance_at ds i, i)) <$> cls) as Hm
    by apply zip_fmap_self.
  rewrite Hm, <- !list_fmap_compose.
  set (keys := (key ∘ fst ∘ (fun i => (distance_at ds i, i))) <$> cls).
  destruct (argsort_ok keys) as [Hperm Hsorted].
  assert (length keys = length cls) as Hlen by apply length_fmap.
  rewrite Hlen in Hperm.
  assert (forall j, j ∈ argsort keys -> j < length cls) as Hrange.
  { intros j Hj. rewrite Hperm in Hj. apply elem_of_seq in Hj. lia. }
  exists ((fun j => nth j cls 0) <$> argsort keys). split; [|split].
  - rewrite Hperm. by rewrite fmap_nth_seq.
  - rewrite <- list_fmap_compose.
    erewrite list_fmap_ext; [exact Hsorted|].
    intros k j Hj. csimpl.
    assert (j < length cls) as Hlt
      by (apply Hrange; by eapply list_elem_of_lookup_2).
    destruct (lookup_lt_is_Some_2 cls j Hlt) as [i Hi].
    rewrite (nth_lookup_Some _ _ _ _ Hi). symmetry.
    apply nth_lookup_Some. unfold keys. by rewrite list_lookup_fmap, Hi.
  - rewrite (fancy_nth _ _ (distance_at ds 0, 0)).
    + f_equal. rewrite <- list_fmap_compose. apply list_fmap_ext.
      intros k j _. csimpl.
      apply (map_nth (fun i => (distance_at ds i, i))).
    + intros j Hj. rewrite length_fmap. by apply Hrange.
Qed.

Variables (record : pseudo_dict) (percentage : Q).
Hypothesis percentage_pos : (0 < percentage)%Q.
Hypothesis percentage_le_1 : (percentage <= 1)%Q.
Hypothesis distances_small :
  (Z.of_nat (length (distances record)) < 2 ^ Binary64.prec)%Z.

Lemma labels_by_percentage_run :
  let ds := distances record in
  let t := threshold record in
  exists pos_n pos_c : list nat,
    pos_n ≡ₚ nonzero ((fun d => Qle_bool d t) <$> ds) /\
    pos_c ≡ₚ nonzero ((fun d => Qgtb d t) <$> ds) /\
    Sorted Qle (distance_at ds <$> pos_n) /\
    Sorted (flip Qle) (distance_at ds <$> pos_c) /\
    (0 <= int_percentage percentage (length pos_n)
     <= Z.of_nat (length pos_n))%Z /\
    (0 <= int_percentage percentage (length pos_c)
     <= Z.of_nat (length pos_c))%Z /\
    labels_by_percentage argsort record percentage
    = Ok (take (Z.to_nat (int_percentage percentage (length pos_n))) pos_n
          ++ take (Z.to_nat (int_percentage percentage (length pos_c))) pos_c,
          replicate (Z.to_nat (int_percentage percentage (length pos_n)))
                    UNCHANGED_LABEL
          ++ replicate (Z.to_nat (int_percentage percentage (length pos_c)))
                       CHANGED_LABEL).
Proof.
  intros ds t. unfold labels_by_percentage. fold ds t.
  assert (Qle_bool percentage 0 = false) as ->.
  { destruct (Qle_bool percentage 0) eqn:Hb; [|reflexivity].
    apply Qle_bool_iff in Hb. exfalso. by apply (Qlt_not_le _ _ percentage_pos). }
  assert (Qgtb percentage 1 = false) as ->.
  { unfold Qgtb. apply negb_false_iff. by apply Qle_bool_iff. }
  cbn [orb].
  set (N := nonzero ((fun d => Qle_bool d t) <$> ds)).
  set (C := nonzero ((fun d => Qgtb d t) <$> ds)).
  assert (forall i, i ∈ N -> i < length ds) as HN.
  { intros i (x & Hx & _)%nonzero_elem. by eapply lookup_lt_Some. }
  assert (forall i, i ∈ C -> i < length ds) as HC.
  { intros i (x & Hx & _)%nonzero_elem. by eapply lookup_lt_Some. }
  rewrite (fancy_nth ds N 0%Q HN), (fancy_nth ds C 0%Q HC).
  cbn [mbind result_bind].
  destruct (class_sorted ds id N _ (eq_sym (list_fmap_id _)))
    as (pos_n & Hpn & Hsn & ->).
  destruct (class_sorted ds Qopp C _ eq_refl) as (pos_c & Hpc & Hsc & ->).
  cbn [mbind result_bind]. rewrite !length_fmap.
  assert (length N <= length ds) as HlenN.
  { unfold N, nonzero.
    rewrite (nonzero_from_length _ (fun d => (d <= t)%Q)).
    - apply length_filter.
    - intros d. apply Qle_bool_iff. }
  assert (length C <= length ds) as HlenC.
  { unfold C, nonzero.
    rewrite (nonzero_from_length _ (fun d => (t < d)%Q)).
    - apply length_filter.
    - intros d. apply Qgtb_lt. }
  pose proof (Permutation_length Hpn) as Hln.
  pose proof (Permutation_length Hpc) as Hlc.
  pose proof distances_small as Hsmall. fold ds in Hsmall.
  assert (0 <= int_percentage percentage (length pos_n)
          <= Z.of_nat (length pos_n))%Z as Hkn
    by (apply int_percentage_bounds; [assumption..|lia]).
  assert (0 <= int_percentage percentage (length pos_c)
          <= Z.of_nat (length pos_c))%Z as Hkc
    by (apply int_percentage_bounds; [assumption..|lia]).
  exists pos_n, pos_c.
  split; [exact Hpn|]. split; [exact Hpc|]. split; [|split].
  - erewrite list_fmap_ext; [exact Hsn|]. reflexivity.
  - assert (Sorted Qle (Qopp <$> (distance_at ds <$> pos_c))) as Hsc'
      by (rewrite <- list_fmap_compose; exact Hsc).
    apply Sorted_fmap_inv in Hsc'. eapply Sorted_weaken; [|exact Hsc'].
    intros x y Hxy. unfold flip. csimpl in Hxy. lra.
  - split; [exact Hkn|]. split; [exact Hkc|].
    rewrite !np_full_Ok by lia. cbn [mbind result_bind].
    rewrite !py_slice_take by (rewrite length_fmap; lia).
    rewrite <- !fmap_take, <- !list_fmap_compose.
    do 2 f_equal; f_equal; apply list_fmap_id.
Qed.
End PercentageRun.

(** ** A sort that meets the contract of argsort *)

Lemma insert_key_perm (keys : list Q) (i : nat) (s : list nat) :
  insert_key keys i s ≡ₚ i :: s.
Proof.
  induction s as [|j s IH]; csimpl; [reflexivity|].
  destruct (Qgtb (nth i keys 0%Q) (nth j keys 0%Q)); [|reflexivity].
  rewrite IH. apply Permutation_swap.
Qed.

Lemma insert_key_sorted (keys : list Q) (i : nat) (s : list nat) :
  Sorted (fun a b => (nth a keys 0 <= nth b keys 0)%Q) s ->
  Sorted (fun a b => (nth a keys 0 <= nth b keys 0)%Q) (insert_key keys i s).
Proof.
  induction 1 as [|j s Hs IH Hhd]; csimpl; [repeat constructor|].
  destruct (Qgtb (nth i keys 0%Q) (nth j keys 0%Q)) eqn:Hgt.
  - apply Qgtb_lt in Hgt. constructor; [exact IH|].
    destruct s as [|k s]; csimpl.
    + constructor. by apply Qlt_le_weak.
    + destruct (Qgtb (nth i keys 0%Q) (nth k keys 0%Q)); constructor.
      * by apply HdRel_inv in Hhd.
      * by apply Qlt_le_weak.
  - constructor; [by constructor|]. constructor.
    destruct (Qle_bool (nth i keys 0%Q) (nth j keys 0%Q)) eqn:Hle.
    + by apply Qle_bool_iff.
    + unfold Qgtb in Hgt. rewrite Hle in Hgt. discriminate.
Qed.

Lemma Sorted_fmap_key {X Y : Type} (R : relation Y) (f : X -> Y)
  (l : list X) :
  Sorted (fun x y => R (f x) (f y)) l -> Sorted R (f <$> l).
Proof.
  induction 1 as [|x l Hs IH Hhd]; csimpl; constructor; [exact IH|].
  destruct Hhd; csimpl; constructor. assumption.
Qed.

Lemma insertion_argsort_contract : argsort_contract insertion_argsort.
Proof.
  intros keys. unfold insertion_argsort. split.
  - induction (seq 0 (length keys)) as [|i l IH]; csimpl; [reflexivity|].
    by rewrite insert_key_perm, IH.
  - apply Sorted_fmap_key.
    induction (seq 0 (length keys)) as [|i l IH]; csimpl; [constructor|].
    by apply insert_key_sorted.
Qed.

(** ** Statements about labels_by_percentage *)

Lemma nonzero_class_le (ds : list Q) (t : Q) (i : nat) :
  i ∈ nonzero ((fun d => Qle_bool d t) <$> ds) <->
  i < length ds /\ (distance_at ds i <= t)%Q.
Proof.
  rewrite nonzero_elem. unfold distance_at. split.
  - intros (x & Hx & Hle). split; [by eapply lookup_lt_Some|].
    rewrite (nth_lookup_Some _ _ _ _ Hx). by apply Qle_bool_iff.
  - intros [Hi Hle]. destruct (lookup_lt_is_Some_2 ds i Hi) as [x Hx].
    rewrite (nth_lookup_Some _ _ _ _ Hx) in Hle. exists x.
    split; [exact Hx|]. by apply Qle_bool_iff.
Qed.

Lemma nonzero_class_gt (ds : list Q) (t : Q) (i : nat) :
  i ∈ nonzero ((fun d => Qgtb d t) <$> ds) <->
  i < length ds /\ (t < distance_at ds i)%Q.
Proof.
  rewrite nonzero_elem. unfold distance_at. split.
  - intros (x & Hx & Hgt). split; [by eapply lookup_lt_Some|].
    rewrite (nth_lookup_Some _ _ _ _ Hx). by apply Qgtb_lt.
  - intros [Hi Hgt]. destruct (lookup_lt_is_Some_2 ds i Hi) as [x Hx].
    rewrite (nth_lookup_Some _ _ _ _ Hx) in Hgt. exists x.
    split; [exact Hx|]. by apply Qgtb_lt.
Qed.

Lemma class_le_length (ds : list Q) (t : Q) :
  length (nonzero ((fun d => Qle_bool d t) <$> ds))
  = length (filter (fun d => (d <= t)%Q) ds).
Proof. apply nonzero_from_length. intros d. apply Qle_bool_iff. Qed.

Lemma class_gt_length (ds : list Q) (t : Q) :
  length (nonzero ((fun d => Qgtb d t) <$> ds))
  = length (filter (fun d => (t < d)%Q) ds).
Proof. apply nonzero_from_length. intros d. apply Qgtb_lt. Qed.

Lemma where_changed_lookup (ds : list Q) (t : Q) (i : nat) :
  i < length ds ->
  where_changed ds t !! i
  = Some (if decide (t < distance_at ds i)%Q then CHANGED_LABEL
          else UNCHANGED_LABEL).
Proof.
  intros Hi. destruct (lookup_lt_is_Some_2 ds i Hi) as [x Hx].
  unfold where_changed, distance_at.
  rewrite list_lookup_fmap, Hx, (nth_lookup_Some _ _ _ _ Hx). csimpl.
  f_equal. destruct (Qgtb x t) eqn:Hgt.
  - apply Qgtb_lt in Hgt. by rewrite decide_True.
  - rewrite decide_False; [reflexivity|]. intros Hlt.
    apply Qgtb_lt in Hlt. congruence.
Qed.

Lemma Forall2_replicate_r {X Y : Type} (P : X -> Y -> Prop) (l : list X)
  (y : Y) :
  Forall (fun x => P x y) l -> Forall2 P l (replicate (length l) y).
Proof. induction 1; csimpl; constructor; assumption. Qed.

(** C4. For a percentage in (0,1] the selection is a run of positions of
    the UNCHANGED class ([distance <= threshold]) followed by a run of
    positions of the CHANGED class ([distance > threshold]); each run has
    [floor (percentage * size of its class)] positions, the product being
    the binary64 product the code computes; distances increase along the
    first run and decrease along the second; the labels are as many
    UNCHANGED constants followed by as many CHANGED constants.  With a
    percentage of one half and ten positions in each class, five positions
    of each class are returned, ten in all. *)
Theorem labels_by_percentage_stratified (argsort : list Q -> list nat)
  (record : pseudo_dict) (percentage : Q) :
  argsort_contract argsort ->
  (0 < percentage)%Q -> (percentage <= 1)%Q ->
  (Z.of_nat (length (distances record)) < 2 ^ 53)%Z ->
  let ds := distances record in
  let t := threshold record in
  let size_n := length (filter (fun d => (d <= t)%Q) ds) in
  let size_c := length (filter (fun d => (t < d)%Q) ds) in
  exists sel_n sel_c : list nat,
    labels_by_percentage argsort record percentage
    = Ok (sel_n ++ sel_c,
          replicate (length sel_n) UNCHANGED_LABEL
          ++ replicate (length sel_c) CHANGED_LABEL) /\
    Z.of_nat (length sel_n)
    = Qfloor (Binary64.mul percentage (Binary64.of_int (Z.of_nat size_n))) /\
    Z.of_nat (length sel_c)
    = Qfloor (Binary64.mul percentage (Binary64.of_int (Z.of_nat size_c))) /\
    (forall i, i ∈ sel_n -> i < length ds /\ (distance_at ds i <= t)%Q) /\
    (forall i, i ∈ sel_c -> i < length ds /\ (t < distance_at ds i)%Q) /\
    Sorted Qle (distance_at ds <$> sel_n) /\
    Sorted (flip Qle) (distance_at ds <$> sel_c) /\
    ((percentage == 1 # 2)%Q -> size_n = 10 -> size_c = 10 ->
     length sel_n = 5 /\ length sel_c = 5 /\ length (sel_n ++ sel_c) = 10).
Proof.
  intros Hsort Hpos Hle Hsmall ds t size_n size_c.
  destruct (labels_by_percentage_run argsort Hsort record percentage
              Hpos Hle Hsmall)
    as (pos_n & pos_c & Hpn & Hpc & Hsn & Hsc & Hkn & Hkc & Hrun).
  fold ds t in Hpn, Hpc, Hsn, Hsc, Hrun.
  assert (length pos_n = size_n) as Hln
    by (rewrite (Permutation_length Hpn); apply class_le_length).
  assert (length pos_c = size_c) as Hlc
    by (rewrite (Permutation_length Hpc); apply class_gt_length).
  assert (size_n <= length ds) as Hsn_le by apply length_filter.
  assert (size_c <= length ds) as Hsc_le by apply length_filter.
  fold ds in Hsmall.
  assert (Z.of_nat size_n < 2 ^ Binary64.prec)%Z as Hsmall_n
    by (change Binary64.prec with 53%Z; lia).
  assert (Z.of_nat size_c < 2 ^ Binary64.prec)%Z as Hsmall_c
    by (change Binary64.prec with 53%Z; lia).
  rewrite Hln in Hkn, Hrun. rewrite Hlc in Hkc, Hrun.
  set (kn := int_percentage percentage size_n) in *.
  set (kc := int_percentage percentage size_c) in *.
  assert (length (take (Z.to_nat kn) pos_n) = Z.to_nat kn) as Htn
    by (rewrite length_take; lia).
  assert (length (take (Z.to_nat kc) pos_c) = Z.to_nat kc) as Htc
    by (rewrite length_take; lia).
  exists (take (Z.to_nat kn) pos_n), (take (Z.to_nat kc) pos_c).
  rewrite Htn, Htc. split; [exact Hrun|].
  split; [|split; [|split; [|split; [|split; [|split]]]]].
  - unfold kn. rewrite <- int_percentage_floor by assumption.
    fold kn. lia.
  - unfold kc. rewrite <- int_percentage_floor by assumption.
    fold kc. lia.
  - intros i Hi. apply nonzero_class_le. rewrite <- Hpn.
    eapply elem_of_sublist; [exact Hi|apply sublist_take].
  - intros i Hi. apply nonzero_class_gt. rewrite <- Hpc.
    eapply elem_of_sublist; [exact Hi|apply sublist_take].
  - rewrite fmap_take. by apply Sorted_take.
  - rewrite fmap_take. by apply Sorted_take.
  - intros Hhalf Hn Hc. rewrite length_app, Htn, Htc.
    assert (kn = 5%Z) as ->.
    { apply int_percentage_integer; try assumption.
      rewrite Hhalf, Hn. reflexivity. }
    assert (kc = 5%Z) as ->.
    { apply int_percentage_integer; try assumption.
      rewrite Hhalf, Hc. reflexivity. }
    auto.
Qed.

Lemma selectByNeighborhood_run (record : pseudo_dict)
  (radius correction_radius : Z) (smoothed : array2 label) :
  length (distances record) = (shape record).1 * (shape record).2 ->
  (1 <= radius)%Z ->
  spatial_correction
    (Array2 (shape record).1 (shape record).2
       (where_changed (distances record) (threshold record)))
    correction_radius = Ok smoothed ->
  selectByNeighborhood record radius correction_radius
  = Ok ((select_unanimous smoothed radius).*1,
        (select_unanimous smoothed radius).*2).
Proof.
  intros Hlen Hrad Hsc. unfold selectByNeighborhood.
  destruct (Z.ltb_spec radius 1); [lia|].
  rewrite np_reshape_Ok by (by rewrite where_changed_length).
  cbn [mbind result_bind]. rewrite Hsc. reflexivity.
Qed.

(** C6. For valid parameters both selections return a result whose two
    arrays have the same length and whose indices are pairwise distinct. *)
Theorem selection_result_invariant (argsort : list Q -> list nat)
  (record : pseudo_dict) (percentage : Q) (radius : Z) :
  argsort_contract argsort ->
  (0 < percentage)%Q -> (percentage <= 1)%Q ->
  (Z.of_nat (length (distances record)) < 2 ^ 53)%Z ->
  length (distances record) = (shape record).1 * (shape record).2 ->
  (1 <= radius)%Z ->
  (exists indices labels,
     labels_by_percentage argsort record percentage = Ok (indices, labels) /\
     length indices = length labels /\ NoDup indices) /\
  (exists indices labels,
     labels_by_neighborhood record radius = Ok (indices, labels) /\
     length indices = length labels /\ NoDup indices).
Proof.
  intros Hsort Hpos Hle Hsmall Hshape Hrad. split.
  - destruct (labels_by_percentage_run argsort Hsort record percentage
                Hpos Hle Hsmall)
      as (pos_n & pos_c & Hpn & Hpc & _ & _ & Hkn & Hkc & Hrun).
    eexists _, _. split; [exact Hrun|]. split.
    + rewrite !length_app, !length_take, !length_replicate. lia.
    + pose proof (classes_partition (distances record) (threshold record))
        as Hpart.
      assert (NoDup (pos_n ++ pos_c)) as Hnd
        by (rewrite Hpn, Hpc, Hpart; apply NoDup_seq).
      apply NoDup_app in Hnd as (Hn & Hdisj & Hc).
      apply NoDup_app. split; [|split].
      * eapply sublist_NoDup; [exact Hn|apply sublist_take].
      * intros i Hi Hi'. apply (Hdisj i).
        -- eapply elem_of_sublist; [exact Hi|apply sublist_take].
        -- eapply elem_of_sublist; [exact Hi'|apply sublist_take].
      * eapply sublist_NoDup; [exact Hc|apply sublist_take].
  - destruct (spatial_correction_cells _ default_radius
                (label_map_wf record Hshape))
      as (smoothed & Hsc & _); [unfold default_radius; lia|].
    rewrite (labels_by_neighborhood_run record radius smoothed Hshape Hrad Hsc).
    eexists _, _. split; [reflexivity|]. split.
    + by rewrite !length_fmap.
    + apply select_unanimous_NoDup.
Qed.

(** C10. With a percentage of one the selection returns every position of
    the distance array once, the UNCHANGED class first and the CHANGED
    class after it; the result is as long as the image, and each label is
    the one that thresholding gives at the index it is paired with. *)
Theorem labels_by_percentage_whole_image (argsort : list Q -> list nat)
  (record : pseudo_dict) (percentage : Q) :
  argsort_contract argsort ->
  (percentage == 1)%Q ->
  (Z.of_nat (length (distances record)) < 2 ^ 53)%Z ->
  let ds := distances record in
  let t := threshold record in
  exists pos_n pos_c : list nat,
    labels_by_percentage argsort record percentage
    = Ok (pos_n ++ pos_c,
          replicate (length pos_n) UNCHANGED_LABEL
          ++ replicate (length pos_c) CHANGED_LABEL) /\
    (forall i, i ∈ pos_n <-> i < length ds /\ (distance_at ds i <= t)%Q) /\
    (forall i, i ∈ pos_c <-> i < length ds /\ (t < distance_at ds i)%Q) /\
    pos_n ++ pos_c ≡ₚ seq 0 (length ds) /\
    length (pos_n ++ pos_c) = length ds /\
    Forall2 (fun i l => where_changed ds t !! i = Some l)
            (pos_n ++ pos_c)
            (replicate (length pos_n) UNCHANGED_LABEL
             ++ replicate (length pos_c) CHANGED_LABEL).
Proof.
  intros Hsort Hone Hsmall ds t.
  assert (0 < percentage)%Q as Hpos by (rewrite Hone; reflexivity).
  assert (percentage <= 1)%Q as Hle by (rewrite Hone; apply Qle_refl).
  destruct (labels_by_percentage_run argsort Hsort record percentage
              Hpos Hle Hsmall)
    as (pos_n & pos_c & Hpn & Hpc & _ & _ & _ & _ & Hrun).
  fold ds t in Hpn, Hpc. fold ds in Hsmall.
  pose proof (classes_partition ds t) as Hpart.
  assert (length pos_n + length pos_c = length ds) as Hlen.
  { pose proof (Permutation_length Hpart) as Hl.
    rewrite length_app, length_seq in Hl.
    by rewrite (Permutation_length Hpn), (Permutation_length Hpc). }
  rewrite !int_percentage_all in Hrun
    by (assumption || (change Binary64.prec with 53%Z; lia)).
  rewrite !Nat2Z.id, !firstn_all in Hrun.
  assert (forall i, i ∈ pos_n <-> i < length ds /\ (distance_at ds i <= t)%Q)
    as Hn by (intros i; rewrite Hpn; apply nonzero_class_le).
  assert (forall i, i ∈ pos_c <-> i < length ds /\ (t < distance_at ds i)%Q)
    as Hc by (intros i; rewrite Hpc; apply nonzero_class_gt).
  exists pos_n, pos_c. split; [exact Hrun|]. split; [exact Hn|].
  split; [exact Hc|]. split; [by rewrite Hpn, Hpc|].
  split; [by rewrite length_app|].
  apply Forall2_app; apply Forall2_replicate_r, Forall_forall; intros i Hi.
  - apply Hn in Hi as [Hi Hd]. rewrite where_changed_lookup by exact Hi.
    rewrite decide_False; [reflexivity|]. by apply Qle_not_lt.
  - apply Hc in Hi as [Hi Hd]. rewrite where_changed_lookup by exact Hi.
    by rewrite decide_True.
Qed.

(** ** The end-to-end scenario *)

(** C1, as the code has it.  On the scenario record the labels are
    UNCHANGED, UNCHANGED, CHANGED, CHANGED, and a percentage of one half
    selects the indices 0 and 3: the UNCHANGED pixel closest to zero, then
    the farthest CHANGED pixel, which is the last one (distance 0.9). *)
Theorem end_to_end_scenario (argsort : list Q -> list nat) :
  argsort_contract argsort ->
  where_changed (distances scenario) (threshold scenario)
  = [UNCHANGED_LABEL; UNCHANGED_LABEL; CHANGED_LABEL; CHANGED_LABEL] /\
  labels_by_percentage argsort scenario (1 # 2)
  = Ok ([0; 3], [UNCHANGED_LABEL; CHANGED_LABEL]).
Proof.
  intros Hsort. split; [by vm_compute|].
  destruct (labels_by_percentage_run argsort Hsort scenario (1 # 2))
    as (pos_n & pos_c & Hpn & Hpc & Hsn & Hsc & _ & _ & ->);
    [reflexivity|discriminate|by vm_compute|].
  assert (nonzero ((fun d => Qle_bool d (threshold scenario))
                     <$> distances scenario) = [0; 1]) as HN by (by vm_compute).
  assert (nonzero ((fun d => Qgtb d (threshold scenario))
                     <$> distances scenario) = [2; 3]) as HC by (by vm_compute).
  rewrite HN in Hpn. rewrite HC in Hpc.
  symmetry in Hpn, Hpc.
  apply Permutation_length_2_inv in Hpn as [->| ->];
    apply Permutation_length_2_inv in Hpc as [->| ->];
    try reflexivity; exfalso.
  - apply Sorted_inv in Hsc as [_ Hhd]. apply HdRel_inv in Hhd.
    vm_compute in Hhd. by apply Hhd.
  - apply Sorted_inv in Hsn as [_ Hhd]. apply HdRel_inv in Hhd.
    vm_compute in Hhd. by apply Hhd.
  - apply Sorted_inv in Hsn as [_ Hhd]. apply HdRel_inv in Hhd.
    vm_compute in Hhd. by apply Hhd.
Qed.

Lemma end_to_end_scenario_witness :
  where_changed (distances scenario) (threshold scenario)
  = [UNCHANGED_LABEL; UNCHANGED_LABEL; CHANGED_LABEL; CHANGED_LABEL] /\
  labels_by_percentage insertion_argsort scenario (1 # 2)
  = Ok ([0; 3], [UNCHANGED_LABEL; CHANGED_LABEL]).
Proof.
  apply (end_to_end_scenario insertion_argsort insertion_argsort_contract).
Defined.

(** C1 as stated fails: the selection does not return the indices 0 and
    2. *)
Lemma scenario_indices_0_2_refuted :
  ~ (forall argsort : list Q -> list nat,
       argsort_contract argsort ->
       labels_by_percentage argsort scenario (1 # 2)
       = Ok ([0; 2], [UNCHANGED_LABEL; CHANGED_LABEL])).
Proof.
  intros Hclaim.
  specialize (Hclaim insertion_argsort insertion_argsort_contract).
  vm_compute in Hclaim. discriminate.
Qed.

(** ** labels_by_neighborhood and its specification *)

(** C2, as the code has it.  The neighbourhood selection is the
    composition of the specification with one difference: the spatial
    correction runs with its default radius 3, whatever radius is given;
    the given radius only sizes the window of the unanimity test.  For a
    radius of one or more and a record of matching shape the result is the
    list of the pixels of the corrected map whose window is unanimous, in
    row-major order, each with its corrected label. *)
Theorem labels_by_neighborhood_composition (record : pseudo_dict)
  (radius : Z) :
  default_radius = 3%Z /\
  labels_by_neighborhood record radius
  = selectByNeighborhood record radius default_radius /\
  (length (distances record) = (shape record).1 * (shape record).2 ->
   (1 <= radius)%Z ->
   exists smoothed,
     spatial_correction
       (Array2 (shape record).1 (shape record).2
          (where_changed (distances record) (threshold record)))
       default_radius = Ok smoothed /\
     labels_by_neighborhood record radius
     = Ok ((select_unanimous smoothed radius).*1,
           (select_unanimous smoothed radius).*2)).
Proof.
  split; [reflexivity|]. split; cycle 1.
  { intros Hlen Hrad.
    destruct (spatial_correction_cells _ default_radius
                (label_map_wf record Hlen))
      as (smoothed & Hsc & _); [unfold default_radius; lia|].
    exists smoothed. split; [exact Hsc|].
    apply (labels_by_neighborhood_run record radius smoothed Hlen Hrad Hsc). }
  destruct (Z.lt_ge_cases radius 1) as [Hlt|Hrad].
  - unfold labels_by_neighborhood, selectByNeighborhood.
    destruct (Z.ltb_spec radius 1); [reflexivity|lia].
  - destruct (decide (length (distances record)
                      = (shape record).1 * (shape record).2)) as [Hlen|Hlen].
    + destruct (spatial_correction_cells _ default_radius
                  (label_map_wf record Hlen))
        as (smoothed & Hsc & _); [unfold default_radius; lia|].
      rewrite (labels_by_neighborhood_run record radius smoothed
                 Hlen Hrad Hsc).
      by rewrite (selectByNeighborhood_run record radius default_radius
                    smoothed Hlen Hrad Hsc).
    + rewrite labels_by_neighborhood_bad_shape by assumption.
      unfold selectByNeighborhood. destruct (Z.ltb_spec radius 1); [lia|].
      by rewrite np_reshape_Raise by (by rewrite where_changed_length).
Qed.

(** C2 as stated fails: with radius 1 the correction of the specification
    is the identity and keeps the lone CHANGED centre, while the code
    smooths it away with radius 3. *)
Lemma correction_at_given_radius_refuted :
  ~ (forall (record : pseudo_dict) (radius : Z),
       (1 <= radius)%Z ->
       labels_by_neighborhood record radius
       = selectByNeighborhood record radius radius).
Proof.
  intros Hclaim. specialize (Hclaim lone_centre 1%Z).
  vm_compute in Hclaim. specialize (Hclaim ltac:(discriminate)).
  discriminate.
Qed.

(** ** Validation *)

Lemma traverse_Raise {X Y : Type} (f : X -> result Y) (xs : list X)
  (e : exn) :
  traverse f xs = Raise e -> exists x, x ∈ xs /\ f x = Raise e.
Proof.
  induction xs as [|x xs IH]; csimpl; [discriminate|].
  destruct (f x) as [y|e'] eqn:Hx; csimpl.
  - destruct (traverse f xs) as [ys|e'']; csimpl; [discriminate|].
    intros [= ->]. destruct IH as (x' & Hin & Hx'); [reflexivity|].
    exists x'. split; [by right|exact Hx'].
  - intros [= ->]. exists x. split; [left|exact Hx].
Qed.

Lemma fancy_Raise {X : Type} (l : list X) (idx : list nat) (e : exn) :
  fancy l idx = Raise e -> e = IndexError "index is out of bounds"%string.
Proof.
  intros (i & _ & Hi)%traverse_Raise.
  destruct (l !! i); [discriminate|]. by injection Hi.
Qed.

Lemma np_full_Raise {X : Type} (k : Z) (v : X) (e : exn) :
  np_full k v = Raise e ->
  e = ValueError "negative dimensions are not allowed"%string.
Proof.
  unfold np_full. destruct (k <? 0)%Z; [|discriminate]. by intros [= <-].
Qed.

Lemma labels_by_percentage_valid (argsort : list Q -> list nat)
  (record : pseudo_dict) (percentage : Q) :
  (0 < percentage)%Q -> (percentage <= 1)%Q ->
  labels_by_percentage argsort record percentage <> Raise percentage_error.
Proof.
  intros Hpos Hle. unfold labels_by_percentage.
  assert (Qle_bool percentage 0 = false) as ->.
  { destruct (Qle_bool percentage 0) eqn:Hb; [|reflexivity].
    apply Qle_bool_iff in Hb. exfalso. by apply (Qlt_not_le _ _ Hpos). }
  assert (Qgtb percentage 1 = false) as ->.
  { unfold Qgtb. apply negb_false_iff. by apply Qle_bool_iff. }
  cbn [orb].
  repeat match goal with
         | |- context [fancy ?l ?idx] =>
             let H := fresh "Hf" in
             destruct (fancy l idx) eqn:H; cbn [mbind result_bind];
             [|apply fancy_Raise in H; subst; discriminate]
         | |- context [np_full ?k ?v] =>
             let H := fresh "Hf" in
             destruct (np_full k v) eqn:H; cbn [mbind result_bind];
             [|apply np_full_Raise in H; subst; discriminate]
         end.
  discriminate.
Qed.

Lemma labels_by_neighborhood_valid (record : pseudo_dict) (radius : Z) :
  (1 <= radius)%Z ->
  labels_by_neighborhood record radius <> Raise radius_error.
Proof.
  intros Hrad.
  destruct (decide (length (distances record)
                    = (shape record).1 * (shape record).2)) as [Hlen|Hlen].
  - destruct (spatial_correction_cells _ default_radius
                (label_map_wf record Hlen))
      as (smoothed & Hsc & _); [unfold default_radius; lia|].
    by rewrite (labels_by_neighborhood_run record radius smoothed
                  Hlen Hrad Hsc).
  - by rewrite labels_by_neighborhood_bad_shape.
Qed.

(** C5. [labels_by_percentage] raises its validation error exactly when
    the percentage is at most 0 or above 1, and [labels_by_neighborhood]
    raises its own exactly when the radius is below 1.  The error is then
    the same for every record (and every sort): nothing of the selection
    is computed before the check.  Each message names its parameter.  With
    a valid parameter, on a record of matching shape, the functions
    return. *)
Theorem validation_errors (argsort : list Q -> list nat)
  (record : pseudo_dict) (percentage : Q) (radius : Z) :
  (labels_by_percentage argsort record percentage = Raise percentage_error
   <-> (percentage <= 0)%Q \/ (1 < percentage)%Q) /\
  (labels_by_neighborhood record radius = Raise radius_error
   <-> (radius < 1)%Z) /\
  ((percentage <= 0)%Q \/ (1 < percentage)%Q ->
   forall argsort' record',
     labels_by_percentage argsort' record' percentage
     = Raise percentage_error) /\
  ((radius < 1)%Z ->
   forall record', labels_by_neighborhood record' radius = Raise radius_error) /\
  (exists msg, percentage_error = ValueError msg /\
               index 0 "percentage" msg = Some 7) /\
  (exists msg, radius_error = ValueError msg /\
               index 0 "radius" msg = Some 7) /\
  (argsort_contract argsort ->
   (Z.of_nat (length (distances record)) < 2 ^ 53)%Z ->
   (0 < percentage)%Q -> (percentage <= 1)%Q ->
   exists selection,
     labels_by_percentage argsort record percentage = Ok selection) /\
  (length (distances record) = (shape record).1 * (shape record).2 ->
   (1 <= radius)%Z ->
   exists selection, labels_by_neighborhood record radius = Ok selection).
Proof.
  assert ((percentage <= 0)%Q \/ (1 < percentage)%Q ->
          forall argsort' record',
            labels_by_percentage argsort' record' percentage
            = Raise percentage_error) as Hp.
  { intros Hbad argsort' record'. unfold labels_by_percentage.
    destruct Hbad as [Hle|Hgt].
    - apply Qle_bool_iff in Hle. by rewrite Hle.
    - apply Qgtb_lt in Hgt. rewrite Hgt. by rewrite orb_true_r. }
  assert ((radius < 1)%Z ->
          forall record',
            labels_by_neighborhood record' radius = Raise radius_error) as Hr.
  { intros Hbad record'. unfold labels_by_neighborhood.
    destruct (Z.ltb_spec radius 1); [reflexivity|lia]. }
  split; [|split; [|split; [exact Hp|split; [exact Hr|split; [|split; [|split]]]]]].
  - split; [|intros Hbad; by apply Hp].
    intros Herr. destruct (Qlt_le_dec 0 percentage) as [Hpos|Hle]; [|by left].
    destruct (Qlt_le_dec 1 percentage) as [Hgt|Hle1]; [by right|].
    by destruct (labels_by_percentage_valid argsort record percentage Hpos Hle1).
  - split; [|intros Hbad; by apply Hr].
    intros Herr. destruct (Z.lt_ge_cases radius 1) as [Hlt|Hge]; [exact Hlt|].
    by destruct (labels_by_neighborhood_valid record radius Hge).
  - eexists. split; reflexivity.
  - eexists. split; reflexivity.
  - intros Hsort Hsmall Hpos Hle1.
    destruct (labels_by_percentage_run argsort Hsort record percentage
                Hpos Hle1 Hsmall) as (pos_n & pos_c & Hrun).
    eexists. apply Hrun.
  - intros Hshape Hrad.
    destruct (spatial_correction_cells _ default_radius
                (label_map_wf record Hshape))
      as (smoothed & Hsc & _); [unfold default_radius; lia|].
    eexists.
    apply (labels_by_neighborhood_run record radius smoothed Hshape Hrad Hsc).
Qed.

(** ** Label building *)

Lemma where_changed_threshold_eq (ds : list Q) (t t' : Q) :
  (t == t')%Q -> where_changed ds t = where_changed ds t'.
Proof.
  intros Heq. unfold where_changed. apply list_fmap_ext. intros _ d _.
  unfold Qgtb. replace (Qle_bool d t') with (Qle_bool d t); [reflexivity|].
  destruct (Qle_bool d t) eqn:Hb; symmetry.
  - apply Qle_bool_iff. apply Qle_bool_iff in Hb. by rewrite <- Heq.
  - destruct (Qle_bool d t') eqn:Hb'; [|reflexivity].
    apply Qle_bool_iff in Hb'. rewrite <- Heq in Hb'.
    apply Qle_bool_iff in Hb'. congruence.
Qed.

Lemma pseudo_labels_labels (image : Type)
  (dist_function : image * image -> list Q) (threshold_otsu : list Q -> Q)
  (first_img second_img : image) :
  pseudo_labels image dist_function threshold_otsu first_img second_img false
  = (inr (where_changed (dist_function (first_img, second_img))
            (threshold_otsu (dist_function (first_img, second_img)))),
     threshold_otsu (dist_function (first_img, second_img))).
Proof. reflexivity. Qed.

(** C7. Label building is elementwise, CHANGED where the distance is above
    the threshold and UNCHANGED elsewhere.  For thresholds [t <= t'] a
    position UNCHANGED under [t] is UNCHANGED under [t'], and a position
    CHANGED under [t'] was CHANGED under [t].  The same threshold, however
    it is written, gives the same label map. *)
Theorem where_changed_monotone (ds : list Q) (t t' : Q) (i : nat) :
  (t <= t')%Q ->
  length (where_changed ds t) = length ds /\
  (i < length ds ->
   where_changed ds t !! i
   = Some (if decide (t < distance_at ds i)%Q then CHANGED_LABEL
           else UNCHANGED_LABEL)) /\
  (where_changed ds t !! i = Some UNCHANGED_LABEL ->
   where_changed ds t' !! i = Some UNCHANGED_LABEL) /\
  (where_changed ds t' !! i = Some CHANGED_LABEL ->
   where_changed ds t !! i = Some CHANGED_LABEL) /\
  ((t == t')%Q -> where_changed ds t = where_changed ds t').
Proof.
  intros Hle. split; [apply where_changed_length|].
  split; [apply where_changed_lookup|].
  assert (i < length ds \/ length ds <= i) as [Hi|Hi] by lia.
  - rewrite !where_changed_lookup by exact Hi. split; [|split].
    + destruct (decide (t < distance_at ds i)%Q) as [Hlt|Hge];
        [discriminate|]. intros _.
      rewrite decide_False; [reflexivity|]. apply Qle_not_lt.
      apply Qnot_lt_le in Hge. by apply Qle_trans with t.
    + destruct (decide (t' < distance_at ds i)%Q) as [Hlt|Hge];
        [|discriminate]. intros _.
      rewrite decide_True; [reflexivity|]. by apply Qle_lt_trans with t'.
    + apply where_changed_threshold_eq.
  - rewrite !lookup_ge_None_2 by (rewrite where_changed_length; exact Hi).
    split; [discriminate|]. split; [discriminate|].
    apply where_changed_threshold_eq.
Qed.

(** ** The most confident positions *)

Lemma StronglySorted_app_elem {X : Type} (R : relation X) (l1 l2 : list X)
  (x y : X) :
  StronglySorted R (l1 ++ l2) -> x ∈ l1 -> y ∈ l2 -> R x y.
Proof.
  induction l1 as [|z l1 IH]; csimpl; intros Hs Hx Hy.
  - by apply elem_of_nil in Hx.
  - apply StronglySorted_inv in Hs as [Hs Hall].
    apply elem_of_cons in Hx as [->|Hx]; [|by apply IH].
    rewrite Forall_forall in Hall. apply Hall. apply elem_of_app. by right.
Qed.

Lemma take_most_confident (R : relation Q) (ds : list Q)
  (pos : list nat) (k i j : nat) :
  Transitive R ->
  Sorted R (distance_at ds <$> pos) ->
  i ∈ take k pos -> j ∈ pos -> j ∉ take k pos ->
  R (distance_at ds i) (distance_at ds j).
Proof.
  intros Htrans Hs Hi Hj Hnj.
  apply Sorted_StronglySorted in Hs; [|assumption].
  rewrite <- (take_drop k pos), fmap_app in Hs.
  rewrite <- (take_drop k pos), elem_of_app in Hj.
  destruct Hj as [Hj|Hj]; [contradiction|].
  eapply StronglySorted_app_elem; [exact Hs|..]; by apply list_elem_of_fmap_2.
Qed.


(** ** The theorems at concrete inputs *)

Lemma spatial_correction_majority_witness :
  wf_array2 tied_grid /\ (1 <= 2)%Z /\ 0 < max_r tied_grid /\
  0 < max_c tied_grid /\
  exists corrected v orig,
    spatial_correction tied_grid 2 = Ok corrected /\
    max_r corrected = max_r tied_grid /\
    max_c corrected = max_c tied_grid /\
    cell corrected (0, 0) = Some v /\
    cell tied_grid (0, 0) = Some orig /\
    kernel tied_grid 2 0 0 = clipped_window tied_grid 2 0 0 /\
    (forall l, dominant l (clipped_window tied_grid 2 0 0) -> v = l) /\
    (top_tie (clipped_window tied_grid 2 0 0) -> v = orig) /\
    ((exists l, dominant l (clipped_window tied_grid 2 0 0))
     \/ top_tie (clipped_window tied_grid 2 0 0)).
Proof.
  assert (wf_array2 tied_grid) as Hwf by reflexivity.
  assert (1 <= 2)%Z as Hrad by lia.
  assert (0 < max_r tied_grid) as Hr by (simpl; lia).
  assert (0 < max_c tied_grid) as Hc by (simpl; lia).
  repeat (split; [assumption|]).
  apply (spatial_correction_majority tied_grid 2 0 0 Hwf Hrad Hr Hc).
Defined.

Lemma spatial_correction_label_from_window_witness :
  wf_array2 tied_grid /\ (1 <= 2)%Z /\
  exists corrected,
    spatial_correction tied_grid 2 = Ok corrected /\
    (forall r c, r < max_r tied_grid -> c < max_c tied_grid ->
       exists v orig,
         cell corrected (r, c) = Some v /\
         cell tied_grid (r, c) = Some orig /\
         v ∈ clipped_window tied_grid 2 r c /\
         orig ∈ clipped_window tied_grid 2 r c) /\
    (forall v, v ∈ cells corrected -> v ∈ cells tied_grid).
Proof.
  assert (wf_array2 tied_grid) as Hwf by reflexivity.
  assert (1 <= 2)%Z as Hrad by lia.
  repeat (split; [assumption|]).
  apply (spatial_correction_label_from_window tied_grid 2 Hwf Hrad).
Defined.

Lemma spatial_correction_radius_one_witness :
  wf_array2 tied_grid /\
  spatial_correction tied_grid 1 = Ok tied_grid /\
  forall r c, r < max_r tied_grid -> c < max_c tied_grid ->
    exists v, cell tied_grid (r, c) = Some v /\
      kernel tied_grid 1 r c = [v] /\
      most_common (Counter (kernel tied_grid 1 r c)) = [(v, 1)].
Proof.
  assert (wf_array2 tied_grid) as Hwf by reflexivity.
  split; [assumption|].
  apply (spatial_correction_radius_one tied_grid Hwf).
Defined.

Lemma labels_by_percentage_stratified_witness :
  argsort_contract insertion_argsort /\
  (0 < 1 # 2)%Q /\ (1 # 2 <= 1)%Q /\
  (Z.of_nat (length (distances scenario)) < 2 ^ 53)%Z /\
  let ds := distances scenario in
  let t := threshold scenario in
  let size_n := length (filter (fun d => (d <= t)%Q) ds) in
  let size_c := length (filter (fun d => (t < d)%Q) ds) in
  exists sel_n sel_c : list nat,
    labels_by_percentage insertion_argsort scenario (1 # 2)
    = Ok (sel_n ++ sel_c,
          replicate (length sel_n) UNCHANGED_LABEL
          ++ replicate (length sel_c) CHANGED_LABEL) /\
    Z.of_nat (length sel_n)
    = Qfloor (Binary64.mul (1 # 2) (Binary64.of_int (Z.of_nat size_n))) /\
    Z.of_nat (length sel_c)
    = Qfloor (Binary64.mul (1 # 2) (Binary64.of_int (Z.of_nat size_c))) /\
    (forall i, i ∈ sel_n -> i < length ds /\ (distance_at ds i <= t)%Q) /\
    (forall i, i ∈ sel_c -> i < length ds /\ (t < distance_at ds i)%Q) /\
    Sorted Qle (distance_at ds <$> sel_n) /\
    Sorted (flip Qle) (distance_at ds <$> sel_c) /\
    ((1 # 2 == 1 # 2)%Q -> size_n = 10 -> size_c = 10 ->
     length sel_n = 5 /\ length sel_c = 5 /\ length (sel_n ++ sel_c) = 10).
Proof.
  assert (0 < 1 # 2)%Q as Hpos by reflexivity.
  assert (1 # 2 <= 1)%Q as Hle by discriminate.
  assert (Z.of_nat (length (distances scenario)) < 2 ^ 53)%Z as Hsmall
    by reflexivity.
  split; [apply insertion_argsort_contract|].
  repeat (split; [assumption|]).
  apply (labels_by_percentage_stratified insertion_argsort scenario (1 # 2)
           insertion_argsort_contract Hpos Hle Hsmall).
Defined.

Lemma selection_result_invariant_witness :
  argsort_contract insertion_argsort /\
  (0 < 1 # 2)%Q /\ (1 # 2 <= 1)%Q /\
  (Z.of_nat (length (distances scenario)) < 2 ^ 53)%Z /\
  length (distances scenario) = (shape scenario).1 * (shape scenario).2 /\
  (1 <= 2)%Z /\
  (exists indices labels,
     labels_by_percentage insertion_argsort scenario (1 # 2)
     = Ok (indices, labels) /\
     length indices = length labels /\ NoDup indices) /\
  (exists indices labels,
     labels_by_neighborhood scenario 2 = Ok (indices, labels) /\
     length indices = length labels /\ NoDup indices).
Proof.
  assert (0 < 1 # 2)%Q as Hpos by reflexivity.
  assert (1 # 2 <= 1)%Q as Hle by discriminate.
  assert (Z.of_nat (length (distances scenario)) < 2 ^ 53)%Z as Hsmall
    by reflexivity.
  assert (length (distances scenario)
          = (shape scenario).1 * (shape scenario).2) as Hshape by reflexivity.
  assert (1 <= 2)%Z as Hrad by lia.
  split; [apply insertion_argsort_contract|].
  repeat (split; [assumption|]).
  apply (selection_result_invariant insertion_argsort scenario (1 # 2) 2
           insertion_argsort_contract Hpos Hle Hsmall Hshape Hrad).
Defined.

Lemma labels_by_percentage_whole_image_witness :
  argsort_contract insertion_argsort /\
  (1 == 1)%Q /\
  (Z.of_nat (length (distances scenario)) < 2 ^ 53)%Z /\
  let ds := distances scenario in
  let t := threshold scenario in
  exists pos_n pos_c : list nat,
    labels_by_percentage insertion_argsort scenario 1
    = Ok (pos_n ++ pos_c,
          replicate (length pos_n) UNCHANGED_LABEL
          ++ replicate (length pos_c) CHANGED_LABEL) /\
    (forall i, i ∈ pos_n <-> i < length ds /\ (distance_at ds i <= t)%Q) /\
    (forall i, i ∈ pos_c <-> i < length ds /\ (t < distance_at ds i)%Q) /\
    pos_n ++ pos_c ≡ₚ seq 0 (length ds) /\
    length (pos_n ++ pos_c) = length ds /\
    Forall2 (fun i l => where_changed ds t !! i = Some l)
            (pos_n ++ pos_c)
            (replicate (length pos_n) UNCHANGED_LABEL
             ++ replicate (length pos_c) CHANGED_LABEL).
Proof.
  assert (1 == 1)%Q as Hone by reflexivity.
  assert (Z.of_nat (length (distances scenario)) < 2 ^ 53)%Z as Hsmall
    by reflexivity.
  split; [apply insertion_argsort_contract|].
  repeat (split; [assumption|]).
  apply (labels_by_percentage_whole_image insertion_argsort scenario 1
           insertion_argsort_contract Hone Hsmall).
Defined.

Lemma where_changed_monotone_witness :
  (1 # 2 <= 3 # 4)%Q /\
  length (where_changed (distances scenario) (1 # 2))
  = length (distances scenario) /\
  (2 < length (distances scenario) ->
   where_changed (distances scenario) (1 # 2) !! 2
   = Some (if decide (1 # 2 < distance_at (distances scenario) 2)%Q
           then CHANGED_LABEL else UNCHANGED_LABEL)) /\
  (where_changed (distances scenario) (1 # 2) !! 2 = Some UNCHANGED_LABEL ->
   where_changed (distances scenario) (3 # 4) !! 2 = Some UNCHANGED_LABEL) /\
  (where_changed (distances scenario) (3 # 4) !! 2 = Some CHANGED_LABEL ->
   where_changed (distances scenario) (1 # 2) !! 2 = Some CHANGED_LABEL) /\
  ((1 # 2 == 3 # 4)%Q ->
   where_changed (distances scenario) (1 # 2)
   = where_changed (distances scenario) (3 # 4)).
Proof.
  assert (1 # 2 <= 3 # 4)%Q as Hle by discriminate.
  split; [assumption|].
  apply (where_changed_monotone (distances scenario) (1 # 2) (3 # 4) 2 Hle).
Defined.

Lemma validation_errors_witness :
  argsort_contract insertion_argsort /\
  (Z.of_nat (length (distances scenario)) < 2 ^ 53)%Z /\
  (0 < 1 # 2)%Q /\ (1 # 2 <= 1)%Q /\
  length (distances scenario) = (shape scenario).1 * (shape scenario).2 /\
  (1 <= 2)%Z /\
  (exists selection,
     labels_by_percentage insertion_argsort scenario (1 # 2) = Ok selection) /\
  (exists selection, labels_by_neighborhood scenario 2 = Ok selection) /\
  labels_by_percentage insertion_argsort scenario 0 = Raise percentage_error /\
  labels_by_neighborhood scenario 0 = Raise radius_error.
Proof.
  assert (0 < 1 # 2)%Q as Hpos by reflexivity.
  assert (1 # 2 <= 1)%Q as Hle by discriminate.
  assert (Z.of_nat (length (distances scenario)) < 2 ^ 53)%Z as Hsmall
    by reflexivity.
  assert (length (distances scenario)
          = (shape scenario).1 * (shape scenario).2) as Hshape by reflexivity.
  assert (1 <= 2)%Z as Hrad by lia.
  split; [apply insertion_argsort_contract|].
  repeat (split; [assumption|]).
  destruct (validation_errors insertion_argsort scenario (1 # 2) 2)
    as (_ & _ & _ & _ & _ & _ & Hp & Hn).
  split; [exact (Hp insertion_argsort_contract Hsmall Hpos Hle)|].
  split; [exact (Hn Hshape Hrad)|].
  destruct (validation_errors insertion_argsort scenario 0 0)
    as (Hp0 & Hn0 & _).
  split.
  - apply Hp0. left. discriminate.
  - apply Hn0. lia.
Defined.

Lemma labels_by_neighborhood_composition_witness :
  length (distances lone_centre)
  = (shape lone_centre).1 * (shape lone_centre).2 /\
  (1 <= 1)%Z /\
  labels_by_neighborhood lone_centre 1
  = selectByNeighborhood lone_centre 1 default_radius /\
  exists smoothed,
    spatial_correction
      (Array2 (shape lone_centre).1 (shape lone_centre).2
         (where_changed (distances lone_centre) (threshold lone_centre)))
      default_radius = Ok smoothed /\
    labels_by_neighborhood lone_centre 1
    = Ok ((select_unanimous smoothed 1).*1, (select_unanimous smoothed 1).*2).
Proof.
  assert (length (distances lone_centre)
          = (shape lone_centre).1 * (shape lone_centre).2) as Hshape
    by reflexivity.
  assert (1 <= 1)%Z as Hrad by lia.
  repeat (split; [assumption|]).
  destruct (labels_by_neighborhood_composition lone_centre 1)
    as (_ & Heq & Hrun).
  split; [exact Heq|exact (Hrun Hshape Hrad)].
Defined.

(** * Further properties *)

(** ** spatial_correction beyond the majority rule *)

Lemma unanimous_alt {A : Type} `{EqDecision A} (w : list A) :
  unanimous w <-> exists x, x ∈ w /\ forall y, y ∈ w -> y = x.
Proof.
  unfold unanimous. split.
  - intros Hlen. destruct (remove_dups w) as [|x [|z k]] eqn:Hrd;
      try discriminate.
    exists x. split.
    + apply elem_of_remove_dups. rewrite Hrd. left.
    + intros y Hy. apply elem_of_remove_dups in Hy. rewrite Hrd in Hy.
      by apply list_elem_of_singleton in Hy.
  - intros (x & Hx & Hall).
    pose proof (NoDup_remove_dups w) as Hnd.
    assert (forall y, y ∈ remove_dups w -> y = x) as Hall'
      by (intros y Hy; by apply Hall, elem_of_remove_dups).
    apply elem_of_remove_dups in Hx.
    destruct (remove_dups w) as [|a [|b k]]; [by apply elem_of_nil in Hx|done|].
    exfalso. apply NoDup_cons in Hnd as [Hab _]. apply Hab.
    rewrite (Hall' a), (Hall' b); [left|right; left|left].
Qed.

Section CorrectionMore.
Context {A : Type} `{EqDecision A}.
Implicit Types a : array2 A.

Lemma clipped_window_cells a (radius : Z) (r c : nat) (v : A) :
  v ∈ clipped_window a radius r c -> v ∈ cells a.
Proof.
  intros (i & j & _ & Hcell)%clipped_window_elem.
  unfold cell in Hcell. by eapply list_elem_of_lookup_2.
Qed.

Lemma cells_eq_lookup a b :
  wf_array2 a -> wf_array2 b ->
  max_r a = max_r b -> max_c a = max_c b ->
  (forall r c, r < max_r a -> c < max_c a -> cell a (r, c) = cell b (r, c)) ->
  a = b.
Proof.
  destruct a as [h w cs], b as [h' w' cs']. unfold wf_array2, cell.
  csimpl. intros Hwf Hwf' <- <- Hcells. f_equal.
  apply list_eq_same_length with (h * w); [assumption..|].
  intros i x y Hi Hx Hy.
  assert (0 < w) as Hpos by nia.
  assert (i / w < h) as Hr by (apply Nat.Div0.div_lt_upper_bound; lia).
  assert (i mod w < w) as Hc by (apply Nat.mod_upper_bound; lia).
  specialize (Hcells _ _ Hr Hc).
  replace (i / w * w + i mod w) with i in Hcells
    by (rewrite (Nat.div_mod_eq i w) at 1; lia).
  congruence.
Qed.

(** X1. A pixel whose window holds a single label keeps that label. *)
Theorem spatial_correction_keeps_unanimous a (radius : Z) (r c : nat) :
  wf_array2 a -> (1 <= radius)%Z -> r < max_r a -> c < max_c a ->
  unanimous (clipped_window a radius r c) ->
  exists corrected v,
    spatial_correction a radius = Ok corrected /\
    cell a (r, c) = Some v /\ cell corrected (r, c) = Some v.
Proof.
  intros Hwf Hrad Hr Hc (x & _ & Hall)%unanimous_alt.
  destruct (spatial_correction_cells a radius Hwf Hrad)
    as (corrected & Hsc & _ & _ & _ & Hcells).
  destruct (Hcells r c Hr Hc) as (v & Hv & Hcc).
  destruct (cell_is_Some a r c Hwf Hr Hc) as [orig Horig].
  destruct (corrected_cell_vote a radius r c orig Hwf Hrad Hr Hc Horig)
    as (v' & Hcc' & Hin & _).
  assert (v' = v) as -> by congruence.
  exists corrected, orig. split; [exact Hsc|]. split; [exact Horig|].
  rewrite Hv. f_equal. rewrite (Hall v Hin). symmetry. apply Hall.
  by apply clipped_window_centre.
Qed.

(** X2. A grid that holds one label everywhere is returned as it is, for
    every radius of one or more. *)
Theorem spatial_correction_uniform a (radius : Z) (x : A) :
  wf_array2 a -> (1 <= radius)%Z ->
  (forall v, v ∈ cells a -> v = x) ->
  spatial_correction a radius = Ok a.
Proof.
  intros Hwf Hrad Hall.
  destruct (spatial_correction_cells a radius Hwf Hrad)
    as (corrected & Hsc & Hmr & Hmc & Hwf' & Hcells).
  rewrite Hsc. f_equal. apply cells_eq_lookup; try assumption.
  rewrite Hmr, Hmc. intros r c Hr Hc.
  destruct (Hcells r c Hr Hc) as (v & Hv & Hcc).
  destruct (cell_is_Some a r c Hwf Hr Hc) as [orig Horig].
  destruct (corrected_cell_vote a radius r c orig Hwf Hrad Hr Hc Horig)
    as (v' & Hcc' & Hin & _).
  assert (v' = v) as -> by congruence.
  rewrite Hv, Horig. f_equal.
  rewrite (Hall v) by (by eapply clipped_window_cells).
  symmetry. apply Hall. unfold cell in Horig.
  by eapply list_elem_of_lookup_2.
Qed.

(** X3. The correction changes a pixel only to the label that is
    strictly more frequent in its window than every other label, the
    pixel's own included. *)
Theorem spatial_correction_changes_to_dominant a (radius : Z) (r c : nat) :
  wf_array2 a -> (1 <= radius)%Z -> r < max_r a -> c < max_c a ->
  exists corrected v orig,
    spatial_correction a radius = Ok corrected /\
    cell a (r, c) = Some orig /\ cell corrected (r, c) = Some v /\
    (v <> orig ->
     dominant v (clipped_window a radius r c) /\
     frequency orig (clipped_window a radius r c)
     < frequency v (clipped_window a radius r c)).
Proof.
  intros Hwf Hrad Hr Hc.
  destruct (spatial_correction_cells a radius Hwf Hrad)
    as (corrected & Hsc & _ & _ & _ & Hcells).
  destruct (Hcells r c Hr Hc) as (v & Hv & Hcc).
  destruct (cell_is_Some a r c Hwf Hr Hc) as [orig Horig].
  destruct (corrected_cell_vote a radius r c orig Hwf Hrad Hr Hc Horig)
    as (v' & Hcc' & _ & Hdom & Htie & Hcases).
  assert (v' = v) as -> by congruence.
  exists corrected, v, orig. repeat (split; [assumption|]).
  intros Hne. destruct Hcases as [[l Hl]|Ht].
  - rewrite (Hdom l Hl) in *. split; [exact Hl|].
    destruct Hl as [_ Hl]. apply Hl. congruence.
  - by destruct (Hne (Htie Ht)).
Qed.
End CorrectionMore.

(** ** spatial_correction outside its domain *)

Lemma traverse_Raise_same {X Y : Type} (f : X -> result Y) (xs : list X)
  (e0 : exn) :
  (exists x, x ∈ xs /\ f x = Raise e0) ->
  (forall x e, x ∈ xs -> f x = Raise e -> e = e0) ->
  traverse f xs = Raise e0.
Proof.
  induction xs as [|x xs IH]; intros (x0 & Hin & Hx0) Hsame.
  - by apply elem_of_nil in Hin.
  - csimpl. destruct (f x) as [y|e] eqn:Hx; csimpl.
    + apply elem_of_cons in Hin as [->|Hin]; [congruence|].
      rewrite IH; [reflexivity|by exists x0|].
      intros x' e Hx' He. apply (Hsame x' e); [by right|exact He].
    + f_equal. apply (Hsame x e); [left|exact Hx].
Qed.

Lemma scan_nil (H W : nat) : H = 0 \/ W = 0 -> scan H W = [].
Proof.
  intros Hz. apply length_zero_iff_nil. rewrite scan_length.
  destruct Hz; subst; lia.
Qed.

Section CorrectionDomain.
Context {A : Type} `{EqDecision A}.
Implicit Types a : array2 A.

Lemma py_slice_from_end {X : Type} (start stop : Z) (l : list X) :
  (Z.of_nat (length l) <= start)%Z -> py_slice start stop l = [].
Proof.
  intros Hs. unfold py_slice.
  assert (slice_bound (length l) start = length l) as ->
    by (unfold slice_bound; destruct (Z.ltb_spec start 0); lia).
  rewrite drop_all. apply take_nil.
Qed.

(** In the last row the kernel of a radius below one is empty. *)
Lemma kernel_last_row_empty a (radius : Z) (c : nat) :
  (radius < 1)%Z -> 0 < max_r a -> kernel a radius (max_r a - 1) c = [].
Proof.
  intros Hrad Hr. unfold kernel, slice2_ravel.
  rewrite py_slice_from_end; [reflexivity|].
  rewrite rows_length. unfold upper_bound. lia.
Qed.

Lemma corrected_cell_error a (radius : Z) (r c : nat) (e : exn) :
  wf_array2 a -> r < max_r a -> c < max_c a ->
  corrected_cell a radius r c = Raise e ->
  e = IndexError "list index out of range"%string.
Proof.
  intros Hwf Hr Hc. unfold corrected_cell.
  destruct (most_common (Counter (kernel a radius r c)))
    as [|[l0 n0] [|[l1 n1] rest]]; [by intros [= <-]|discriminate|].
  destruct (n0 =? n1); [|discriminate].
  rewrite getitem2_cell by assumption.
  by destruct (cell_is_Some a r c Hwf Hr Hc) as [v ->].
Qed.

(** X4. [spatial_correction] does not check its radius: on a grid that
    has a pixel, a radius below one makes it raise IndexError, the window
    of some pixel being empty. *)
Theorem spatial_correction_radius_below_one a (radius : Z) :
  wf_array2 a -> 0 < max_r a -> 0 < max_c a -> (radius < 1)%Z ->
  spatial_correction a radius
  = Raise (IndexError "list index out of range"%string).
Proof.
  intros Hwf Hr Hc Hrad. unfold spatial_correction.
  rewrite (traverse_Raise_same _ _
             (IndexError "list index out of range"%string));
    [reflexivity| |].
  - exists (max_r a - 1, 0). split; [apply elem_of_scan; lia|].
    unfold corrected_cell. by rewrite kernel_last_row_empty.
  - intros [r c] e [Hr' Hc']%elem_of_scan.
    by apply corrected_cell_error.
Qed.

(** X5. A grid without pixels is returned as it is, whatever the
    radius. *)
Theorem spatial_correction_empty a (radius : Z) :
  wf_array2 a -> max_r a = 0 \/ max_c a = 0 ->
  spatial_correction a radius = Ok a.
Proof.
  intros Hwf Hz. unfold spatial_correction. rewrite scan_nil by exact Hz.
  csimpl. destruct a as [h w cs]. unfold wf_array2 in Hwf. csimpl in *.
  assert (cs = []) as ->
    by (apply length_zero_iff_nil; destruct Hz; subst; lia).
  reflexivity.
Qed.
End CorrectionDomain.

(** ** labels_by_neighborhood: radius, order, uniform images *)

Lemma omap_sublist {X Y : Type} (f g : X -> option Y) (l : list X) :
  (forall x y, x ∈ l -> f x = Some y -> g x = Some y) ->
  omap f l `sublist_of` omap g l.
Proof.
  induction l as [|x l IH]; intros Hfg; csimpl; [constructor|].
  assert (omap f l `sublist_of` omap g l) as IH'
    by (apply IH; intros x' y Hx'; apply Hfg; by right).
  destruct (f x) as [y|] eqn:Hx.
  - rewrite (Hfg x y) by (done || left). by constructor.
  - destruct (g x); [by constructor|exact IH'].
Qed.

Lemma omap_total {X Y : Type} (f : X -> option Y) (g : X -> Y) (l : list X) :
  (forall x, x ∈ l -> f x = Some (g x)) -> omap f l = g <$> l.
Proof.
  induction l as [|x l IH]; intros Hf; csimpl; [reflexivity|].
  rewrite (Hf x) by left. csimpl. f_equal. apply IH.
  intros x' Hx'. apply Hf. by right.
Qed.

Lemma sublist_StronglySorted {X : Type} (R : relation X) (l k : list X) :
  l `sublist_of` k -> StronglySorted R k -> StronglySorted R l.
Proof.
  induction 1 as [|x l k Hsub IH|x l k Hsub IH]; intros Hs.
  - constructor.
  - apply StronglySorted_inv in Hs as [Hs Hall]. constructor; [by apply IH|].
    rewrite Forall_forall in *. intros y Hy. apply Hall.
    by eapply elem_of_sublist.
  - apply StronglySorted_inv in Hs as [Hs _]. by apply IH.
Qed.

Lemma seq_StronglySorted (j n : nat) : StronglySorted lt (seq j n).
Proof.
  revert j. induction n as [|n IH]; intros j; csimpl; constructor;
    [apply IH|].
  apply Forall_forall. intros i Hi. apply elem_of_seq in Hi. lia.
Qed.

Lemma clipped_window_mono {A : Type} (a : array2 A) (radius radius' : Z)
  (r c : nat) (v : A) :
  (radius <= radius')%Z ->
  v ∈ clipped_window a radius r c -> v ∈ clipped_window a radius' r c.
Proof.
  intros Hle (i & j & Hpos & Hcell)%clipped_window_elem.
  apply clipped_window_elem. exists i, j. split; [|exact Hcell].
  apply window_positions_elem. apply window_positions_elem in Hpos. lia.
Qed.

Lemma clipped_window_radius_one {A : Type} (a : array2 A) (r c : nat) (v : A) :
  r < max_r a -> c < max_c a -> cell a (r, c) = Some v ->
  clipped_window a 1 r c = [v].
Proof.
  intros Hr Hc Hv. unfold clipped_window, window_positions.
  replace (clip_lo 1 r) with r by (unfold clip_lo; lia).
  replace (clip_hi (max_r a) 1 r) with (S r) by (unfold clip_hi; lia).
  replace (clip_lo 1 c) with c by (unfold clip_lo; lia).
  replace (clip_hi (max_c a) 1 c) with (S c) by (unfold clip_hi; lia).
  replace (S r - r) with 1 by lia. replace (S c - c) with 1 by lia.
  csimpl. by rewrite Hv.
Qed.

(** When every window is unanimous the selection is the whole map. *)
Lemma select_unanimous_all (m : array2 label) (radius : Z) :
  wf_array2 m ->
  (forall r c, r < max_r m -> c < max_c m ->
     unanimous (clipped_window m radius r c)) ->
  (select_unanimous m radius).*1 = seq 0 (max_r m * max_c m) /\
  (select_unanimous m radius).*2 = cells m.
Proof.
  intros Hwf Hall. unfold select_unanimous.
  rewrite (omap_total _ (fun pos => (pos.1 * max_c m + pos.2,
                                     nth (pos.1 * max_c m + pos.2) (cells m)
                                         UNKNOWN_LABEL))).
  - rewrite <- !list_fmap_compose. split; [apply scan_flat|].
    rewrite (list_fmap_compose (fun pos => pos.1 * max_c m + pos.2)
               (fun i => nth i (cells m) UNKNOWN_LABEL)), scan_flat.
    rewrite <- Hwf. apply fmap_nth_seq.
  - intros [r c] [Hr Hc]%elem_of_scan. csimpl.
    rewrite decide_True by (by apply Hall).
    destruct (cell_is_Some m r c Hwf Hr Hc) as [v Hv]. rewrite Hv. csimpl.
    unfold cell in Hv. csimpl in Hv. by rewrite (nth_lookup_Some _ _ _ _ Hv).
Qed.

Lemma corrected_label_map (record : pseudo_dict) :
  length (distances record) = (shape record).1 * (shape record).2 ->
  exists smoothed,
    spatial_correction
      (Array2 (shape record).1 (shape record).2
         (where_changed (distances record) (threshold record)))
      default_radius = Ok smoothed /\
    wf_array2 smoothed /\
    max_r smoothed = (shape record).1 /\ max_c smoothed = (shape record).2.
Proof.
  intros Hlen.
  destruct (spatial_correction_cells _ default_radius
              (label_map_wf record Hlen))
    as (smoothed & Hsc & Hmr & Hmc & Hwf & _); [unfold default_radius; lia|].
  exists smoothed. auto.
Qed.

(** X6. A larger radius never selects a pixel that a smaller one rejects:
    the pairs (index, label) selected with [radius'] are, in order, among
    those selected with [radius], for [1 <= radius <= radius']. *)
Theorem labels_by_neighborhood_radius_monotone (record : pseudo_dict)
  (radius radius' : Z) :
  length (distances record) = (shape record).1 * (shape record).2 ->
  (1 <= radius)%Z -> (radius <= radius')%Z ->
  exists idx labs idx' labs',
    labels_by_neighborhood record radius = Ok (idx, labs) /\
    labels_by_neighborhood record radius' = Ok (idx', labs') /\
    zip idx' labs' `sublist_of` zip idx labs.
Proof.
  intros Hlen Hrad Hle.
  destruct (corrected_label_map record Hlen)
    as (smoothed & Hsc & Hwf & _).
  rewrite (labels_by_neighborhood_run record radius smoothed Hlen Hrad Hsc).
  rewrite (labels_by_neighborhood_run record radius' smoothed Hlen) by
    (lia || exact Hsc).
  eexists _, _, _, _. split; [reflexivity|]. split; [reflexivity|].
  rewrite !zip_fst_snd. unfold select_unanimous. apply omap_sublist.
  intros [r c] y [Hr Hc]%elem_of_scan. csimpl.
  case_decide as Hu'; [|discriminate]. intros Hy.
  rewrite decide_True; [exact Hy|].
  apply unanimous_alt in Hu' as (x & _ & Hall). apply unanimous_alt.
  destruct (cell_is_Some smoothed r c Hwf Hr Hc) as [v Hv].
  assert (v ∈ clipped_window smoothed radius r c) as Hin
    by (by apply clipped_window_centre).
  exists v. split; [exact Hin|]. intros z Hz.
  rewrite (Hall z) by (by eapply clipped_window_mono).
  symmetry. apply Hall. by eapply clipped_window_mono.
Qed.

(** X7. With radius 1 the neighbourhood selection returns every pixel with
    its corrected label: it is the selection that main.py builds for the
    fine tuning on all the pseudo labels. *)
Theorem labels_by_neighborhood_radius_one (record : pseudo_dict) :
  labels_by_neighborhood record 1 = all_pseudo_labels record /\
  (length (distances record) = (shape record).1 * (shape record).2 ->
   exists smoothed,
     spatial_correction
       (Array2 (shape record).1 (shape record).2
          (where_changed (distances record) (threshold record)))
       default_radius = Ok smoothed /\
     labels_by_neighborhood record 1
     = Ok (seq 0 (length (distances record)), cells smoothed)).
Proof.
  assert (length (distances record) = (shape record).1 * (shape record).2 ->
          exists smoothed,
            spatial_correction
              (Array2 (shape record).1 (shape record).2
                 (where_changed (distances record) (threshold record)))
              default_radius = Ok smoothed /\
            labels_by_neighborhood record 1
            = Ok (seq 0 (length (distances record)), cells smoothed)) as Hrun.
  { intros Hlen.
    destruct (corrected_label_map record Hlen)
      as (smoothed & Hsc & Hwf & Hmr & Hmc).
    exists smoothed. split; [exact Hsc|].
    rewrite (labels_by_neighborhood_run record 1 smoothed Hlen) by
      (lia || exact Hsc).
    destruct (select_unanimous_all smoothed 1 Hwf) as [-> ->].
    - intros r c Hr Hc. destruct (cell_is_Some smoothed r c Hwf Hr Hc)
        as [v Hv].
      rewrite (clipped_window_radius_one smoothed r c v Hr Hc Hv).
      reflexivity.
    - by rewrite Hmr, Hmc, Hlen. }
  split; [|exact Hrun].
  destruct (decide (length (distances record)
                    = (shape record).1 * (shape record).2)) as [Hlen|Hlen].
  - destruct (Hrun Hlen) as (smoothed & Hsc & ->).
    unfold all_pseudo_labels, pseudo_truth.
    rewrite np_reshape_Ok by (by rewrite where_changed_length).
    cbn [mbind result_bind]. rewrite Hsc. reflexivity.
  - rewrite labels_by_neighborhood_bad_shape by (assumption || lia).
    unfold all_pseudo_labels, pseudo_truth.
    by rewrite np_reshape_Raise by (by rewrite where_changed_length).
Qed.

(** X8. The indices come out strictly increasing, and each of them is a
    position of the distance array. *)
Theorem labels_by_neighborhood_increasing (record : pseudo_dict) (radius : Z) :
  length (distances record) = (shape record).1 * (shape record).2 ->
  (1 <= radius)%Z ->
  exists idx labs,
    labels_by_neighborhood record radius = Ok (idx, labs) /\
    StronglySorted lt idx /\
    forall i, i ∈ idx -> i < length (distances record).
Proof.
  intros Hlen Hrad.
  destruct (corrected_label_map record Hlen)
    as (smoothed & Hsc & Hwf & Hmr & Hmc).
  rewrite (labels_by_neighborhood_run record radius smoothed Hlen Hrad Hsc).
  eexists _, _. split; [reflexivity|].
  assert ((select_unanimous smoothed radius).*1
            `sublist_of` seq 0 (length (distances record))) as Hsub.
  { rewrite Hlen, <- Hmr, <- Hmc, <- scan_flat.
    apply (omap_fst_sublist _ (fun pos => pos.1 * max_c smoothed + pos.2)).
    intros pos [i v]. case_decide; [|discriminate].
    destruct (cell smoothed pos); [|discriminate]. by intros [= <- _]. }
  split.
  - eapply sublist_StronglySorted; [exact Hsub|apply seq_StronglySorted].
  - intros i Hi. eapply elem_of_sublist in Hi; [|exact Hsub].
    apply elem_of_seq in Hi. lia.
Qed.

Lemma where_changed_uniform (ds : list Q) (t : Q) (l : label) :
  Forall (fun d => (if Qgtb d t then CHANGED_LABEL else UNCHANGED_LABEL) = l)
         ds ->
  where_changed ds t = replicate (length ds) l.
Proof.
  unfold where_changed. induction 1 as [|d ds Hd _ IH]; csimpl;
    [reflexivity|]. by rewrite Hd, IH.
Qed.

Lemma labels_by_neighborhood_constant (record : pseudo_dict) (radius : Z)
  (l : label) :
  length (distances record) = (shape record).1 * (shape record).2 ->
  (1 <= radius)%Z ->
  where_changed (distances record) (threshold record)
  = replicate (length (distances record)) l ->
  labels_by_neighborhood record radius
  = Ok (seq 0 (length (distances record)),
        replicate (length (distances record)) l).
Proof.
  intros Hlen Hrad Hall.
  pose proof (label_map_wf record Hlen) as Hwf.
  set (m := Array2 (shape record).1 (shape record).2
              (where_changed (distances record) (threshold record))) in *.
  assert (forall v, v ∈ cells m -> v = l) as Hcells.
  { intros v Hv. unfold m in Hv. cbn [cells] in Hv. rewrite Hall in Hv.
    by apply elem_of_replicate in Hv as [-> _]. }
  assert (spatial_correction m default_radius = Ok m) as Hsc
    by (apply (spatial_correction_uniform m default_radius l);
        [exact Hwf|unfold default_radius; lia|exact Hcells]).
  rewrite (labels_by_neighborhood_run record radius m Hlen Hrad Hsc).
  destruct (select_unanimous_all m radius Hwf) as [-> ->].
  - intros r c Hr Hc. apply unanimous_alt.
    destruct (cell_is_Some m r c Hwf Hr Hc) as [v Hv]. exists v. split.
    + by apply clipped_window_centre.
    + intros y Hy%clipped_window_cells%Hcells. subst y. symmetry.
      apply Hcells. unfold cell in Hv. by eapply list_elem_of_lookup_2.
  - unfold m. cbn [max_r max_c cells]. by rewrite <- Hlen, Hall.
Qed.

(** X9. On an image where no distance is above the threshold, or where
    every distance is, nothing is corrected and nothing is excluded: the
    selection is every position, in order, with the one label. *)
Theorem labels_by_neighborhood_uniform (record : pseudo_dict) (radius : Z) :
  length (distances record) = (shape record).1 * (shape record).2 ->
  (1 <= radius)%Z ->
  let ds := distances record in
  let t := threshold record in
  (Forall (fun d => (d <= t)%Q) ds ->
   labels_by_neighborhood record radius
   = Ok (seq 0 (length ds), replicate (length ds) UNCHANGED_LABEL)) /\
  (Forall (fun d => (t < d)%Q) ds ->
   labels_by_neighborhood record radius
   = Ok (seq 0 (length ds), replicate (length ds) CHANGED_LABEL)).
Proof.
  intros Hlen Hrad ds t. split; intros Hall;
    apply labels_by_neighborhood_constant; try assumption;
    apply where_changed_uniform; fold ds t;
    eapply Forall_impl; [exact Hall| |exact Hall|]; intros d Hd; csimpl.
  - destruct (Qgtb d t) eqn:Hgt; [|reflexivity].
    apply Qgtb_lt in Hgt. exfalso. by apply (Qlt_not_le _ _ Hgt).
  - destruct (Qgtb d t) eqn:Hgt; [reflexivity|].
    apply Qgtb_lt in Hd. congruence.
Qed.

(** ** labels_by_percentage: counts and positions *)

(** X10. The number of positions taken in a class is the integer part of
    the exact product [percentage * size], or one more when the binary64
    product is rounded up to the next integer; it never exceeds the size of
    the class, and it is exact when the product is an integer. *)
Theorem labels_by_percentage_count (argsort : list Q -> list nat)
  (record : pseudo_dict) (percentage : Q) :
  argsort_contract argsort ->
  (0 < percentage)%Q -> (percentage <= 1)%Q ->
  (Z.of_nat (length (distances record)) < 2 ^ 53)%Z ->
  let ds := distances record in
  let t := threshold record in
  let size_n := length (filter (fun d => (d <= t)%Q) ds) in
  let size_c := length (filter (fun d => (t < d)%Q) ds) in
  exists sel_n sel_c : list nat,
    labels_by_percentage argsort record percentage
    = Ok (sel_n ++ sel_c,
          replicate (length sel_n) UNCHANGED_LABEL
          ++ replicate (length sel_c) CHANGED_LABEL) /\
    (Qfloor (percentage * inject_Z (Z.of_nat size_n))
     <= Z.of_nat (length sel_n)
     <= Qfloor (percentage * inject_Z (Z.of_nat size_n)) + 1)%Z /\
    (Qfloor (percentage * inject_Z (Z.of_nat size_c))
     <= Z.of_nat (length sel_c)
     <= Qfloor (percentage * inject_Z (Z.of_nat size_c)) + 1)%Z /\
    length sel_n <= size_n /\ length sel_c <= size_c /\
    (forall k : Z, (percentage * inject_Z (Z.of_nat size_n) == inject_Z k)%Q ->
                   Z.of_nat (length sel_n) = k) /\
    (forall k : Z, (percentage * inject_Z (Z.of_nat size_c) == inject_Z k)%Q ->
                   Z.of_nat (length sel_c) = k).
Proof.
  intros Hsort Hpos Hle Hsmall ds t size_n size_c.
  destruct (labels_by_percentage_run argsort Hsort record percentage
              Hpos Hle Hsmall)
    as (pos_n & pos_c & Hpn & Hpc & _ & _ & Hkn & Hkc & Hrun).
  fold ds t in Hpn, Hpc. fold ds in Hsmall.
  assert (length pos_n = size_n) as Hln
    by (rewrite (Permutation_length Hpn); apply class_le_length).
  assert (length pos_c = size_c) as Hlc
    by (rewrite (Permutation_length Hpc); apply class_gt_length).
  assert (size_n <= length ds) as Hsn_le by apply length_filter.
  assert (size_c <= length ds) as Hsc_le by apply length_filter.
  assert (Z.of_nat size_n < 2 ^ Binary64.prec)%Z as Hsmall_n
    by (change Binary64.prec with 53%Z; lia).
  assert (Z.of_nat size_c < 2 ^ Binary64.prec)%Z as Hsmall_c
    by (change Binary64.prec with 53%Z; lia).
  rewrite Hln in Hkn. rewrite Hlc in Hkc. rewrite Hln, Hlc in Hrun.
  set (kn := int_percentage percentage size_n) in *.
  set (kc := int_percentage percentage size_c) in *.
  assert (length (take (Z.to_nat kn) pos_n) = Z.to_nat kn) as Htn
    by (rewrite length_take; lia).
  assert (length (take (Z.to_nat kc) pos_c) = Z.to_nat kc) as Htc
    by (rewrite length_take; lia).
  exists (take (Z.to_nat kn) pos_n), (take (Z.to_nat kc) pos_c).
  rewrite Htn, Htc, !Z2Nat.id by lia.
  split; [exact Hrun|].
  split; [apply int_percentage_exact_product; assumption|].
  split; [apply int_percentage_exact_product; assumption|].
  split; [lia|]. split; [lia|].
  split; intros k Hk; apply int_percentage_integer; assumption.
Qed.

Lemma class_positions_disjoint (ds : list Q) (t : Q) (i : nat) :
  i ∈ nonzero ((fun d => Qle_bool d t) <$> ds) ->
  i ∈ nonzero ((fun d => Qgtb d t) <$> ds) -> False.
Proof.
  intros [_ Hle]%nonzero_class_le [_ Hgt]%nonzero_class_gt.
  by apply (Qlt_not_le _ _ Hgt).
Qed.

(** X11. No position is returned twice, and each one comes with the label
    that the threshold gives to its distance. *)
Theorem labels_by_percentage_positions (argsort : list Q -> list nat)
  (record : pseudo_dict) (percentage : Q) :
  argsort_contract argsort ->
  (0 < percentage)%Q -> (percentage <= 1)%Q ->
  (Z.of_nat (length (distances record)) < 2 ^ 53)%Z ->
  exists idx labs,
    labels_by_percentage argsort record percentage = Ok (idx, labs) /\
    NoDup idx /\
    Forall2 (fun i l =>
               where_changed (distances record) (threshold record) !! i
               = Some l) idx labs.
Proof.
  intros Hsort Hpos Hle Hsmall.
  destruct (labels_by_percentage_run argsort Hsort record percentage
              Hpos Hle Hsmall)
    as (pos_n & pos_c & Hpn & Hpc & _ & _ & Hkn & Hkc & Hrun).
  cbv zeta in Hpn, Hpc, Hrun.
  set (ds := distances record) in *. set (t := threshold record) in *.
  set (kn := Z.to_nat (int_percentage percentage (length pos_n))) in *.
  set (kc := Z.to_nat (int_percentage percentage (length pos_c))) in *.
  eexists _, _. split; [exact Hrun|]. split.
  - apply NoDup_app. split; [|split].
    + apply (sublist_NoDup (take kn pos_n) pos_n); [|apply sublist_take].
      rewrite Hpn. apply nonzero_from_NoDup.
    + intros i Hi%subseteq_take Hi'%subseteq_take.
      rewrite Hpn in Hi. rewrite Hpc in Hi'.
      by apply (class_positions_disjoint ds t i).
    + apply (sublist_NoDup (take kc pos_c) pos_c); [|apply sublist_take].
      rewrite Hpc. apply nonzero_from_NoDup.
  - apply Forall2_app.
    + replace kn with (length (take kn pos_n)) at 2
        by (rewrite length_take; lia).
      apply Forall2_replicate_r.
      apply Forall_forall. intros i Hi%subseteq_take.
      rewrite Hpn in Hi. apply nonzero_class_le in Hi as [Hi Hd].
      rewrite where_changed_lookup by exact Hi.
      rewrite decide_False; [reflexivity|]. by apply Qle_not_lt.
    + replace kc with (length (take kc pos_c)) at 2
        by (rewrite length_take; lia).
      apply Forall2_replicate_r.
      apply Forall_forall. intros i Hi%subseteq_take.
      rewrite Hpc in Hi. apply nonzero_class_gt in Hi as [Hi Hd].
      rewrite where_changed_lookup by exact Hi.
      by rewrite decide_True.
Qed.

(** ** Binary64 rounding is monotone *)

Module Binary64Order.
Import Binary64 Binary64Facts.
Local Open Scope Q_scope.

Lemma pow2_plus (a b : Z) : pow2 (a + b) == pow2 a * pow2 b.
Proof. unfold pow2. apply Qpower_plus. exact two_neq_0. Qed.

Lemma pow2_le (a b : Z) : (a <= b)%Z -> pow2 a <= pow2 b.
Proof. intros Hab. apply Qpower_le_compat_l; [exact Hab|discriminate]. Qed.

Lemma pow2_neq_0 (e : Z) : ~ pow2 e == 0.
Proof. pose proof (pow2_pos e). lra. Qed.

Lemma Qabs_pos_eq (x : Q) : 0 < x -> Qabs x = x.
Proof.
  destruct x as [a b]. unfold Qlt. cbn. intros Ha.
  rewrite Z.abs_eq by lia. reflexivity.
Qed.

(** [x < 2 ^ (ilog2 x + 1)] *)
Lemma ilog2_upper (x : Q) : 0 < x -> x < pow2 (ilog2 x + 1).
Proof.
  intros Hx. unfold ilog2.
  set (d := (Z.log2 (Qnum x) - Z.log2 (Zpos (Qden x)))%Z).
  assert (x < pow2 (d + 1)) as Hd.
  { subst d. destruct x as [a b]. cbn [Qnum Qden].
    assert (0 < a)%Z as Ha by (unfold Qlt in Hx; simpl in Hx; lia).
    destruct (Z.log2_spec a Ha) as [_ Hla].
    destruct (Z.log2_spec (Zpos b)) as [Hlb _]; [lia|].
    pose proof (Z.log2_nonneg a) as Hna.
    pose proof (Z.log2_nonneg (Zpos b)) as Hnb.
    replace (Z.log2 a - Z.log2 (Z.pos b) + 1)%Z
      with (Z.succ (Z.log2 a) + - Z.log2 (Z.pos b))%Z by lia.
    rewrite pow2_plus.
    assert (pow2 (- Z.log2 (Z.pos b)) * pow2 (Z.log2 (Z.pos b)) == 1)
      as Hinv.
    { rewrite <- pow2_plus.
      replace (- Z.log2 (Z.pos b) + Z.log2 (Z.pos b))%Z with 0%Z by lia.
      reflexivity. }
    pose proof (pow2_pos (Z.log2 (Z.pos b))) as Hpb.
    pose proof (pow2_pos (- Z.log2 (Z.pos b))) as Hpnb.
    assert (inject_Z a < pow2 (Z.succ (Z.log2 a))) as Hqa
      by (rewrite pow2_inject by lia; rewrite <- Zlt_Qlt; exact Hla).
    assert (pow2 (Z.log2 (Z.pos b)) <= inject_Z (Z.pos b)) as Hqb
      by (rewrite pow2_inject by lia; rewrite <- Zle_Qle; exact Hlb).
    pose proof (Qmake_mult_den a b) as Hab.
    assert (0 < a # b) as Hxq by exact Hx.
    apply (Qmult_lt_r _ _ (pow2 (Z.log2 (Z.pos b)))); [exact Hpb|].
    rewrite <- Qmult_assoc, Hinv, Qmult_1_r.
    eapply Qle_lt_trans; [|exact Hqa]. rewrite <- Hab.
    apply Qmult_le_l; assumption. }
  destruct (Qle_bool (pow2 d) x) eqn:Hb; [exact Hd|].
  replace (d - 1 + 1)%Z with d by lia.
  apply Qnot_le_lt. intros Hle. apply Qle_bool_iff in Hle. congruence.
Qed.

Lemma ilog2_mono (x y : Q) : 0 < x -> x <= y -> (ilog2 x <= ilog2 y)%Z.
Proof.
  intros Hx Hxy.
  assert (ilog2 x < ilog2 y + 1)%Z; [|lia].
  apply ilog2_lt; [exact Hx|].
  eapply Qle_lt_trans; [exact Hxy|]. apply ilog2_upper. lra.
Qed.

Lemma rne_mono (y y' : Q) : y <= y' -> (rne y <= rne y')%Z.
Proof.
  intros Hy. pose proof (Qfloor_resp_le _ _ Hy) as Hf.
  pose proof (Qfloor_le y) as Hl. pose proof (Qlt_floor y) as Hu.
  pose proof (Qfloor_le y') as Hl'. pose proof (Qlt_floor y') as Hu'.
  unfold rne.
  destruct (Z.eq_dec (Qfloor y) (Qfloor y')) as [Heq|Hne].
  - rewrite <- Heq in *.
    destruct (Qcompare_spec (y - inject_Z (Qfloor y)) (1 # 2)) as [H1|H1|H1];
      destruct (Qcompare_spec (y' - inject_Z (Qfloor y)) (1 # 2))
        as [H2|H2|H2];
      try lra; try lia; destruct (Z.even (Qfloor y)); lia.
  - assert (Qfloor y + 1 <= Qfloor y')%Z as Hlt by lia.
    destruct (y - inject_Z (Qfloor y) ?= 1 # 2);
      destruct (y' - inject_Z (Qfloor y') ?= 1 # 2);
      try destruct (Z.even (Qfloor y)); try destruct (Z.even (Qfloor y'));
      lia.
Qed.

Lemma round_pos (x : Q) :
  0 < x -> round x = inject_Z (rne (x / pow2 (binary64_scale x))) * pow2 (binary64_scale x).
Proof.
  intros Hx. unfold round, binary64_scale.
  destruct (Qeq_bool x 0) eqn:Hz; [apply Qeq_bool_iff in Hz; lra|].
  by rewrite Qabs_pos_eq.
Qed.

Lemma round_mono (x x' : Q) :
  0 <= x -> x <= x' -> x' < pow2 prec -> round x <= round x'.
Proof.
  intros Hx Hxx Hlt.
  destruct (Qeq_bool x 0) eqn:Hz.
  { assert (round x = 0) as -> by (unfold round; by rewrite Hz).
    apply Qeq_bool_iff in Hz.
    apply (round_ge x' 0); [lra|exact Hlt|]. change (inject_Z 0) with 0. lra. }
  apply Qeq_bool_neq in Hz.
  assert (0 < x) as Hpos by (apply Qlt_leneq; split; [lra|]; intros H0;
                             apply Hz; rewrite H0; reflexivity).
  assert (0 < x') as Hpos' by lra.
  rewrite (round_pos x Hpos), (round_pos x' Hpos').
  pose proof (ilog2_mono x x' Hpos Hxx) as Hlog.
  pose proof (pow2_pos (binary64_scale x)) as Hpe.
  pose proof (pow2_pos (binary64_scale x')) as Hpe'.
  destruct (Z.eq_dec (binary64_scale x) (binary64_scale x')) as [Heq|Hne].
  - rewrite <- Heq. apply Qmult_le_compat_r; [|lra].
    rewrite <- Zle_Qle. apply rne_mono.
    apply Qle_shift_div_l; [exact Hpe|].
    rewrite Qmult_comm, Qmult_div_r by apply pow2_neq_0. exact Hxx.
  - assert (binary64_scale x < binary64_scale x')%Z as Hsc
      by (unfold binary64_scale in *; lia).
    set (L := ilog2 x').
    assert (binary64_scale x' = L - (prec - 1))%Z as He'
      by (unfold binary64_scale in *; fold L; lia).
    assert (ilog2 x + 1 <= L)%Z as HL by (unfold binary64_scale in *; lia).
    assert (x <= pow2 L) as HxL.
    { apply Qlt_le_weak. eapply Qlt_le_trans; [apply ilog2_upper, Hpos|].
      by apply pow2_le. }
    assert (pow2 L <= x') as HLx by (apply ilog2_le, Hpos').
    apply Qle_trans with (pow2 L).
    + assert (0 <= L - binary64_scale x)%Z as Hnn by (unfold prec in *; lia).
      assert (pow2 L == inject_Z (2 ^ (L - binary64_scale x)) * pow2 (binary64_scale x)) as ->.
      { rewrite <- pow2_inject by exact Hnn. rewrite <- pow2_plus.
        replace (L - binary64_scale x + binary64_scale x)%Z with L by lia. reflexivity. }
      apply Qmult_le_compat_r; [|lra]. rewrite <- Zle_Qle. apply rne_le.
      apply Qle_shift_div_r; [exact Hpe|].
      rewrite <- pow2_inject by exact Hnn. rewrite <- pow2_plus.
      replace (L - binary64_scale x + binary64_scale x)%Z with L by lia. exact HxL.
    + assert (pow2 L == inject_Z (2 ^ (prec - 1)) * pow2 (binary64_scale x')) as ->.
      { rewrite <- pow2_inject by (unfold prec; lia). rewrite <- pow2_plus.
        replace (prec - 1 + binary64_scale x')%Z with L by lia. reflexivity. }
      apply Qmult_le_compat_r; [|lra]. rewrite <- Zle_Qle. apply rne_ge.
      apply Qle_shift_div_l; [exact Hpe'|].
      rewrite <- pow2_inject by (unfold prec; lia). rewrite <- pow2_plus.
      replace (prec - 1 + binary64_scale x')%Z with L by lia. exact HLx.
Qed.

End Binary64Order.

Lemma int_percentage_mono (p p' : Q) (n : nat) :
  (0 < p)%Q -> (p <= p')%Q -> (p' <= 1)%Q ->
  (Z.of_nat n < 2 ^ Binary64.prec)%Z ->
  (int_percentage p n <= int_percentage p' n)%Z.
Proof.
  intros Hpos Hpp Hle Hn.
  assert (0 < p')%Q as Hpos' by lra. assert (p <= 1)%Q as Hle1 by lra.
  rewrite !int_percentage_floor by assumption.
  apply Qfloor_resp_le. unfold Binary64.mul.
  destruct (product_range p n Hpos Hle1 Hn) as (H0 & _ & _).
  destruct (product_range p' n Hpos' Hle Hn) as (_ & _ & H2).
  apply Binary64Order.round_mono; [exact H0| |exact H2].
  assert (0 <= Binary64.of_int (Z.of_nat n))%Q as Hn0.
  { rewrite Binary64Facts.of_int_exact by lia. rewrite <- (Zle_Qle 0). lia. }
  apply Qmult_le_compat_r; assumption.
Qed.

Lemma take_le_app {X : Type} (l : list X) (k k' : nat) :
  k <= k' -> take k' l = take k l ++ drop k (take k' l).
Proof.
  intros Hk. rewrite <- (take_drop k (take k' l)) at 1.
  by rewrite take_take, Nat.min_l.
Qed.

(** X12. Raising the percentage only adds positions: in each class the
    positions selected with [percentage] open the list of those selected
    with a larger [percentage'], in the same order. *)
Theorem labels_by_percentage_monotone (argsort : list Q -> list nat)
  (record : pseudo_dict) (percentage percentage' : Q) :
  argsort_contract argsort ->
  (0 < percentage)%Q -> (percentage <= percentage')%Q ->
  (percentage' <= 1)%Q ->
  (Z.of_nat (length (distances record)) < 2 ^ 53)%Z ->
  exists sel_n sel_c more_n more_c labs labs',
    labels_by_percentage argsort record percentage
    = Ok (sel_n ++ sel_c, labs) /\
    labels_by_percentage argsort record percentage'
    = Ok ((sel_n ++ more_n) ++ (sel_c ++ more_c), labs') /\
    (forall i, i ∈ sel_n ++ more_n ->
               (distance_at (distances record) i <= threshold record)%Q) /\
    (forall i, i ∈ sel_c ++ more_c ->
               (threshold record < distance_at (distances record) i)%Q).
Proof.
  intros Hsort Hpos Hpp Hle Hsmall.
  assert (0 < percentage')%Q as Hpos' by lra.
  assert (percentage <= 1)%Q as Hle1 by lra.
  unfold labels_by_percentage.
  assert (forall q, (0 < q)%Q -> (q <= 1)%Q ->
                    Qle_bool q 0 || Qgtb q 1 = false) as Hvalid.
  { intros q Hq0 Hq1. apply orb_false_iff. split.
    - destruct (Qle_bool q 0) eqn:Hb; [|reflexivity].
      apply Qle_bool_iff in Hb. lra.
    - unfold Qgtb. apply negb_false_iff. by apply Qle_bool_iff. }
  rewrite !Hvalid by assumption.
  set (ds := distances record). set (t := threshold record).
  set (N := nonzero ((fun d => Qle_bool d t) <$> ds)).
  set (C := nonzero ((fun d => Qgtb d t) <$> ds)).
  assert (forall i, i ∈ N -> i < length ds) as HN.
  { intros i (x & Hx & _)%nonzero_elem. by eapply lookup_lt_Some. }
  assert (forall i, i ∈ C -> i < length ds) as HC.
  { intros i (x & Hx & _)%nonzero_elem. by eapply lookup_lt_Some. }
  rewrite (fancy_nth ds N 0%Q HN), (fancy_nth ds C 0%Q HC).
  cbn [mbind result_bind].
  destruct (class_sorted argsort Hsort ds id N _ (eq_sym (list_fmap_id _)))
    as (pos_n & Hpn & _ & ->).
  destruct (class_sorted argsort Hsort ds Qopp C _ eq_refl)
    as (pos_c & Hpc & _ & ->).
  cbn [mbind result_bind]. rewrite !length_fmap.
  pose proof (Permutation_length Hpn) as Hln.
  pose proof (Permutation_length Hpc) as Hlc.
  assert (length N <= length ds) as HlenN
    by (unfold N; rewrite class_le_length; apply length_filter).
  assert (length C <= length ds) as HlenC
    by (unfold C; rewrite class_gt_length; apply length_filter).
  fold ds in Hsmall.
  assert (Z.of_nat (length pos_n) < 2 ^ Binary64.prec)%Z as Hsn
    by (change Binary64.prec with 53%Z; lia).
  assert (Z.of_nat (length pos_c) < 2 ^ Binary64.prec)%Z as Hsc
    by (change Binary64.prec with 53%Z; lia).
  pose proof (int_percentage_bounds percentage (length pos_n) Hpos Hle1 Hsn)
    as Hkn.
  pose proof (int_percentage_bounds percentage (length pos_c) Hpos Hle1 Hsc)
    as Hkc.
  pose proof (int_percentage_bounds percentage' (length pos_n) Hpos' Hle Hsn)
    as Hkn'.
  pose proof (int_percentage_bounds percentage' (length pos_c) Hpos' Hle Hsc)
    as Hkc'.
  pose proof (int_percentage_mono percentage percentage' (length pos_n)
                Hpos Hpp Hle Hsn) as Hmn.
  pose proof (int_percentage_mono percentage percentage' (length pos_c)
                Hpos Hpp Hle Hsc) as Hmc.
  set (kn := int_percentage percentage (length pos_n)) in *.
  set (kc := int_percentage percentage (length pos_c)) in *.
  set (kn' := int_percentage percentage' (length pos_n)) in *.
  set (kc' := int_percentage percentage' (length pos_c)) in *.
  rewrite !np_full_Ok by lia. cbn [mbind result_bind].
  rewrite !py_slice_take by (rewrite length_fmap; lia).
  rewrite <- !fmap_take, <- !list_fmap_compose.
  exists (take (Z.to_nat kn) pos_n), (take (Z.to_nat kc) pos_c),
    (drop (Z.to_nat kn) (take (Z.to_nat kn') pos_n)),
    (drop (Z.to_nat kc) (take (Z.to_nat kc') pos_c)).
  eexists _, _.
  rewrite <- (take_le_app pos_n (Z.to_nat kn) (Z.to_nat kn')) by lia.
  rewrite <- (take_le_app pos_c (Z.to_nat kc) (Z.to_nat kc')) by lia.
  assert (forall l : list nat,
            snd ∘ (fun i => (distance_at ds i, i)) <$> l = l) as Hid
    by (intros l; exact (list_fmap_id l)).
  rewrite !Hid. split; [reflexivity|]. split; [reflexivity|].
  fold ds t. split.
  - intros i Hi%subseteq_take. rewrite Hpn in Hi.
    by apply nonzero_class_le in Hi as [_ Hi].
  - intros i Hi%subseteq_take. rewrite Hpc in Hi.
    by apply nonzero_class_gt in Hi as [_ Hi].
Qed.

(** ** The dictionary of clusters of main.py *)

Lemma nonzero_from_sublist (j : nat) (mask : list bool) :
  nonzero_from j mask `sublist_of` seq j (length mask).
Proof.
  revert j. induction mask as [|b mask IH]; intros j; csimpl; [constructor|].
  destruct b; constructor; apply IH.
Qed.

Lemma nonzero_increasing (mask : list bool) : StronglySorted lt (nonzero mask).
Proof.
  eapply sublist_StronglySorted;
    [apply nonzero_from_sublist|apply seq_StronglySorted].
Qed.

Lemma cluster_members_elem (clusters : list nat) (clu i : nat) :
  i ∈ cluster_members clusters clu <-> clusters !! i = Some clu.
Proof.
  unfold cluster_members. rewrite nonzero_elem. split.
  - intros (x & Hx & Hb). apply bool_decide_eq_true in Hb. by subst x.
  - intros Hi. exists clu. split; [exact Hi|]. by apply bool_decide_eq_true.
Qed.

Lemma clusters_dict_lookup (clusters : list nat) (k clu : nat) :
  clusters_dict clusters k !! clu
  = if decide (clu < k) then Some (cluster_members clusters clu) else None.
Proof.
  unfold clusters_dict. induction k as [|k IH].
  - csimpl. by rewrite lookup_empty.
  - rewrite seq_S, foldl_snoc. csimpl.
    destruct (decide (clu = k)) as [->|Hne].
    + rewrite lookup_insert_eq. by rewrite decide_True by lia.
    + rewrite lookup_insert_ne by congruence. rewrite IH.
      destruct (decide (clu < k)), (decide (clu < S k)); (reflexivity || lia).
Qed.

(** X13. The dictionary has one entry for each cluster number below [k],
    clusters without pixels included, and none for the others.  The entry
    of a cluster lists, in increasing order, the positions of the pixels
    predicted in it; no position is in two entries. *)
Theorem clusters_dict_entries (clusters : list nat) (k : nat) :
  let d := clusters_dict clusters k in
  (forall clu, is_Some (d !! clu) <-> clu < k) /\
  (forall clu l, d !! clu = Some l ->
     StronglySorted lt l /\
     forall i, i ∈ l <-> clusters !! i = Some clu) /\
  (forall clu, clu < k -> clu ∉ clusters -> d !! clu = Some []) /\
  (forall clu clu' l l' i,
     d !! clu = Some l -> d !! clu' = Some l' -> i ∈ l -> i ∈ l' ->
     clu = clu').
Proof.
  intros d. unfold d.
  assert (forall clu l, clusters_dict clusters k !! clu = Some l ->
                        l = cluster_members clusters clu) as Hl.
  { intros clu l. rewrite clusters_dict_lookup.
    case_decide; [|discriminate]. by intros [= <-]. }
  split; [|split; [|split]].
  - intros clu. rewrite clusters_dict_lookup.
    case_decide; split; intros Hx; try lia; [by eexists|].
    by destruct Hx.
  - intros clu l ->%Hl. split; [apply nonzero_increasing|].
    intros i. apply cluster_members_elem.
  - intros clu Hclu Hnot. rewrite clusters_dict_lookup, decide_True by exact Hclu.
    f_equal. destruct (cluster_members clusters clu) as [|i l] eqn:Hm; [reflexivity|].
    exfalso. apply Hnot. apply (list_elem_of_lookup_2 _ i).
    apply cluster_members_elem. rewrite Hm. left.
  - intros clu clu' l l' i ->%Hl ->%Hl Hi%cluster_members_elem Hi'%cluster_members_elem.
    congruence.
Qed.

(** X14. When every predicted cluster number is below [k], the entries
    share out the positions of the pixels: each position is in the entry
    of its cluster, and the entries put together are a rearrangement of
    [0 .. n-1]. *)
Theorem clusters_dict_partition (clusters : list nat) (k : nat) :
  Forall (fun c => c < k) clusters ->
  let d := clusters_dict clusters k in
  (forall i, i < length clusters ->
     exists clu l, clusters !! i = Some clu /\ d !! clu = Some l /\ i ∈ l) /\
  (seq 0 k ≫= fun clu => default [] (d !! clu))
  ≡ₚ seq 0 (length clusters).
Proof.
  intros Hall d. unfold d. rewrite Forall_forall in Hall. split.
  - intros i Hi. destruct (lookup_lt_is_Some_2 clusters i Hi) as [clu Hclu].
    exists clu, (cluster_members clusters clu). split; [exact Hclu|].
    rewrite clusters_dict_lookup, decide_True.
    + split; [reflexivity|]. by apply cluster_members_elem.
    + apply Hall. by eapply list_elem_of_lookup_2.
  - assert (forall clu, clu ∈ seq 0 k ->
              default [] (clusters_dict clusters k !! clu)
              = cluster_members clusters clu) as Hd.
    { intros clu Hclu%elem_of_seq. rewrite clusters_dict_lookup.
      by rewrite decide_True by lia. }
    apply NoDup_Permutation.
    + apply NoDup_bind.
      * intros c1 c2 i Hc1 Hc2. rewrite !Hd by assumption.
        intros H1%cluster_members_elem H2%cluster_members_elem. congruence.
      * intros clu Hclu. rewrite Hd by exact Hclu. apply nonzero_from_NoDup.
      * apply NoDup_seq.
    + apply NoDup_seq.
    + intros i. rewrite list_elem_of_bind, elem_of_seq. split.
      * intros (clu & Hi & Hclu). rewrite Hd in Hi by exact Hclu.
        apply cluster_members_elem, lookup_lt_Some in Hi. lia.
      * intros [_ Hi].
        destruct (lookup_lt_is_Some_2 clusters i Hi) as [clu Hclu].
        assert (clu ∈ seq 0 k) as Hin.
        { apply elem_of_seq. split; [lia|]. apply Hall.
          by eapply list_elem_of_lookup_2. }
        exists clu. split; [|exact Hin]. rewrite Hd by exact Hin.
        by apply cluster_members_elem.
Qed.

(** ** The masked map of plot_maps *)

Lemma foldl_insert_length {X P : Type} (f : P -> nat) (v : X)
  (idx : list P) (cs : list X) :
  length (foldl (fun cs pos => <[f pos := v]> cs) cs idx) = length cs.
Proof.
  revert cs. induction idx as [|pos idx IH]; intros cs; csimpl;
    [reflexivity|]. by rewrite IH, length_insert.
Qed.

Lemma foldl_insert_other {X P : Type} (f : P -> nat) (v : X)
  (idx : list P) (cs : list X) (j : nat) :
  j ∉ f <$> idx ->
  foldl (fun cs pos => <[f pos := v]> cs) cs idx !! j = cs !! j.
Proof.
  revert cs. induction idx as [|pos idx IH]; intros cs Hj; csimpl;
    [reflexivity|].
  csimpl in Hj. apply not_elem_of_cons in Hj as [Hne Hj].
  rewrite IH by exact Hj. apply list_lookup_insert_ne. congruence.
Qed.

Lemma foldl_insert_hit {X P : Type} (f : P -> nat) (v : X)
  (idx : list P) (cs : list X) (j : nat) :
  j ∈ f <$> idx -> j < length cs ->
  foldl (fun cs pos => <[f pos := v]> cs) cs idx !! j = Some v.
Proof.
  revert cs. induction idx as [|pos idx IH]; intros cs Hj Hlen; csimpl.
  - by apply elem_of_nil in Hj.
  - destruct (decide (j ∈ f <$> idx)) as [Hin|Hout].
    + apply IH; [exact Hin|]. by rewrite length_insert.
    + rewrite foldl_insert_other by exact Hout.
      csimpl in Hj. apply elem_of_cons in Hj as [->|Hj]; [|contradiction].
      by apply list_lookup_insert_eq.
Qed.

Lemma flat_index_inj (W r c r' c' : nat) :
  c < W -> c' < W -> r * W + c = r' * W + c' -> r = r' /\ c = c'.
Proof.
  intros Hc Hc' Heq.
  destruct (lt_eq_lt_dec r r') as [[Hlt| ->]|Hlt]; [exfalso| lia |exfalso].
  - pose proof (Nat.mul_le_mono_r (S r) r' W Hlt) as Hm. simpl in Hm. lia.
  - pose proof (Nat.mul_le_mono_r (S r') r W Hlt) as Hm. simpl in Hm. lia.
Qed.

Lemma forallb_false_elem {X : Type} (f : X -> bool) (l : list X) :
  forallb f l = false -> exists x, x ∈ l /\ f x = false.
Proof.
  induction l as [|x l IH]; csimpl; [discriminate|].
  destruct (f x) eqn:Hx; csimpl.
  - intros (y & Hy & Hfy)%IH. exists y. split; [by right|exact Hfy].
  - intros _. exists x. split; [left|exact Hx].
Qed.

Lemma np_where_eq2_elem {A : Type} `{EqDecision A} (a : array2 A) (v : A)
  (r c : nat) :
  (r, c) ∈ np_where_eq2 a v <->
  r < max_r a /\ c < max_c a /\ cell a (r, c) = Some v.
Proof.
  unfold np_where_eq2. rewrite list_elem_of_filter, elem_of_scan. tauto.
Qed.

Lemma setitem2_Ok {A : Type} (a : array2 A) (idx : list (nat * nat)) (v : A) :
  wf_array2 a ->
  (forall r c, (r, c) ∈ idx -> r < max_r a /\ c < max_c a) ->
  exists m,
    setitem2 a idx v = Ok m /\ wf_array2 m /\
    max_r m = max_r a /\ max_c m = max_c a /\
    forall r c, r < max_r a -> c < max_c a ->
      cell m (r, c) = if decide ((r, c) ∈ idx) then Some v else cell a (r, c).
Proof.
  intros Hwf Hin. unfold setitem2.
  assert (forallb (fun pos => (pos.1 <? max_r a) && (pos.2 <? max_c a)) idx
          = true) as ->.
  { apply forallb_forall. intros [r c] Hpos%list_elem_of_In%Hin. csimpl.
    apply andb_true_iff. split; apply Nat.ltb_lt; lia. }
  eexists. split; [reflexivity|]. unfold wf_array2, cell in *.
  cbn [max_r max_c cells]. split; [by rewrite foldl_insert_length|].
  split; [reflexivity|]. split; [reflexivity|].
  intros r c Hr Hc. csimpl. case_decide as Hrc.
  - apply foldl_insert_hit; [|nia].
    by apply (list_elem_of_fmap_2 (fun pos => pos.1 * max_c a + pos.2)
                idx (r, c)).
  - apply foldl_insert_other. intros ([r' c'] & Heq & Hpos)%list_elem_of_fmap.
    csimpl in Heq. destruct (Hin r' c' Hpos) as [_ Hc'].
    destruct (flat_index_inj (max_c a) r c r' c' Hc Hc' Heq) as [-> ->].
    contradiction.
Qed.

Lemma setitem2_Raise {A : Type} (a : array2 A) (idx : list (nat * nat))
  (v : A) (r c : nat) :
  (r, c) ∈ idx -> ~ (r < max_r a /\ c < max_c a) ->
  setitem2 a idx v = Raise (IndexError "index is out of bounds"%string).
Proof.
  intros Hin Hout. unfold setitem2.
  destruct (forallb _ idx) eqn:Hall; [|reflexivity].
  rewrite forallb_forall in Hall.
  specialize (Hall (r, c) (proj1 (list_elem_of_In _ _) Hin)). csimpl in Hall.
  apply andb_true_iff in Hall as [H1%Nat.ltb_lt H2%Nat.ltb_lt]. tauto.
Qed.

(** X15. In the masked map of [plot_maps] a cell is UNKNOWN_LABEL where
    the label map is, and the predicted label elsewhere; the map has the
    shape of the prediction.  This holds whenever the unknown positions of
    the label map are positions of the prediction, as when both have the
    same shape. *)
Theorem plot_maps_new_map_cells (prediction label_map : array2 label) :
  wf_array2 prediction ->
  (forall r c, r < max_r label_map -> c < max_c label_map ->
     cell label_map (r, c) = Some UNKNOWN_LABEL ->
     r < max_r prediction /\ c < max_c prediction) ->
  exists new_map,
    plot_maps_new_map prediction label_map = Ok new_map /\
    wf_array2 new_map /\
    max_r new_map = max_r prediction /\ max_c new_map = max_c prediction /\
    forall r c, r < max_r prediction -> c < max_c prediction ->
      cell new_map (r, c)
      = if decide (r < max_r label_map /\ c < max_c label_map /\
                   cell label_map (r, c) = Some UNKNOWN_LABEL)
        then Some UNKNOWN_LABEL else cell prediction (r, c).
Proof.
  intros Hwf Hcover. unfold plot_maps_new_map.
  destruct (setitem2_Ok prediction (np_where_eq2 label_map UNKNOWN_LABEL)
              UNKNOWN_LABEL Hwf)
    as (m & Hm & Hwfm & Hmr & Hmc & Hcells).
  { intros r c (Hr & Hc & Hu)%np_where_eq2_elem. by apply Hcover. }
  exists m. split; [exact Hm|]. split; [exact Hwfm|].
  split; [exact Hmr|]. split; [exact Hmc|].
  intros r c Hr Hc. rewrite (Hcells r c Hr Hc).
  destruct (decide ((r, c) ∈ np_where_eq2 label_map UNKNOWN_LABEL))
    as [Hin|Hout].
  - rewrite decide_True; [reflexivity|]. by apply np_where_eq2_elem.
  - rewrite decide_False; [reflexivity|]. by rewrite <- np_where_eq2_elem.
Qed.

(** X16. Building the masked map fails, with IndexError, exactly when the
    label map is UNKNOWN_LABEL at a position that the prediction does not
    have. *)
Theorem plot_maps_new_map_out_of_bounds (prediction label_map : array2 label) :
  (exists r c, r < max_r label_map /\ c < max_c label_map /\
     cell label_map (r, c) = Some UNKNOWN_LABEL /\
     ~ (r < max_r prediction /\ c < max_c prediction)) <->
  plot_maps_new_map prediction label_map
  = Raise (IndexError "index is out of bounds"%string).
Proof.
  split.
  - intros (r & c & Hr & Hc & Hu & Hout). unfold plot_maps_new_map.
    apply (setitem2_Raise _ _ _ r c); [|exact Hout].
    by apply np_where_eq2_elem.
  - intros Hraise. unfold plot_maps_new_map, setitem2 in Hraise.
    destruct (forallb _ _) eqn:Hall; [discriminate|].
    apply forallb_false_elem in Hall as ([r c] & Hin & Hpos).
    apply np_where_eq2_elem in Hin as (Hr & Hc & Hu).
    exists r, c. split; [exact Hr|]. split; [exact Hc|]. split; [exact Hu|].
    intros [H1 H2]. csimpl in Hpos. apply andb_false_iff in Hpos.
    destruct Hpos as [Hpos|Hpos]; apply Nat.ltb_ge in Hpos; lia.
Qed.

(** ** The loop of the script *)

Section ScriptLoop.
Context {pixel lab_t outcome : Type}.
Variable body :
  string -> list pixel -> list pixel -> list lab_t -> result outcome.
Variables (names : list string) (processed_ab : list (pixel * pixel))
  (processed_lab : list lab_t).

Local Notation "'iteration'" :=
  (script_iteration pixel lab_t outcome body names processed_ab
     processed_lab).

Lemma script_iteration_Ok (i size : nat) (outs : list outcome)
  (st : nat * list outcome) :
  iteration (i, outs) size = Ok st ->
  exists name out,
    names !! i = Some name /\
    body name
      (fst <$> py_slice (Z.of_nat i) (Z.of_nat (i + size)) processed_ab)
      (snd <$> py_slice (Z.of_nat i) (Z.of_nat (i + size)) processed_ab)
      (py_slice (Z.of_nat i) (Z.of_nat (i + size)) processed_lab)
    = Ok out /\
    st = (i + size, outs ++ [out]).
Proof.
  unfold script_iteration.
  destruct (names !! i) as [name|]; cbn [mbind result_bind];
    [|discriminate].
  destruct (body name _ _ _) as [out|e] eqn:Hout; cbn [mbind result_bind];
    [|discriminate].
  intros [= <-]. by exists name, out.
Qed.

Lemma script_loop_from (sizes : list nat) (i0 i : nat)
  (outs0 outs : list outcome) :
  foldM iteration (i0, outs0) sizes = Ok (i, outs) ->
  i = i0 + sum_list sizes /\
  exists new,
    outs = outs0 ++ new /\ length new = length sizes /\
    forall k size out,
      sizes !! k = Some size -> new !! k = Some out ->
      let off := i0 + sum_list (take k sizes) in
      exists name,
        names !! off = Some name /\
        body name
          (fst <$> py_slice (Z.of_nat off) (Z.of_nat (off + size))
                     processed_ab)
          (snd <$> py_slice (Z.of_nat off) (Z.of_nat (off + size))
                     processed_ab)
          (py_slice (Z.of_nat off) (Z.of_nat (off + size)) processed_lab)
        = Ok out.
Proof.
  revert i0 outs0. induction sizes as [|size sizes IH]; intros i0 outs0.
  - csimpl. intros [= <- <-]. split; [lia|]. exists [].
    split; [by rewrite app_nil_r|]. split; [reflexivity|].
    intros k size out Hk. by rewrite lookup_nil in Hk.
  - cbn [foldM].
    destruct (iteration (i0, outs0) size) as [st|e] eqn:Hit;
      cbn [mbind result_bind]; [|discriminate].
    apply script_iteration_Ok in Hit as (name & out & Hname & Hbody & ->).
    intros (-> & new & -> & Hlen & Hnew)%IH. split; [csimpl; lia|].
    exists (out :: new). split; [by rewrite <- app_assoc|].
    split; [csimpl; lia|].
    intros [|k] size' out' Hk Hout; csimpl in *.
    + injection Hk as <-. injection Hout as <-.
      rewrite Nat.add_0_r. by exists name.
    + specialize (Hnew k size' out' Hk Hout). cbv zeta in Hnew.
      by rewrite Nat.add_assoc.
Qed.


End ScriptLoop.

(** ** The properties at concrete inputs *)

Lemma spatial_correction_keeps_unanimous_witness :
  wf_array2 corner_grid /\ (1 <= 2)%Z /\
  2 < max_r corner_grid /\ 2 < max_c corner_grid /\
  unanimous (clipped_window corner_grid 2 2 2) /\
  exists corrected v,
    spatial_correction corner_grid 2 = Ok corrected /\
    cell corner_grid (2, 2) = Some v /\ cell corrected (2, 2) = Some v.
Proof.
  assert (wf_array2 corner_grid) as Hwf by reflexivity.
  assert (1 <= 2)%Z as Hrad by lia.
  assert (2 < max_r corner_grid) as Hr by (simpl; lia).
  assert (2 < max_c corner_grid) as Hc by (simpl; lia).
  assert (unanimous (clipped_window corner_grid 2 2 2)) as Hu by reflexivity.
  repeat (split; [assumption|]).
  apply (spatial_correction_keeps_unanimous corner_grid 2 2 2
           Hwf Hrad Hr Hc Hu).
Defined.

Lemma spatial_correction_uniform_witness :
  let a := Array2 2 2 (replicate 4 UNCHANGED_LABEL) in
  wf_array2 a /\ (1 <= 3)%Z /\
  (forall v, v ∈ cells a -> v = UNCHANGED_LABEL) /\
  spatial_correction a 3 = Ok a.
Proof.
  intros a.
  assert (wf_array2 a) as Hwf by reflexivity.
  assert (1 <= 3)%Z as Hrad by lia.
  assert (forall v, v ∈ cells a -> v = UNCHANGED_LABEL) as Hall
    by (intros v Hv; by apply elem_of_replicate in Hv as [-> _]).
  repeat (split; [assumption|]).
  apply (spatial_correction_uniform a 3 UNCHANGED_LABEL Hwf Hrad Hall).
Defined.

Lemma spatial_correction_changes_to_dominant_witness :
  wf_array2 corner_grid /\ (1 <= 2)%Z /\
  0 < max_r corner_grid /\ 0 < max_c corner_grid /\
  exists corrected v orig,
    spatial_correction corner_grid 2 = Ok corrected /\
    cell corner_grid (0, 0) = Some orig /\ cell corrected (0, 0) = Some v /\
    (v <> orig ->
     dominant v (clipped_window corner_grid 2 0 0) /\
     frequency orig (clipped_window corner_grid 2 0 0)
     < frequency v (clipped_window corner_grid 2 0 0)).
Proof.
  assert (wf_array2 corner_grid) as Hwf by reflexivity.
  assert (1 <= 2)%Z as Hrad by lia.
  assert (0 < max_r corner_grid) as Hr by (simpl; lia).
  assert (0 < max_c corner_grid) as Hc by (simpl; lia).
  repeat (split; [assumption|]).
  apply (spatial_correction_changes_to_dominant corner_grid 2 0 0
           Hwf Hrad Hr Hc).
Defined.

Lemma spatial_correction_radius_below_one_witness :
  wf_array2 tied_grid /\ 0 < max_r tied_grid /\ 0 < max_c tied_grid /\
  (0 < 1)%Z /\
  spatial_correction tied_grid 0
  = Raise (IndexError "list index out of range"%string).
Proof.
  assert (wf_array2 tied_grid) as Hwf by reflexivity.
  assert (0 < max_r tied_grid) as Hr by (simpl; lia).
  assert (0 < max_c tied_grid) as Hc by (simpl; lia).
  assert (0 < 1)%Z as Hrad by lia.
  repeat (split; [assumption|]).
  apply (spatial_correction_radius_below_one tied_grid 0 Hwf Hr Hc Hrad).
Defined.

Lemma spatial_correction_empty_witness :
  let a : array2 label := Array2 0 3 [] in
  wf_array2 a /\ (max_r a = 0 \/ max_c a = 0) /\
  spatial_correction a 3 = Ok a.
Proof.
  intros a.
  assert (wf_array2 a) as Hwf by reflexivity.
  assert (max_r a = 0 \/ max_c a = 0) as Hempty by (left; reflexivity).
  repeat (split; [assumption|]).
  apply (spatial_correction_empty a 3 Hwf Hempty).
Defined.

Lemma labels_by_neighborhood_radius_monotone_witness :
  length (distances scenario) = (shape scenario).1 * (shape scenario).2 /\
  (1 <= 1)%Z /\ (1 <= 2)%Z /\
  exists idx labs idx' labs',
    labels_by_neighborhood scenario 1 = Ok (idx, labs) /\
    labels_by_neighborhood scenario 2 = Ok (idx', labs') /\
    zip idx' labs' `sublist_of` zip idx labs.
Proof.
  assert (length (distances scenario)
          = (shape scenario).1 * (shape scenario).2) as Hshape by reflexivity.
  assert (1 <= 1)%Z as Hrad by lia.
  assert (1 <= 2)%Z as Hle by lia.
  repeat (split; [assumption|]).
  apply (labels_by_neighborhood_radius_monotone scenario 1 2
           Hshape Hrad Hle).
Defined.

Lemma labels_by_neighborhood_radius_one_witness :
  length (distances scenario) = (shape scenario).1 * (shape scenario).2 /\
  labels_by_neighborhood scenario 1 = all_pseudo_labels scenario /\
  exists smoothed,
    spatial_correction
      (Array2 (shape scenario).1 (shape scenario).2
         (where_changed (distances scenario) (threshold scenario)))
      default_radius = Ok smoothed /\
    labels_by_neighborhood scenario 1
    = Ok (seq 0 (length (distances scenario)), cells smoothed).
Proof.
  assert (length (distances scenario)
          = (shape scenario).1 * (shape scenario).2) as Hshape by reflexivity.
  split; [assumption|].
  destruct (labels_by_neighborhood_radius_one scenario) as [Hall Hrun].
  split; [exact Hall|exact (Hrun Hshape)].
Defined.

Lemma labels_by_neighborhood_increasing_witness :
  length (distances scenario) = (shape scenario).1 * (shape scenario).2 /\
  (1 <= 2)%Z /\
  exists idx labs,
    labels_by_neighborhood scenario 2 = Ok (idx, labs) /\
    StronglySorted lt idx /\
    forall i, i ∈ idx -> i < length (distances scenario).
Proof.
  assert (length (distances scenario)
          = (shape scenario).1 * (shape scenario).2) as Hshape by reflexivity.
  assert (1 <= 2)%Z as Hrad by lia.
  repeat (split; [assumption|]).
  apply (labels_by_neighborhood_increasing scenario 2 Hshape Hrad).
Defined.

Lemma labels_by_neighborhood_uniform_witness :
  let quiet := PseudoDict [0; 0; 0; 0]%Q (1 # 2) (2, 2) in
  length (distances quiet) = (shape quiet).1 * (shape quiet).2 /\
  (1 <= 2)%Z /\
  Forall (fun d => (d <= threshold quiet)%Q) (distances quiet) /\
  labels_by_neighborhood quiet 2
  = Ok (seq 0 (length (distances quiet)),
        replicate (length (distances quiet)) UNCHANGED_LABEL).
Proof.
  intros quiet.
  assert (length (distances quiet)
          = (shape quiet).1 * (shape quiet).2) as Hshape by reflexivity.
  assert (1 <= 2)%Z as Hrad by lia.
  assert (Forall (fun d => (d <= threshold quiet)%Q) (distances quiet))
    as Hall by (repeat constructor; discriminate).
  repeat (split; [assumption|]).
  apply (labels_by_neighborhood_uniform quiet 2 Hshape Hrad). exact Hall.
Defined.

Lemma labels_by_percentage_count_witness :
  argsort_contract insertion_argsort /\
  (0 < 1 # 2)%Q /\ (1 # 2 <= 1)%Q /\
  (Z.of_nat (length (distances scenario)) < 2 ^ 53)%Z /\
  let ds := distances scenario in
  let t := threshold scenario in
  let size_n := length (filter (fun d => (d <= t)%Q) ds) in
  let size_c := length (filter (fun d => (t < d)%Q) ds) in
  exists sel_n sel_c : list nat,
    labels_by_percentage insertion_argsort scenario (1 # 2)
    = Ok (sel_n ++ sel_c,
          replicate (length sel_n) UNCHANGED_LABEL
          ++ replicate (length sel_c) CHANGED_LABEL) /\
    (Qfloor ((1 # 2) * inject_Z (Z.of_nat size_n))
     <= Z.of_nat (length sel_n)
     <= Qfloor ((1 # 2) * inject_Z (Z.of_nat size_n)) + 1)%Z /\
    (Qfloor ((1 # 2) * inject_Z (Z.of_nat size_c))
     <= Z.of_nat (length sel_c)
     <= Qfloor ((1 # 2) * inject_Z (Z.of_nat size_c)) + 1)%Z /\
    length sel_n <= size_n /\ length sel_c <= size_c /\
    (forall k : Z, ((1 # 2) * inject_Z (Z.of_nat size_n) == inject_Z k)%Q ->
                   Z.of_nat (length sel_n) = k) /\
    (forall k : Z, ((1 # 2) * inject_Z (Z.of_nat size_c) == inject_Z k)%Q ->
                   Z.of_nat (length sel_c) = k).
Proof.
  assert (0 < 1 # 2)%Q as Hpos by reflexivity.
  assert (1 # 2 <= 1)%Q as Hle by discriminate.
  assert (Z.of_nat (length (distances scenario)) < 2 ^ 53)%Z as Hsmall
    by reflexivity.
  split; [apply insertion_argsort_contract|].
  repeat (split; [assumption|]).
  apply (labels_by_percentage_count insertion_argsort scenario (1 # 2)
           insertion_argsort_contract Hpos Hle Hsmall).
Defined.

Lemma labels_by_percentage_positions_witness :
  argsort_contract insertion_argsort /\
  (0 < 1 # 2)%Q /\ (1 # 2 <= 1)%Q /\
  (Z.of_nat (length (distances scenario)) < 2 ^ 53)%Z /\
  exists idx labs,
    labels_by_percentage insertion_argsort scenario (1 # 2)
    = Ok (idx, labs) /\
    NoDup idx /\
    Forall2 (fun i l =>
               where_changed (distances scenario) (threshold scenario) !! i
               = Some l) idx labs.
Proof.
  assert (0 < 1 # 2)%Q as Hpos by reflexivity.
  assert (1 # 2 <= 1)%Q as Hle by discriminate.
  assert (Z.of_nat (length (distances scenario)) < 2 ^ 53)%Z as Hsmall
    by reflexivity.
  split; [apply insertion_argsort_contract|].
  repeat (split; [assumption|]).
  apply (labels_by_percentage_positions insertion_argsort scenario (1 # 2)
           insertion_argsort_contract Hpos Hle Hsmall).
Defined.

Lemma labels_by_percentage_monotone_witness :
  argsort_contract insertion_argsort /\
  (0 < 1 # 2)%Q /\ (1 # 2 <= 1)%Q /\ (1 <= 1)%Q /\
  (Z.of_nat (length (distances scenario)) < 2 ^ 53)%Z /\
  exists sel_n sel_c more_n more_c labs labs',
    labels_by_percentage insertion_argsort scenario (1 # 2)
    = Ok (sel_n ++ sel_c, labs) /\
    labels_by_percentage insertion_argsort scenario 1
    = Ok ((sel_n ++ more_n) ++ (sel_c ++ more_c), labs') /\
    (forall i, i ∈ sel_n ++ more_n ->
               (distance_at (distances scenario) i <= threshold scenario)%Q) /\
    (forall i, i ∈ sel_c ++ more_c ->
               (threshold scenario < distance_at (distances scenario) i)%Q).
Proof.
  assert (0 < 1 # 2)%Q as Hpos by reflexivity.
  assert (1 # 2 <= 1)%Q as Hpp by discriminate.
  assert (1 <= 1)%Q as Hle by discriminate.
  assert (Z.of_nat (length (distances scenario)) < 2 ^ 53)%Z as Hsmall
    by reflexivity.
  split; [apply insertion_argsort_contract|].
  repeat (split; [assumption|]).
  apply (labels_by_percentage_monotone insertion_argsort scenario (1 # 2) 1
           insertion_argsort_contract Hpos Hpp Hle Hsmall).
Defined.

Lemma clusters_dict_partition_witness :
  let clusters := [1; 0; 1; 2] in
  Forall (fun c => c < 3) clusters /\
  let d := clusters_dict clusters 3 in
  (forall i, i < length clusters ->
     exists clu l, clusters !! i = Some clu /\ d !! clu = Some l /\ i ∈ l) /\
  (seq 0 3 ≫= fun clu => default [] (d !! clu))
  ≡ₚ seq 0 (length clusters).
Proof.
  intros clusters.
  assert (Forall (fun c => c < 3) clusters) as Hall
    by (repeat constructor; lia).
  split; [assumption|].
  apply (clusters_dict_partition clusters 3 Hall).
Defined.

Lemma plot_maps_new_map_cells_witness :
  wf_array2 tied_grid /\
  (forall r c, r < max_r unknown_diagonal -> c < max_c unknown_diagonal ->
     cell unknown_diagonal (r, c) = Some UNKNOWN_LABEL ->
     r < max_r tied_grid /\ c < max_c tied_grid) /\
  exists new_map,
    plot_maps_new_map tied_grid unknown_diagonal = Ok new_map /\
    wf_array2 new_map /\
    max_r new_map = max_r tied_grid /\ max_c new_map = max_c tied_grid /\
    forall r c, r < max_r tied_grid -> c < max_c tied_grid ->
      cell new_map (r, c)
      = if decide (r < max_r unknown_diagonal /\ c < max_c unknown_diagonal /\
                   cell unknown_diagonal (r, c) = Some UNKNOWN_LABEL)
        then Some UNKNOWN_LABEL else cell tied_grid (r, c).
Proof.
  assert (wf_array2 tied_grid) as Hwf by reflexivity.
  assert (forall r c, r < max_r unknown_diagonal ->
            c < max_c unknown_diagonal ->
            cell unknown_diagonal (r, c) = Some UNKNOWN_LABEL ->
            r < max_r tied_grid /\ c < max_c tied_grid) as Hcover
    by (simpl; intros; lia).
  repeat (split; [assumption|]).
  apply (plot_maps_new_map_cells tied_grid unknown_diagonal Hwf Hcover).
Defined.



